(** * portcheck: a shallow embedding of the port prober, the process resolver
      and the range scanner, with the properties of its specification.

    The repository holds the program twice: [src/main.go] (compact) and a
    second, commented copy (the unnamed source part 000).  Both are embedded,
    function by function, in the modules [MainGo] and [Part000].

    Conventions of the embedding.
    - A Go [int] is a [Z]; the only arithmetic on it, the loop counter of the
      range scan, wraps at 64 bits ([int_add]).
    - A Go [string] is a [string]; [strings.Fields] and [strings.TrimSpace]
      are modelled on ASCII text (the kernel tables are ASCII).
    - A run-time panic (index out of range, negative channel size, send on a
      closed channel) is the [None] of an [option], or the outcome
      [Panicked] of a goroutine step.
    - The file system under /proc is a read-only record [FS]; the listening
      sockets of the host are a state [Net] threaded through [checkPort].
    - The goroutines of [checkPortRange] are an interleaving machine
      ([step], [run]) driven by an explicit schedule. *)

From Stdlib Require Import ZArith Lia String Ascii List Bool.
From stdpp Require Import base tactics option list list_numbers sorting gmap strings.

Local Open Scope string_scope.
Local Open Scope Z_scope.
Local Open Scope list_scope.

(* ===================================================================== *)
(** * Go library functions used by the program                            *)
(* ===================================================================== *)

Module GoLib.

(** Bounds of the 64-bit [int]. *)
Definition min_int : Z := - 2 ^ 63.
Definition max_int : Z := 2 ^ 63 - 1.

(** Two's complement wrap-around of a 64-bit signed integer. *)
Definition wrap64 (z : Z) : Z := (z + 2 ^ 63) mod 2 ^ 64 - 2 ^ 63.

Definition int_add (a b : Z) : Z := wrap64 (a + b).
Definition int_sub (a b : Z) : Z := wrap64 (a - b).

(** The ASCII white space of [strings.Fields] and [strings.TrimSpace]:
    tab, line feed, vertical tab, form feed, carriage return, space. *)
Definition isSpace (c : ascii) : bool :=
  let n := N_of_ascii c in
  ((9 <=? n)%N && (n <=? 13)%N) || (n =? 32)%N.

Definition is_empty (s : string) : bool :=
  match s with EmptyString => true | String _ _ => false end.

Definition snoc (s : string) (c : ascii) : string := s +:+ String c EmptyString.

(** [strings.Fields]: the maximal runs of non-space characters. [cur] is
    the field being read. *)
Fixpoint Fields_from (cur : string) (s : string) : list string :=
  match s with
  | EmptyString => if is_empty cur then [] else [cur]
  | String c s' =>
      if isSpace c
      then (if is_empty cur then Fields_from "" s' else cur :: Fields_from "" s')
      else Fields_from (snoc cur c) s'
  end.

Definition Fields (s : string) : list string := Fields_from "" s.

(** [strings.Split(s, sep)] for a one-character separator: the pieces
    between the separators, empty pieces included; a string without the
    separator is returned whole. *)
Fixpoint Split_from (cur : string) (s : string) (sep : ascii) : list string :=
  match s with
  | EmptyString => [cur]
  | String c s' =>
      if Ascii.eqb c sep
      then cur :: Split_from "" s' sep
      else Split_from (snoc cur c) s' sep
  end.

Definition Split (s : string) (sep : ascii) : list string := Split_from "" s sep.

(** [strings.TrimSpace]. *)
Fixpoint TrimLeft (s : string) : string :=
  match s with
  | EmptyString => EmptyString
  | String c s' => if isSpace c then TrimLeft s' else s
  end.

Fixpoint TrimRight (s : string) : string :=
  match s with
  | EmptyString => EmptyString
  | String c s' =>
      let t := TrimRight s' in
      if isSpace c && is_empty t then EmptyString else String c t
  end.

Definition TrimSpace (s : string) : string := TrimRight (TrimLeft s).

(** [strconv.Atoi]: an optional sign followed by at least one decimal
    digit; [None] is the error result (syntax or range). *)
Definition digit_val (c : ascii) : option Z :=
  let n := Z.of_N (N_of_ascii c) in
  if (48 <=? n) && (n <=? 57) then Some (n - 48) else None.

Fixpoint parse_digits (acc : Z) (s : string) : option Z :=
  match s with
  | EmptyString => Some acc
  | String c s' =>
      match digit_val c with
      | Some d => parse_digits (10 * acc + d) s'
      | None => None
      end
  end.

Definition Atoi (s : string) : option Z :=
  match s with
  | EmptyString => None
  | String c rest =>
      let neg := Ascii.eqb c "-" in
      let digits := if neg || Ascii.eqb c "+" then rest else s in
      if is_empty digits then None
      else match parse_digits 0 digits with
           | Some v =>
               let v := if neg then - v else v in
               if (min_int <=? v) && (v <=? max_int) then Some v else None
           | None => None
           end
  end.

(** [fmt.Sprintf("%04X", n)]: upper-case hexadecimal, padded with zeros
    to four characters, the sign of a negative number counted in the
    width. Sixteen digits are enough for a 64-bit magnitude. *)
Definition hex_digit (d : Z) : ascii :=
  ascii_of_N (Z.to_N (if d <? 10 then 48 + d else 55 + d)).

Fixpoint hex_from (fuel : nat) (n : Z) (acc : string) : string :=
  match fuel with
  | O => acc
  | S fuel' =>
      let acc' := String (hex_digit (n mod 16)) acc in
      if n / 16 =? 0 then acc' else hex_from fuel' (n / 16) acc'
  end.

Fixpoint zeros (k : nat) : string :=
  match k with O => EmptyString | S k' => String "0" (zeros k') end.

Definition pad_zeros (width : nat) (s : string) : string :=
  zeros (width - String.length s) +:+ s.

Definition Sprintf_04X (n : Z) : string :=
  if n <? 0
  then String "-" (pad_zeros 3 (hex_from 16 (- n) ""))
  else pad_zeros 4 (hex_from 16 n "").

End GoLib.

Import GoLib.

(* ===================================================================== *)
(** * The operating system as the program sees it                         *)
(* ===================================================================== *)

(** One entry of the directory /proc, with what the program reads below it.
    - [pe_name]: the entry name [Readdirnames] reports;
    - [pe_fd]: [os.ReadDir] of /proc/<name>/fd, [None] when it reports an
      error (both programs then skip the entry); for each descriptor, the
      result of [os.Readlink], [None] when it fails;
    - [pe_comm], [pe_comm_err]: the bytes and the error flag [os.ReadFile]
      returns for /proc/<name>/comm (on an error the bytes read so far,
      none when the file cannot be opened). *)
Record ProcEntry := {
  pe_name : string;
  pe_fd : option (list (option string));
  pe_comm : string;
  pe_comm_err : bool;
}.

(** The part of the file system the resolver reads.
    - [proc_net_tcp], [proc_net_tcp6]: [None] when [os.Open] fails, else the
      lines the [bufio.Scanner] yields, header line first;
    - [proc_open_err]: whether [os.Open("/proc")] fails;
    - [proc_names], [proc_names_err]: the entries and the error flag of
      [Readdirnames(-1)] (on an error, the entries read until then). *)
Record FS := {
  proc_net_tcp : option (list string);
  proc_net_tcp6 : option (list string);
  proc_open_err : bool;
  proc_names : list ProcEntry;
  proc_names_err : bool;
}.

Definition os_Open (fs : FS) (path : string) : option (list string) :=
  if String.eqb path "/proc/net/tcp" then proc_net_tcp fs
  else if String.eqb path "/proc/net/tcp6" then proc_net_tcp6 fs
  else None.

(** The same file system with another IPv6 socket table. *)
Definition with_tcp6 (fs : FS) (t : option (list string)) : FS :=
  {| proc_net_tcp := proc_net_tcp fs; proc_net_tcp6 := t;
     proc_open_err := proc_open_err fs; proc_names := proc_names fs;
     proc_names_err := proc_names_err fs |}.

(** The TCP ports of the host.
    - [listening]: the local ports that hold a listening socket;
    - [refused]: the ports the kernel refuses to this process for another
      reason (privilege, address family);
    - [ephemeral]: the port the kernel picks when asked for port 0. *)
Record Net := {
  listening : gset Z;
  refused : Z → bool;
  ephemeral : Z;
}.

Definition net_bound (n : Net) (l : gset Z) : Net :=
  {| listening := l; refused := refused n; ephemeral := ephemeral n |}.

(** [net.Listen("tcp", ":<port>")]: the listener (the port it holds) or
    [None] for an error, and the ports afterwards. *)
Definition net_Listen (n : Net) (port : Z) : option Z * Net :=
  let q := if port =? 0 then ephemeral n else port in
  if (1 <=? q) && (q <=? 65535) && negb (refused n q)
     && negb (bool_decide (q ∈ listening n))
  then (Some q, net_bound n ({[ q ]} ∪ listening n))
  else (None, n).

(** [listener.Close()]. *)
Definition listener_Close (n : Net) (l : Z) : Net :=
  net_bound n (listening n ∖ {[ l ]}).

(** The struct both programs declare. *)
Record PortResult := {
  Port : Z;
  InUse : bool;
  PID : Z;
  Process : string;
}.

(** The descriptor loop of [findPIDByInode]: whether some descriptor's
    link reads without error and equals [socketLink]. *)
Fixpoint holds_link (socketLink : string) (fds : list (option string)) : bool :=
  match fds with
  | [] => false
  | Some link :: fds' =>
      if String.eqb link socketLink then true else holds_link socketLink fds'
  | None :: fds' => holds_link socketLink fds'
  end.

(* ===================================================================== *)
(** * src/main.go                                                         *)
(* ===================================================================== *)

Module MainGo.

(** The loop over the entries of /proc. *)
Fixpoint scan_entries (socketLink : string) (entries : list ProcEntry)
  : Z * string :=
  match entries with
  | [] => (0, "")
  | entry :: rest =>
      match Atoi (pe_name entry) with
      | None => scan_entries socketLink rest
      | Some pid =>
          match pe_fd entry with
          | None => scan_entries socketLink rest
          | Some fds =>
              if holds_link socketLink fds
              then (pid, TrimSpace (pe_comm entry))
              else scan_entries socketLink rest
          end
      end
  end.

Definition findPIDByInode (fs : FS) (inode : string) : Z * string :=
  if proc_open_err fs then (0, "")
  else scan_entries ("socket:[" +:+ inode +:+ "]") (proc_names fs).

(** The loop over the rows of a socket table. [None] is an index out of
    range. The conjunction of the source is evaluated left to right and
    stops at its first false operand. *)
Fixpoint scan_rows (fs : FS) (portHex : string) (rows : list string)
  : option (Z * string) :=
  match rows with
  | [] => Some (0, "")
  | row :: rest =>
      let fields := Fields row in
      if (length fields <? 10)%nat then scan_rows fs portHex rest
      else
        f1 ← fields !! 1%nat;
        let parts := Split f1 ":" in
        if (length parts =? 2)%nat
        then p1 ← parts !! 1%nat;
             if String.eqb p1 portHex
             then f3 ← fields !! 3%nat;
                  if String.eqb f3 "0A"
                  then f9 ← fields !! 9%nat; Some (findPIDByInode fs f9)
                  else scan_rows fs portHex rest
             else scan_rows fs portHex rest
        else scan_rows fs portHex rest
  end.

Definition searchNetFile (fs : FS) (path : string) (port : Z)
  : option (Z * string) :=
  match os_Open fs path with
  | None => Some (0, "")
  | Some lines => scan_rows fs (Sprintf_04X port) (tail lines)
  end.

(** The loop over the two socket tables. *)
Fixpoint search_files (fs : FS) (port : Z) (files : list string)
  : option (Z * string) :=
  match files with
  | [] => Some (0, "")
  | f :: rest =>
      r ← searchNetFile fs f port;
      if 0 <? r.1 then Some r else search_files fs port rest
  end.

Definition findProcessByPort (fs : FS) (port : Z) : option (Z * string) :=
  search_files fs port ["/proc/net/tcp"; "/proc/net/tcp6"].

Definition checkPort (n : Net) (fs : FS) (port : Z) (getPID : bool)
  : option (PortResult * Net) :=
  match net_Listen n port with
  | (None, n1) =>
      if getPID
      then r ← findProcessByPort fs port;
           Some ({| Port := port; InUse := true; PID := r.1; Process := r.2 |}, n1)
      else Some ({| Port := port; InUse := true; PID := 0; Process := "" |}, n1)
  | (Some listener, n1) =>
      Some ({| Port := port; InUse := false; PID := 0; Process := "" |},
            listener_Close n1 listener)
  end.

End MainGo.

(* ===================================================================== *)
(** * The second copy of the program (unnamed source part 000)            *)
(* ===================================================================== *)

Module Part000.

Fixpoint scan_entries (socketLink : string) (entries : list ProcEntry)
  : Z * string :=
  match entries with
  | [] => (0, "")
  | entry :: rest =>
      match Atoi (pe_name entry) with
      | None => scan_entries socketLink rest
      | Some pid =>
          match pe_fd entry with
          | None => scan_entries socketLink rest
          | Some fds =>
              if holds_link socketLink fds
              then if pe_comm_err entry
                   then (pid, "unknown")
                   else (pid, TrimSpace (pe_comm entry))
              else scan_entries socketLink rest
          end
      end
  end.

Definition findPIDByInode (fs : FS) (inode : string) : Z * string :=
  if proc_open_err fs then (0, "")
  else if proc_names_err fs then (0, "")
  else scan_entries ("socket:[" +:+ inode +:+ "]") (proc_names fs).

Fixpoint scan_rows (fs : FS) (portHex : string) (rows : list string)
  : option (Z * string) :=
  match rows with
  | [] => Some (0, "")
  | row :: rest =>
      let fields := Fields row in
      if (length fields <? 10)%nat then scan_rows fs portHex rest
      else
        localAddr ← fields !! 1%nat;
        let parts := Split localAddr ":" in
        if negb (length parts =? 2)%nat then scan_rows fs portHex rest
        else
          p1 ← parts !! 1%nat;
          if String.eqb p1 portHex
          then f3 ← fields !! 3%nat;
               if String.eqb f3 "0A"
               then inode ← fields !! 9%nat; Some (findPIDByInode fs inode)
               else scan_rows fs portHex rest
          else scan_rows fs portHex rest
  end.

Definition searchNetFile (fs : FS) (path : string) (port : Z)
  : option (Z * string) :=
  match os_Open fs path with
  | None => Some (0, "")
  | Some lines => scan_rows fs (Sprintf_04X port) (tail lines)
  end.

(** The loop over the two socket tables. *)
Fixpoint search_files (fs : FS) (port : Z) (files : list string)
  : option (Z * string) :=
  match files with
  | [] => Some (0, "")
  | f :: rest =>
      r ← searchNetFile fs f port;
      if 0 <? r.1 then Some r else search_files fs port rest
  end.

Definition findProcessByPort (fs : FS) (port : Z) : option (Z * string) :=
  search_files fs port ["/proc/net/tcp"; "/proc/net/tcp6"].

Definition checkPort (n : Net) (fs : FS) (port : Z) (getPID : bool)
  : option (PortResult * Net) :=
  match net_Listen n port with
  | (None, n1) =>
      if getPID
      then r ← findProcessByPort fs port;
           Some ({| Port := port; InUse := true; PID := r.1; Process := r.2 |}, n1)
      else Some ({| Port := port; InUse := true; PID := 0; Process := "" |}, n1)
  | (Some listener, n1) =>
      Some ({| Port := port; InUse := false; PID := 0; Process := "" |},
            listener_Close n1 listener)
  end.

End Part000.

(* ===================================================================== *)
(** * The sort of [checkPortRange]                                        *)
(* ===================================================================== *)

(** A loop body run for each index of a list, in order; a panic of the
    body ends the loop. *)
Fixpoint for_each {A : Type} (body : nat → A → option A) (js : list nat) (a : A)
  : option A :=
  match js with
  | [] => Some a
  | j :: js' =>
      match body j a with
      | Some a' => for_each body js' a'
      | None => None
      end
  end.

(** The body of the inner loop: [if a[i].Port > a[j].Port] swap [a[i]] and
    [a[j]]. [None] is an index out of range. *)
Definition compare_swap (i j : nat) (a : list PortResult) : option (list PortResult) :=
  x ← a !! i;
  y ← a !! j;
  if Port y <? Port x then Some (<[j := x]> (<[i := y]> a)) else Some a.

(** [for j := i + 1; j < len(a); j++]. The swaps keep the length, so the
    bound is the length at loop entry ([compare_swap_length]). *)
Definition inner_loop (i : nat) (a : list PortResult) : option (list PortResult) :=
  for_each (compare_swap i) (seq (S i) (length a - S i)) a.

(** src/main.go: [for i := range portResults]. *)
Definition MainGo_sort (a : list PortResult) : option (list PortResult) :=
  for_each inner_loop (seq 0 (length a)) a.

(** Part 000: [for i := 0; i < len(portResults)-1; i++] (no round on an
    empty slice). *)
Definition Part000_sort (a : list PortResult) : option (list PortResult) :=
  for_each inner_loop (seq 0 (length a - 1)) a.

(* ===================================================================== *)
(** * [checkPortRange] as an interleaving machine                         *)
(* ===================================================================== *)

(** Where a probe goroutine stands:
    - [AtAcquire]: before [sem <- struct{}{}];
    - [InCheckPort]: slot acquired, inside [checkPort];
    - [AtSend r]: [checkPort] returned [r], before [results <- r];
    - [AtRelease]: before the deferred [<-sem];
    - [AtDone]: before the deferred [wg.Done()];
    - [Exited]. *)
Inductive TaskPC :=
  | AtAcquire
  | InCheckPort
  | AtSend (r : PortResult)
  | AtRelease
  | AtDone
  | Exited.

Record Task := { t_port : Z; t_pc : TaskPC }.

(** The calling goroutine: in the spawning loop with loop variable [port],
    in [for r := range results], or past it. *)
Inductive MainPC :=
  | Spawning (port : Z)
  | Collecting
  | Finished.

(** The goroutine [go func() { wg.Wait(); close(results) }()]. *)
Inductive CloserPC :=
  | NotStarted
  | Waiting
  | Closing
  | Closed.

Record Scan := {
  main_pc : MainPC;
  closer_pc : CloserPC;
  tasks : list Task;
  wg : Z;                       (* the WaitGroup counter *)
  sem : nat;                    (* len(sem) *)
  results : list PortResult;    (* the buffer of the channel [results] *)
  results_closed : bool;
  portResults : list PortResult;
}.

(** What the scheduler runs next; a probe goroutine inside [checkPort]
    sees the host as it is at that moment. *)
Inductive Event :=
  | RunMain
  | RunCloser
  | RunTask (k : nat) (n : Net) (fs : FS).

(** A goroutine takes a step, cannot take one now (blocked, not started or
    returned), or panics. *)
Inductive Outcome :=
  | Next (s : Scan)
  | Blocked
  | Panicked.

(** The capacity of the semaphore channel. *)
Definition sem_cap : nat := 100.

Definition is_probing (pc : TaskPC) : bool :=
  match pc with InCheckPort => true | _ => false end.

(** Holding a slot: between the send on [sem] and the receive from it. *)
Definition holds_slot (pc : TaskPC) : bool :=
  match pc with InCheckPort | AtSend _ | AtRelease => true | _ => false end.

Fixpoint count_pc (f : TaskPC → bool) (ts : list Task) : nat :=
  match ts with
  | [] => O
  | t :: ts' => ((if f (t_pc t) then 1 else 0) + count_pc f ts')%nat
  end.

(** The number of ports being probed. *)
Definition probing (s : Scan) : nat := count_pc is_probing (tasks s).

Section Machine.

Variable checkPort : Net → FS → Z → bool → option (PortResult * Net).
Variables (start end_ : Z) (showPID : bool).

(** [end-start+1], the capacity of [results]. *)
Definition results_cap : Z := int_add (int_sub end_ start) 1.

(** The state after the two [make]; a negative capacity panics. *)
Definition init : option Scan :=
  if results_cap <? 0 then None
  else Some {| main_pc := Spawning start; closer_pc := NotStarted; tasks := [];
               wg := 0; sem := 0; results := []; results_closed := false;
               portResults := [] |}.

Definition set_task (s : Scan) (k : nat) (t : Task) : Scan :=
  {| main_pc := main_pc s; closer_pc := closer_pc s;
     tasks := <[k := t]> (tasks s);
     wg := wg s; sem := sem s; results := results s;
     results_closed := results_closed s; portResults := portResults s |}.

(** The calling goroutine. In the spawning loop, while [port <= end]:
    [wg.Add(1)], start the goroutine of [port], [port++]; past the loop,
    start the closer. In [for r := range results]: receive the oldest
    result and append it to [portResults]; on an empty channel, leave the
    loop when the channel is closed and wait otherwise. *)
Definition step_main (s : Scan) : Outcome :=
  match main_pc s with
  | Spawning port =>
      if port <=? end_
      then (* wg.Add(1); go func(p int) {...}(port); port++ *)
        Next {| main_pc := Spawning (int_add port 1); closer_pc := closer_pc s;
                tasks := tasks s ++ [{| t_port := port; t_pc := AtAcquire |}];
                wg := wg s + 1; sem := sem s; results := results s;
                results_closed := results_closed s; portResults := portResults s |}
      else (* go func() { wg.Wait(); close(results) }() *)
        Next {| main_pc := Collecting; closer_pc := Waiting;
                tasks := tasks s; wg := wg s; sem := sem s; results := results s;
                results_closed := results_closed s; portResults := portResults s |}
  | Collecting =>
      match results s with
      | r :: buf =>
          Next {| main_pc := Collecting; closer_pc := closer_pc s;
                  tasks := tasks s; wg := wg s; sem := sem s; results := buf;
                  results_closed := results_closed s;
                  portResults := portResults s ++ [r] |}
      | [] =>
          if results_closed s
          then Next {| main_pc := Finished; closer_pc := closer_pc s;
                       tasks := tasks s; wg := wg s; sem := sem s; results := [];
                       results_closed := true; portResults := portResults s |}
          else Blocked
      end
  | Finished => Blocked
  end.

(** The closer: [wg.Wait()] returns once the counter is zero; then
    [close(results)], which panics on a closed channel. *)
Definition step_closer (s : Scan) : Outcome :=
  match closer_pc s with
  | NotStarted => Blocked
  | Waiting =>
      if wg s =? 0
      then Next {| main_pc := main_pc s; closer_pc := Closing;
                   tasks := tasks s; wg := wg s; sem := sem s; results := results s;
                   results_closed := results_closed s; portResults := portResults s |}
      else Blocked
  | Closing =>
      if results_closed s then Panicked
      else Next {| main_pc := main_pc s; closer_pc := Closed;
                   tasks := tasks s; wg := wg s; sem := sem s; results := results s;
                   results_closed := true; portResults := portResults s |}
  | Closed => Blocked
  end.

(** The probe goroutine number [k], on the host [(n, fs)]:
    - [sem <- struct{}{}] waits while [sem] holds [sem_cap] values;
    - [checkPort(p, showPID)];
    - [results <- r] panics on a closed channel and waits on a full one;
    - the deferred [<-sem] waits on an empty channel;
    - the deferred [wg.Done()] panics when the counter would go negative. *)
Definition step_task (k : nat) (n : Net) (fs : FS) (s : Scan) : Outcome :=
  match tasks s !! k with
  | None => Blocked
  | Some t =>
      let p := t_port t in
      match t_pc t with
      | AtAcquire =>
          if (sem s <? sem_cap)%nat
          then Next {| main_pc := main_pc s; closer_pc := closer_pc s;
                       tasks := <[k := {| t_port := p; t_pc := InCheckPort |}]> (tasks s);
                       wg := wg s; sem := S (sem s); results := results s;
                       results_closed := results_closed s;
                       portResults := portResults s |}
          else Blocked
      | InCheckPort =>
          match checkPort n fs p showPID with
          | Some (r, _) => Next (set_task s k {| t_port := p; t_pc := AtSend r |})
          | None => Panicked
          end
      | AtSend r =>
          if results_closed s then Panicked
          else if Z.of_nat (length (results s)) <? results_cap
          then Next {| main_pc := main_pc s; closer_pc := closer_pc s;
                       tasks := <[k := {| t_port := p; t_pc := AtRelease |}]> (tasks s);
                       wg := wg s; sem := sem s; results := results s ++ [r];
                       results_closed := results_closed s;
                       portResults := portResults s |}
          else Blocked
      | AtRelease =>
          match sem s with
          | O => Blocked
          | S m =>
              Next {| main_pc := main_pc s; closer_pc := closer_pc s;
                      tasks := <[k := {| t_port := p; t_pc := AtDone |}]> (tasks s);
                      wg := wg s; sem := m; results := results s;
                      results_closed := results_closed s;
                      portResults := portResults s |}
          end
      | AtDone =>
          if wg s <=? 0 then Panicked
          else Next {| main_pc := main_pc s; closer_pc := closer_pc s;
                       tasks := <[k := {| t_port := p; t_pc := Exited |}]> (tasks s);
                       wg := wg s - 1; sem := sem s; results := results s;
                       results_closed := results_closed s;
                       portResults := portResults s |}
      | Exited => Blocked
      end
  end.

Definition step (ev : Event) (s : Scan) : Outcome :=
  match ev with
  | RunMain => step_main s
  | RunCloser => step_closer s
  | RunTask k n fs => step_task k n fs s
  end.

(** The machine under a schedule. *)
Fixpoint run (evs : list Event) (s : Scan) : Outcome :=
  match evs with
  | [] => Next s
  | ev :: evs' =>
      match step ev s with
      | Next s' => run evs' s'
      | Blocked => Blocked
      | Panicked => Panicked
      end
  end.

(** [checkPortRange] under a schedule, from the two [make] on. *)
Definition checkPortRange (evs : list Event) : Outcome :=
  match init with
  | Some s => run evs s
  | None => Panicked
  end.

End Machine.

(* ===================================================================== *)
(** * Vocabulary of the specification                                     *)
(* ===================================================================== *)

(** A row the scanner skips: fewer than ten fields, or a local address that
    does not split on the colon into two parts. *)
Definition malformed (row : string) : Prop :=
  (length (Fields row) < 10)%nat
  ∨ ∃ f1, Fields row !! 1%nat = Some f1 ∧ length (Split f1 ":") ≠ 2%nat.

(** The four upper-case hexadecimal digits of a port, most significant
    first. *)
Definition upper_hex_digit (d : Z) : ascii :=
  match String.get (Z.to_nat d) "0123456789ABCDEF" with
  | Some c => c
  | None => "0"%char
  end.

Definition hex4 (p : Z) : string :=
  String (upper_hex_digit (p / 4096))
    (String (upper_hex_digit (p / 256 mod 16))
       (String (upper_hex_digit (p / 16 mod 16))
          (String (upper_hex_digit (p mod 16)) EmptyString))).

(** A row of a socket table that is a listening socket on the port written
    [portHex]: at least ten fields, a local address of two parts of which
    the second is [portHex], and the state 0A. The result is its inode
    column. *)
Definition listening_row (portHex : string) (row : string) : option string :=
  let fields := Fields row in
  match fields !! 1%nat, fields !! 3%nat, fields !! 9%nat with
  | Some f1, Some f3, Some f9 =>
      match Split f1 ":" with
      | [ _; p1 ] =>
          if String.eqb p1 portHex && String.eqb f3 "0A" then Some f9 else None
      | _ => None
      end
  | _, _, _ => None
  end.

(** [row] is the first listening row for [portHex] of the table [lines]
    (whose first line is the header), and [inode] is its inode column. *)
Definition first_listening_row
  (portHex : string) (lines : list string) (row inode : string) : Prop :=
  ∃ header pre post,
    lines = header :: pre ++ row :: post
    ∧ Forall (λ r, listening_row portHex r = None) pre
    ∧ listening_row portHex row = Some inode.

(** The table has no listening row for [portHex]. *)
Definition no_listening_row (portHex : string) (table : option (list string)) : Prop :=
  match table with
  | None => True
  | Some lines => Forall (λ r, listening_row portHex r = None) (tail lines)
  end.

(** An entry of /proc that is a process (a numeric name) whose descriptors
    can be listed and of which one is a link equal to [socketLink]; the
    result is its pid. *)
Definition owner_entry (socketLink : string) (e : ProcEntry) : option Z :=
  match Atoi (pe_name e), pe_fd e with
  | Some pid, Some fds => if holds_link socketLink fds then Some pid else None
  | _, _ => None
  end.

(** [e] is the first entry of /proc, in the order of enumeration, that owns
    [socketLink]. *)
Definition first_owner (fs : FS) (socketLink : string) (e : ProcEntry) (pid : Z) : Prop :=
  ∃ before after,
    proc_names fs = before ++ e :: after
    ∧ Forall (λ e', owner_entry socketLink e' = None) before
    ∧ owner_entry socketLink e = Some pid.

(** ** The range scan *)

(** The two programs under a schedule. *)
Definition MainGo_checkPortRange (start end_ : Z) (showPID : bool) (evs : list Event)
  : Outcome :=
  checkPortRange MainGo.checkPort start end_ showPID evs.

Definition Part000_checkPortRange (start end_ : Z) (showPID : bool) (evs : list Event)
  : Outcome :=
  checkPortRange Part000.checkPort start end_ showPID evs.

(** The ports of a result sequence are exactly those of [start, end_], each
    once, in strictly ascending order. *)
Definition exact_ascending (start end_ : Z) (out : list PortResult) : Prop :=
  length out = Z.to_nat (end_ - start + 1)
  ∧ Port <$> out = seqZ start (end_ - start + 1)
  ∧ (∀ p, p ∈ (Port <$> out) ↔ start ≤ p ≤ end_)
  ∧ NoDup (Port <$> out)
  ∧ StronglySorted Z.lt (Port <$> out).

(** A goroutine whose result is sent: past [results <- r]. *)
Definition past_send (pc : TaskPC) : bool :=
  match pc with AtRelease | AtDone | Exited => true | _ => false end.

Definition not_exited (pc : TaskPC) : bool :=
  match pc with Exited => false | _ => true end.

(** The ports of the goroutines whose result is sent. *)
Fixpoint sent_ports (ts : list Task) : list Z :=
  match ts with
  | [] => []
  | t :: ts' =>
      if past_send (t_pc t) then t_port t :: sent_ports ts' else sent_ports ts'
  end.

(** The result a goroutine is about to send is that of its own port. *)
Definition task_ok (t : Task) : Prop :=
  match t_pc t with AtSend r => Port r = t_port t | _ => True end.

(** The loop variable of the spawning loop, [end_ + 1] once it is over. *)
Definition next_port (end_ : Z) (s : Scan) : Z :=
  match main_pc s with Spawning p => p | _ => end_ + 1 end.

(** The slots taken are the goroutines between acquire and release, and
    there are at most [sem_cap] of them. *)
Definition slot_inv (s : Scan) : Prop :=
  sem s = count_pc holds_slot (tasks s) ∧ (sem s ≤ sem_cap)%nat.

(** What holds of every state of a scan of a valid range. *)
Record scan_inv (start end_ : Z) (s : Scan) : Prop := {
  inv_next : start ≤ next_port end_ s ≤ end_ + 1;
  inv_ports : t_port <$> tasks s = seqZ start (next_port end_ s - start);
  inv_slots : slot_inv s;
  inv_wg : wg s = Z.of_nat (count_pc not_exited (tasks s));
  inv_results : Port <$> (portResults s ++ results s) ≡ₚ sent_ports (tasks s);
  inv_tasks : Forall task_ok (tasks s);
  inv_control :
    match closer_pc s with
    | NotStarted => (∃ p, main_pc s = Spawning p) ∧ results_closed s = false
    | Waiting => main_pc s = Collecting ∧ results_closed s = false
    | Closing => main_pc s = Collecting ∧ results_closed s = false ∧ wg s = 0
    | Closed => (main_pc s = Collecting ∨ main_pc s = Finished)
                ∧ results_closed s = true ∧ wg s = 0
    end;
  inv_finished : main_pc s = Finished → results s = [];
}.

(** The number of steps a goroutine has left, the receive of its result by
    the caller counted with its send. *)
Definition task_steps (pc : TaskPC) : Z :=
  match pc with
  | AtAcquire => 6
  | InCheckPort => 5
  | AtSend _ => 4
  | AtRelease => 2
  | AtDone => 1
  | Exited => 0
  end.

Fixpoint tasks_steps (ts : list Task) : Z :=
  match ts with
  | [] => 0
  | t :: ts' => task_steps (t_pc t) + tasks_steps ts'
  end.

(** The number of steps left to the whole scan. *)
Definition steps_left (end_ : Z) (s : Scan) : Z :=
  match main_pc s with
  | Spawning p => 7 * (end_ + 1 - p) + 2
  | Collecting => 1
  | Finished => 0
  end
  + match closer_pc s with
    | NotStarted | Waiting => 2
    | Closing => 1
    | Closed => 0
    end
  + tasks_steps (tasks s)
  + Z.of_nat (length (results s)).

(** The order of the sorted results. *)
Definition port_le (r1 r2 : PortResult) : Prop := Port r1 ≤ Port r2.

(** A prober leaves the ports of the host as it found them; a successful
    bind took a free port and the listener was closed before the return; a
    probe that reports a port available is followed by probes that report
    it available. *)
Definition probe_is_transient
  (checkPort : Net → FS → Z → bool → option (PortResult * Net)) : Prop :=
  ∀ n fs port getPID,
    ∃ r, checkPort n fs port getPID = Some (r, n)
         ∧ (InUse r = false →
            (∃ q, net_Listen n port = (Some q, net_bound n ({[ q ]} ∪ listening n))
                  ∧ (q ∉ listening n)
                  ∧ listener_Close (net_bound n ({[ q ]} ∪ listening n)) q = n)
            ∧ ∀ fs' getPID',
                ∃ r', checkPort n fs' port getPID' = Some (r', n) ∧ InUse r' = false).

(** ** Hosts used in the examples *)

Definition tcp_header : string :=
  "  sl  local_address rem_address   st tx_queue rx_queue tr tm->when retrnsmt   uid  timeout inode".

(** A listening socket on port 8080 (hexadecimal 1F90) of all addresses,
    inode 111. *)
Definition row_8080_inode_111 : string :=
  "   0: 00000000:1F90 00000000:0000 0A 00000000:00000000 00:00000000 00000000  1000        0 111 1 0000000000000000 100 0 0 10 0".

(** A listening socket on port 8080 of the IPv6 wildcard, inode 222. *)
Definition row6_8080_inode_222 : string :=
  "   0: 00000000000000000000000000000000:1F90 00000000000000000000000000000000:0000 0A 00000000:00000000 00:00000000 00000000  1000        0 222 1 0000000000000000 100 0 0 10 0".

(** An established connection from port 8080: state 01. *)
Definition row_8080_established : string :=
  "   1: 0100007F:1F90 0100007F:C350 01 00000000:00000000 00:00000000 00000000  1000        0 333 1 0000000000000000 20 4 30 10 -1".

Definition proc_entry (name : string) (links : list (option string)) (comm : string)
  : ProcEntry :=
  {| pe_name := name; pe_fd := Some links; pe_comm := comm; pe_comm_err := false |}.

(** A process whose comm file cannot be opened. *)
Definition proc_entry_no_comm (name : string) (links : list (option string)) : ProcEntry :=
  {| pe_name := name; pe_fd := Some links; pe_comm := ""; pe_comm_err := true |}.

(** A process of another user: its descriptors cannot be listed. *)
Definition proc_entry_denied (name : string) (comm : string) : ProcEntry :=
  {| pe_name := name; pe_fd := None; pe_comm := comm; pe_comm_err := false |}.

Definition newline : string := String (ascii_of_nat 10) EmptyString.

(** One listening row for port 8080, inode 111; process 4321 "testproc"
    holds the socket. *)
Definition fs_testproc : FS :=
  {| proc_net_tcp := Some [tcp_header; row_8080_inode_111];
     proc_net_tcp6 := Some [tcp_header];
     proc_open_err := false;
     proc_names :=
       [ proc_entry "cpuinfo" [] "";
         proc_entry "1" [Some "/dev/null"; Some "socket:[7]"] ("init" +:+ newline);
         proc_entry "4321" [Some "/dev/null"; None; Some "socket:[111]"]
           ("testproc" +:+ newline) ];
     proc_names_err := false |}.

(** As [fs_testproc], but the socket is shared with process 1234 "master",
    which /proc lists before 4321 (a server that forked a worker). *)
Definition fs_forked : FS :=
  {| proc_net_tcp := Some [tcp_header; row_8080_inode_111];
     proc_net_tcp6 := Some [tcp_header];
     proc_open_err := false;
     proc_names :=
       [ proc_entry "1234" [Some "socket:[111]"] ("master" +:+ newline);
         proc_entry "4321" [Some "/dev/null"; Some "socket:[111]"]
           ("testproc" +:+ newline) ];
     proc_names_err := false |}.

(** The IPv4 table has a listening row for port 8080 whose inode 111 belongs
    to a process of another user; the IPv6 table has a listening row for
    the port whose inode 222 belongs to process 77. *)
Definition fs_both_tables : FS :=
  {| proc_net_tcp := Some [tcp_header; row_8080_inode_111];
     proc_net_tcp6 := Some [tcp_header; row6_8080_inode_222];
     proc_open_err := false;
     proc_names :=
       [ proc_entry_denied "50" ("other" +:+ newline);
         proc_entry "77" [Some "socket:[222]"] ("v6proc" +:+ newline) ];
     proc_names_err := false |}.

(** As [fs_testproc], but the comm file of process 4321 cannot be read. *)
Definition fs_no_comm : FS :=
  {| proc_net_tcp := Some [tcp_header; row_8080_inode_111];
     proc_net_tcp6 := Some [tcp_header];
     proc_open_err := false;
     proc_names := [ proc_entry_no_comm "4321" [Some "socket:[111]"] ];
     proc_names_err := false |}.

(** A host of which the listing of /proc ends on an error. *)
Definition fs_listing_error (fs : FS) : FS :=
  {| proc_net_tcp := proc_net_tcp fs; proc_net_tcp6 := proc_net_tcp6 fs;
     proc_open_err := proc_open_err fs; proc_names := proc_names fs;
     proc_names_err := true |}.

(** A row of enough fields whose local address has no colon. *)
Definition row_without_colon : string :=
  "   0: 000000001F90 00000000:0000 0A 00000000:00000000 00:00000000 00000000  1000        0 111 1 0000000000000000 100 0 0 10 0".

(** No socket table can be opened and /proc cannot be opened. *)
Definition fs_unreadable : FS :=
  {| proc_net_tcp := None; proc_net_tcp6 := None; proc_open_err := true;
     proc_names := []; proc_names_err := false |}.

(** A host on which the given ports hold a listening socket. *)
Definition net_with (ports : list Z) : Net :=
  {| listening := list_to_set ports; refused := λ _, false; ephemeral := 49152 |}.

(** ** Schedules used in the examples *)

(** Ports 3000 to 3002, of which 3001 is in use; the probes complete in the
    order 3002, 3000, 3001. *)
Definition sched_3000_3002 : list Event :=
  let run k := RunTask k (net_with [3001]) fs_unreadable in
  [ RunMain; RunMain; RunMain; RunMain;
    run 2%nat; run 0%nat; run 1%nat;
    run 2%nat; run 2%nat; run 2%nat; run 2%nat;
    RunMain;
    run 0%nat; run 0%nat; run 1%nat; run 1%nat;
    run 0%nat; run 0%nat; run 1%nat; run 1%nat;
    RunCloser; RunMain; RunCloser; RunMain; RunMain ].

(** 150 goroutines are started and the first [k] of them take a slot. *)
Definition sched_fill (k : nat) : list Event :=
  repeat RunMain 150 ++ ((λ i, RunTask i (net_with []) fs_unreadable) <$> seq 0 k).

(* ===================================================================== *)
(** * The rest of the program: [main] and the report of a range scan      *)
(* ===================================================================== *)

(** [strings.Contains(s, substr)] for a one-character substring. *)
Fixpoint Contains (s : string) (c : ascii) : bool :=
  match s with
  | EmptyString => false
  | String a s' => Ascii.eqb a c || Contains s' c
  end.

(** The ANSI colour codes of the two files ([red], [colorRed], ...). *)
Definition esc : string := String (ascii_of_nat 27) EmptyString.
Definition red : string := esc +:+ "[31m".
Definition reset : string := esc +:+ "[0m".

(** What [main] does with its arguments:
    - [UsageExit code]: [printUsage(); os.Exit(code)];
    - [ErrorExit line]: [fmt.Println(line); os.Exit(1)];
    - [RunRange start end_ showPID]: [checkPortRange(start, end, showPID)],
      after which [main] returns;
    - [RunCheck port showPID]:
      [printResult(checkPort(port, showPID), showPID)], after which [main]
      returns. *)
Inductive MainAction :=
  | UsageExit (code : Z)
  | ErrorExit (line : string)
  | RunRange (start end_ : Z) (showPID : bool)
  | RunCheck (port : Z) (showPID : bool).

(** [main], the same in the two files; [args] is [os.Args], the name of the
    program first. *)
Definition main (args : list string) : MainAction :=
  match args with
  | [] | [_] => UsageExit 1
  | _ :: arg1 :: more =>
      let flag := String.eqb arg1 "--pid" || String.eqb arg1 "-p" in
      match (if flag
             then match more with
                  | [] => None
                  | arg2 :: _ => Some (true, arg2)
                  end
             else Some (false, arg1)) with
      | None => ErrorExit (red +:+ "Error: --pid requires a port number" +:+ reset)
      | Some (showPID, portArg) =>
          if String.eqb portArg "-h" || String.eqb portArg "--help"
          then UsageExit 0
          else if Contains portArg "-"
          then match Split portArg "-" with
               | [part0; part1] =>
                   match Atoi part0, Atoi part1 with
                   | Some start, Some end_ =>
                       if (end_ <? start) || (start <? 1) || (65535 <? end_)
                       then ErrorExit (red +:+ "Error: Invalid port range" +:+ reset)
                       else RunRange start end_ showPID
                   | _, _ => ErrorExit (red +:+ "Error: Invalid port range" +:+ reset)
                   end
               | _ => ErrorExit (red +:+ "Error: Invalid port range format" +:+ reset)
               end
          else match Atoi portArg with
               | Some port =>
                   if (port <? 1) || (65535 <? port)
                   then ErrorExit (red +:+ "Error: Invalid port number" +:+ reset)
                   else RunCheck port showPID
               | None => ErrorExit (red +:+ "Error: Invalid port number" +:+ reset)
               end
      end
  end.

(** An action with the resolution flag set. *)
Definition with_showPID (m : MainAction) : MainAction :=
  match m with
  | RunRange start end_ _ => RunRange start end_ true
  | RunCheck port _ => RunCheck port true
  | UsageExit _ | ErrorExit _ => m
  end.

(** The numbers of the last line [checkPortRange] prints:
    [len(portResults)], [inUse] and [len(portResults)-inUse]. *)
Record Summary := {
  scanned : Z;
  in_use : Z;
  available : Z;
}.

(** The loop [for _, r := range portResults] after the sort: the counter
    [inUse] at its end and the results handed to [printResult], in order. *)
Fixpoint report_loop (rs : list PortResult) (inUse : Z) : Z * list PortResult :=
  match rs with
  | [] => (inUse, [])
  | r :: rs' =>
      if InUse r
      then let '(k, printed) := report_loop rs' (int_add inUse 1) in
           (k, r :: printed)
      else report_loop rs' inUse
  end.

Definition report (portResults : list PortResult) : list PortResult * Summary :=
  let '(inUse, printed) := report_loop portResults 0 in
  let len := Z.of_nat (length portResults) in
  (printed, {| scanned := len; in_use := inUse; available := int_sub len inUse |}).

(** ** Vocabulary of the further properties *)

(** The decimal notation of an integer, as [%d] writes it. *)
Definition dec_digit (d : Z) : ascii := ascii_of_N (Z.to_N (48 + d)).

Fixpoint dec_from (fuel : nat) (n : Z) (acc : string) : string :=
  match fuel with
  | O => acc
  | S fuel' =>
      let acc' := String (dec_digit (n mod 10)) acc in
      if n / 10 =? 0 then acc' else dec_from fuel' (n / 10) acc'
  end.

Definition decimal (n : Z) : string :=
  if n <? 0 then String "-" (dec_from 20 (- n) "") else dec_from 20 n "".

(** A string of decimal digits. *)
Fixpoint all_digits (s : string) : bool :=
  match s with
  | EmptyString => true
  | String c s' =>
      match digit_val c with Some _ => true | None => false end && all_digits s'
  end.

(** A host that does not change during a scan: every probe of the schedule
    sees the ports [n] and the file system [fs]. *)
Definition steady (n : Net) (fs : FS) (evs : list Event) : Prop :=
  Forall (λ ev, match ev with
                | RunTask _ n' fs' => n' = n ∧ fs' = fs
                | _ => True
                end) evs.

(** The ports probed one after the other, in order, the ports of the host
    threaded through. *)
Fixpoint probe_each
  (checkPort : Net → FS → Z → bool → option (PortResult * Net))
  (n : Net) (fs : FS) (showPID : bool) (ports : list Z)
  : option (list PortResult * Net) :=
  match ports with
  | [] => Some ([], n)
  | p :: ports' =>
      match checkPort n fs p showPID with
      | Some (r, n1) =>
          match probe_each checkPort n1 fs showPID ports' with
          | Some (rs, n2) => Some (r :: rs, n2)
          | None => None
          end
      | None => None
      end
  end.

(** [r] is the result of probing its own port on the host [(n, fs)]. *)
Definition probe_of
  (checkPort : Net → FS → Z → bool → option (PortResult * Net))
  (n : Net) (fs : FS) (showPID : bool) (r : PortResult) : Prop :=
  checkPort n fs (Port r) showPID = Some (r, n).

(** Every result in flight or collected is a probe of the steady host. *)
Definition probes_inv
  (checkPort : Net → FS → Z → bool → option (PortResult * Net))
  (n : Net) (fs : FS) (showPID : bool) (s : Scan) : Prop :=
  Forall (probe_of checkPort n fs showPID) (portResults s ++ results s)
  ∧ Forall (λ t, match t_pc t with
                 | AtSend r => probe_of checkPort n fs showPID r
                 | _ => True
                 end) (tasks s).

(** The ports of an interval on which the bind fails. *)
Definition bind_fails (n : Net) (p : Z) : bool :=
  match (net_Listen n p).1 with None => true | Some _ => false end.

(** The schedule [sched_3000_3002] on a host on which only port 3001 is in
    use. *)
Definition host_3001 : Net := net_with [3001].

(** What the scheduler finds when it runs a probe goroutine: one that has
    returned does nothing; one before the acquire waits when the [sem_cap]
    slots are taken and takes one of them otherwise; every other one takes
    its step. *)
Definition only_acquire_waits
  (checkPort : Net → FS → Z → bool → option (PortResult * Net))
  (start end_ : Z) (showPID : bool) (s : Scan) : Prop :=
  ∀ k t n fs, tasks s !! k = Some t →
    match t_pc t with
    | Exited => step checkPort start end_ showPID (RunTask k n fs) s = Blocked
    | AtAcquire =>
        if bool_decide (count_pc holds_slot (tasks s) = sem_cap)
        then step checkPort start end_ showPID (RunTask k n fs) s = Blocked
        else ∃ s', step checkPort start end_ showPID (RunTask k n fs) s = Next s'
    | _ => ∃ s', step checkPort start end_ showPID (RunTask k n fs) s = Next s'
    end.

(** The goroutines of all the ports of the range were started and have
    returned, no slot is taken, the counter of the WaitGroup is zero, and
    the results collected or in the channel are one per port. *)
Definition all_returned (start end_ : Z) (s : Scan) : Prop :=
  t_port <$> tasks s = seqZ start (end_ - start + 1)
  ∧ Forall (λ t, t_pc t = Exited) (tasks s)
  ∧ sem s = 0%nat ∧ wg s = 0
  ∧ Port <$> (portResults s ++ results s) ≡ₚ seqZ start (end_ - start + 1).

(* ===================================================================== *)
(** * Proof steps shared by the two copies of the program                 *)
(* ===================================================================== *)

(** The body of the row loop, by cases: fewer than ten fields; else the
    three columns read exist, and the local address has two parts or not. *)
Ltac scan_rows_cons_tac row :=
  simpl; unfold listening_row;
  destruct (Nat.ltb_spec (length (Fields row)) 10);
  [ rewrite (lookup_ge_None_2 (Fields row) 9) by lia;
    by destruct (Fields row !! 1%nat), (Fields row !! 3%nat)
  | destruct (lookup_lt_is_Some_2 (Fields row) 1%nat ltac:(lia)) as [? ->];
    destruct (lookup_lt_is_Some_2 (Fields row) 3%nat ltac:(lia)) as [? ->];
    destruct (lookup_lt_is_Some_2 (Fields row) 9%nat ltac:(lia)) as [? ->];
    simpl;
    match goal with
    | |- context [Split ?f ?c] => destruct (Split f c) as [|? [|? [|? ?]]]
    end;
    simpl; try done;
    repeat match goal with
           | |- context [String.eqb ?a ?b] =>
               destruct (String.eqb a b); simpl; try done
           end ].

(** The five moves of a probe goroutine, as the lemma [step_task_Next]
    lists them: acquire, probe, send, release, done. *)
Ltac task_moves Hmove :=
  destruct Hmove as
    [(-> & -> & Hguard & Hsem' & Hwg' & Hres')
    |[(-> & (r & n' & Hprobe & ->) & Hsem' & Hwg' & Hres')
    |[(r & -> & -> & Hopen & Hguard & Hsem' & Hwg' & Hres')
    |[(-> & -> & Hsem' & Hwg' & Hres')
    |(-> & -> & Hguard & Hsem' & Hwg' & Hres')]]]].

(* ===================================================================== *)
(** * Properties of the resolver                                          *)
(* ===================================================================== *)

(** ** The port in hexadecimal *)

Lemma hex_digit_upper d : 0 ≤ d < 16 → hex_digit d = upper_hex_digit d.
Proof.
  intros H.
  assert (d = 0 ∨ d = 1 ∨ d = 2 ∨ d = 3 ∨ d = 4 ∨ d = 5 ∨ d = 6 ∨ d = 7 ∨ d = 8
          ∨ d = 9 ∨ d = 10 ∨ d = 11 ∨ d = 12 ∨ d = 13 ∨ d = 14 ∨ d = 15) as Hd by lia.
  repeat (destruct Hd as [->|Hd]; [reflexivity|]). by subst.
Qed.

Lemma hex_from_S fuel n acc :
  hex_from (S fuel) n acc
  = if n / 16 =? 0 then String (hex_digit (n mod 16)) acc
    else hex_from fuel (n / 16) (String (hex_digit (n mod 16)) acc).
Proof. reflexivity. Qed.

(** On a port, [%04X] gives exactly the four hexadecimal digits. *)
Lemma Sprintf_04X_port p : 0 ≤ p ≤ 65535 → Sprintf_04X p = hex4 p.
Proof.
  intros Hp. unfold Sprintf_04X, hex4.
  destruct (Z.ltb_spec p 0) as [?|_]; [lia|].
  assert (p / 256 = p / 16 / 16) as -> by (rewrite Z.div_div by lia; done).
  assert (p / 4096 = p / 16 / 16 / 16) as -> by (rewrite !Z.div_div by lia; done).
  assert (0 ≤ p / 16 / 16 / 16 < 16) as H3.
  { rewrite !Z.div_div by lia. split; [apply Z.div_pos; lia|].
    apply Z.div_lt_upper_bound; lia. }
  rewrite <- !hex_digit_upper
    by (try apply Z.mod_pos_bound; try exact H3; lia).
  assert (p / 16 / 16 / 16 / 16 = 0) as H4 by (apply Z.div_small; lia).
  rewrite hex_from_S.
  destruct (Z.eqb_spec (p / 16) 0) as [E1|E1].
  { rewrite E1. reflexivity. }
  rewrite hex_from_S.
  destruct (Z.eqb_spec (p / 16 / 16) 0) as [E2|E2].
  { rewrite E2. reflexivity. }
  rewrite hex_from_S.
  destruct (Z.eqb_spec (p / 16 / 16 / 16) 0) as [E3|E3].
  { rewrite E3. reflexivity. }
  rewrite hex_from_S, H4. simpl (0 =? 0).
  rewrite (Z.mod_small (p / 16 / 16 / 16) 16) by lia. reflexivity.
Qed.

(** ** A row is a listening row or is passed over *)

Lemma MainGo_scan_rows_cons fs portHex row rest :
  MainGo.scan_rows fs portHex (row :: rest)
  = match listening_row portHex row with
    | Some inode => Some (MainGo.findPIDByInode fs inode)
    | None => MainGo.scan_rows fs portHex rest
    end.
Proof. scan_rows_cons_tac row. Qed.

Lemma Part000_scan_rows_cons fs portHex row rest :
  Part000.scan_rows fs portHex (row :: rest)
  = match listening_row portHex row with
    | Some inode => Some (Part000.findPIDByInode fs inode)
    | None => Part000.scan_rows fs portHex rest
    end.
Proof. scan_rows_cons_tac row. Qed.

(** The scan stops at the first listening row: the rows after it do not
    count. *)
Lemma MainGo_scan_rows_first fs portHex pre row post inode :
  Forall (λ r, listening_row portHex r = None) pre →
  listening_row portHex row = Some inode →
  MainGo.scan_rows fs portHex (pre ++ row :: post)
  = Some (MainGo.findPIDByInode fs inode).
Proof.
  intros Hpre Hrow. induction Hpre as [|r pre Hr _ IH].
  - change ([] ++ row :: post) with (row :: post).
    by rewrite MainGo_scan_rows_cons, Hrow.
  - change ((r :: pre) ++ row :: post) with (r :: (pre ++ row :: post)).
    by rewrite MainGo_scan_rows_cons, Hr.
Qed.

Lemma MainGo_scan_rows_none fs portHex rows :
  Forall (λ r, listening_row portHex r = None) rows →
  MainGo.scan_rows fs portHex rows = Some (0, "").
Proof.
  induction 1 as [|r rows Hr _ IH]; [done|].
  by rewrite MainGo_scan_rows_cons, Hr.
Qed.

(** A result other than (0, "") comes from a listening row. *)
Lemma MainGo_scan_rows_source fs portHex rows r :
  MainGo.scan_rows fs portHex rows = Some r → r ≠ (0, "") →
  ∃ row inode, row ∈ rows ∧ listening_row portHex row = Some inode
               ∧ MainGo.findPIDByInode fs inode = r.
Proof.
  intros Hscan Hr. induction rows as [|row rest IH].
  - simpl in Hscan. congruence.
  - rewrite MainGo_scan_rows_cons in Hscan.
    destruct (listening_row portHex row) as [inode|] eqn:Hrow.
    + exists row, inode. split; [left|]. split; congruence.
    + destruct (IH Hscan) as (row' & inode & Hin & ? & ?).
      exists row', inode. split; [by right|done].
Qed.

(** ** The row scanner never indexes out of range *)

Lemma MainGo_scan_rows_total fs portHex rows :
  ∃ r, MainGo.scan_rows fs portHex rows = Some r.
Proof.
  induction rows as [|row rest IH]; [by eexists|].
  rewrite MainGo_scan_rows_cons. destruct (listening_row portHex row); eauto.
Qed.

Lemma Part000_scan_rows_total fs portHex rows :
  ∃ r, Part000.scan_rows fs portHex rows = Some r.
Proof.
  induction rows as [|row rest IH]; [by eexists|].
  rewrite Part000_scan_rows_cons. destruct (listening_row portHex row); eauto.
Qed.

Lemma MainGo_searchNetFile_total fs path port :
  ∃ r, MainGo.searchNetFile fs path port = Some r.
Proof.
  unfold MainGo.searchNetFile. destruct (os_Open fs path); [|eauto].
  apply MainGo_scan_rows_total.
Qed.

Lemma Part000_searchNetFile_total fs path port :
  ∃ r, Part000.searchNetFile fs path port = Some r.
Proof.
  unfold Part000.searchNetFile. destruct (os_Open fs path); [|eauto].
  apply Part000_scan_rows_total.
Qed.

(** A malformed row is no listening row of any port. *)
Lemma malformed_not_listening portHex row :
  malformed row → listening_row portHex row = None.
Proof.
  unfold listening_row. intros [Hlt|(f1 & Hf1 & Hparts)].
  - rewrite (lookup_ge_None_2 (Fields row) 9) by lia.
    by destruct (Fields row !! 1%nat), (Fields row !! 3%nat).
  - rewrite Hf1. destruct (Fields row !! 3%nat); [|done].
    destruct (Fields row !! 9%nat); [|done].
    by destruct (Split f1 ":") as [|? [|? [|? ?]]].
Qed.

Lemma MainGo_scan_rows_skip fs portHex row rest :
  malformed row →
  MainGo.scan_rows fs portHex (row :: rest) = MainGo.scan_rows fs portHex rest.
Proof.
  intros Hrow. by rewrite MainGo_scan_rows_cons, malformed_not_listening.
Qed.

Lemma Part000_scan_rows_skip fs portHex row rest :
  malformed row →
  Part000.scan_rows fs portHex (row :: rest) = Part000.scan_rows fs portHex rest.
Proof.
  intros Hrow. by rewrite Part000_scan_rows_cons, malformed_not_listening.
Qed.

(** ** The two tables *)

Lemma MainGo_findProcessByPort_total fs port :
  ∃ r, MainGo.findProcessByPort fs port = Some r.
Proof.
  unfold MainGo.findProcessByPort. simpl.
  destruct (MainGo_searchNetFile_total fs "/proc/net/tcp" port) as [r4 ->].
  destruct (MainGo_searchNetFile_total fs "/proc/net/tcp6" port) as [r6 ->].
  simpl. destruct (0 <? r4.1); [eauto|]. destruct (0 <? r6.1); eauto.
Qed.

Lemma Part000_findProcessByPort_total fs port :
  ∃ r, Part000.findProcessByPort fs port = Some r.
Proof.
  unfold Part000.findProcessByPort. simpl.
  destruct (Part000_searchNetFile_total fs "/proc/net/tcp" port) as [r4 ->].
  destruct (Part000_searchNetFile_total fs "/proc/net/tcp6" port) as [r6 ->].
  simpl. destruct (0 <? r4.1); [eauto|]. destruct (0 <? r6.1); eauto.
Qed.

(** [findProcessByPort] unfolded: the IPv4 result when its pid is positive,
    else the IPv6 result when its pid is positive, else nothing. *)
Lemma MainGo_findProcessByPort_cases fs port r4 r6 :
  MainGo.searchNetFile fs "/proc/net/tcp" port = Some r4 →
  MainGo.searchNetFile fs "/proc/net/tcp6" port = Some r6 →
  MainGo.findProcessByPort fs port
  = Some (if 0 <? r4.1 then r4 else if 0 <? r6.1 then r6 else (0, "")).
Proof.
  intros H4 H6. unfold MainGo.findProcessByPort. simpl. rewrite H4. simpl.
  destruct (0 <? r4.1); [done|]. rewrite H6. simpl. by destruct (0 <? r6.1).
Qed.

(** A resolution either has a positive pid or is the pair (0, ""). *)
Lemma MainGo_findProcessByPort_result fs port pid name :
  MainGo.findProcessByPort fs port = Some (pid, name) →
  0 < pid ∨ (pid = 0 ∧ name = "").
Proof.
  destruct (MainGo_searchNetFile_total fs "/proc/net/tcp" port) as [r4 H4].
  destruct (MainGo_searchNetFile_total fs "/proc/net/tcp6" port) as [r6 H6].
  rewrite (MainGo_findProcessByPort_cases _ _ _ _ H4 H6).
  destruct r4 as [p4 n4], r6 as [p6 n6]; simpl.
  destruct (Z.ltb_spec 0 p4); [intros [= <- <-]; auto|].
  destruct (Z.ltb_spec 0 p6); intros [= <- <-]; auto.
Qed.

(** ** The owner of an inode *)

Lemma holds_link_elem socketLink fds :
  holds_link socketLink fds = true ↔ Some socketLink ∈ fds.
Proof.
  induction fds as [|[link|] fds IH]; simpl.
  - split; [discriminate|]. by intros ?%elem_of_nil.
  - destruct (String.eqb_spec link socketLink) as [->|Hne].
    + split; [intros _; left|done].
    + rewrite IH. split; [by right|].
      intros [?|?]%elem_of_cons; [congruence|done].
  - rewrite IH. split; [by right|].
    intros [?|?]%elem_of_cons; [congruence|done].
Qed.

(** An entry owns a link when its name is a pid, its descriptors can be
    listed, and one of them reads as exactly that link. *)
Lemma owner_entry_spec socketLink e pid :
  owner_entry socketLink e = Some pid
  ↔ Atoi (pe_name e) = Some pid
    ∧ ∃ fds, pe_fd e = Some fds ∧ Some socketLink ∈ fds.
Proof.
  unfold owner_entry. destruct (Atoi (pe_name e)) as [pid'|].
  2: { split; [done|]. by intros [? _]. }
  destruct (pe_fd e) as [fds|].
  2: { split; [done|]. by intros (_ & fds' & ? & _). }
  destruct (holds_link socketLink fds) eqn:Hl.
  - apply holds_link_elem in Hl. split.
    + intros [= ->]. eauto.
    + by intros [-> _].
  - split; [done|]. intros (_ & fds' & [= <-] & Hin).
    apply holds_link_elem in Hin. congruence.
Qed.

Lemma MainGo_scan_entries_cons socketLink e rest :
  MainGo.scan_entries socketLink (e :: rest)
  = match owner_entry socketLink e with
    | Some pid => (pid, TrimSpace (pe_comm e))
    | None => MainGo.scan_entries socketLink rest
    end.
Proof.
  simpl. unfold owner_entry.
  destruct (Atoi (pe_name e)); [|done].
  destruct (pe_fd e); [|done]. by destruct (holds_link socketLink l).
Qed.

Lemma Part000_scan_entries_cons socketLink e rest :
  Part000.scan_entries socketLink (e :: rest)
  = match owner_entry socketLink e with
    | Some pid =>
        if pe_comm_err e then (pid, "unknown") else (pid, TrimSpace (pe_comm e))
    | None => Part000.scan_entries socketLink rest
    end.
Proof.
  simpl. unfold owner_entry.
  destruct (Atoi (pe_name e)); [|done].
  destruct (pe_fd e); [|done]. by destruct (holds_link socketLink l).
Qed.

(** The first process that owns the link is returned; the entries after it
    do not count. *)
Lemma MainGo_scan_entries_first socketLink before e after pid :
  Forall (λ e', owner_entry socketLink e' = None) before →
  owner_entry socketLink e = Some pid →
  MainGo.scan_entries socketLink (before ++ e :: after)
  = (pid, TrimSpace (pe_comm e)).
Proof.
  intros Hbefore He. induction Hbefore as [|e' before He' _ IH].
  - change ([] ++ e :: after) with (e :: after).
    by rewrite MainGo_scan_entries_cons, He.
  - change ((e' :: before) ++ e :: after) with (e' :: (before ++ e :: after)).
    by rewrite MainGo_scan_entries_cons, He'.
Qed.

Lemma Part000_scan_entries_first socketLink before e after pid :
  Forall (λ e', owner_entry socketLink e' = None) before →
  owner_entry socketLink e = Some pid →
  Part000.scan_entries socketLink (before ++ e :: after)
  = if pe_comm_err e then (pid, "unknown") else (pid, TrimSpace (pe_comm e)).
Proof.
  intros Hbefore He. induction Hbefore as [|e' before He' _ IH].
  - change ([] ++ e :: after) with (e :: after).
    by rewrite Part000_scan_entries_cons, He.
  - change ((e' :: before) ++ e :: after) with (e' :: (before ++ e :: after)).
    by rewrite Part000_scan_entries_cons, He'.
Qed.

Lemma MainGo_findPIDByInode_first fs inode e pid :
  proc_open_err fs = false →
  first_owner fs ("socket:[" +:+ inode +:+ "]") e pid →
  MainGo.findPIDByInode fs inode = (pid, TrimSpace (pe_comm e)).
Proof.
  intros Hopen (before & after & Hnames & Hbefore & He).
  unfold MainGo.findPIDByInode. rewrite Hopen, Hnames.
  by apply MainGo_scan_entries_first.
Qed.

(** ** The two programs side by side *)

Lemma scan_entries_agree socketLink entries :
  Forall (λ e, pe_comm_err e = false) entries →
  MainGo.scan_entries socketLink entries = Part000.scan_entries socketLink entries.
Proof.
  induction 1 as [|e entries He _ IH]; [done|].
  rewrite MainGo_scan_entries_cons, Part000_scan_entries_cons, He, IH. done.
Qed.

Lemma findPIDByInode_agree fs inode :
  proc_names_err fs = false →
  Forall (λ e, pe_comm_err e = false) (proc_names fs) →
  MainGo.findPIDByInode fs inode = Part000.findPIDByInode fs inode.
Proof.
  intros Herr Hcomm. unfold MainGo.findPIDByInode, Part000.findPIDByInode.
  rewrite Herr. destruct (proc_open_err fs); [done|].
  by apply scan_entries_agree.
Qed.

Lemma scan_rows_agree fs portHex rows :
  (∀ inode, MainGo.findPIDByInode fs inode = Part000.findPIDByInode fs inode) →
  MainGo.scan_rows fs portHex rows = Part000.scan_rows fs portHex rows.
Proof.
  intros Hpid. induction rows as [|row rest IH]; [done|].
  rewrite MainGo_scan_rows_cons, Part000_scan_rows_cons, IH.
  destruct (listening_row portHex row); [by rewrite Hpid|done].
Qed.

Lemma searchNetFile_agree fs path port :
  (∀ inode, MainGo.findPIDByInode fs inode = Part000.findPIDByInode fs inode) →
  MainGo.searchNetFile fs path port = Part000.searchNetFile fs path port.
Proof.
  intros Hpid. unfold MainGo.searchNetFile, Part000.searchNetFile.
  destruct (os_Open fs path); [|done]. by apply scan_rows_agree.
Qed.

Lemma findProcessByPort_agree fs port :
  (∀ inode, MainGo.findPIDByInode fs inode = Part000.findPIDByInode fs inode) →
  MainGo.findProcessByPort fs port = Part000.findProcessByPort fs port.
Proof.
  intros Hpid. unfold MainGo.findProcessByPort, Part000.findProcessByPort. simpl.
  by rewrite !searchNetFile_agree.
Qed.

Lemma checkPort_agree n fs port getPID :
  (∀ inode, MainGo.findPIDByInode fs inode = Part000.findPIDByInode fs inode) →
  MainGo.checkPort n fs port getPID = Part000.checkPort n fs port getPID.
Proof.
  intros Hpid. unfold MainGo.checkPort, Part000.checkPort.
  by rewrite findProcessByPort_agree.
Qed.

(** ** The IPv6 table does not enter the IPv4 search *)

Lemma MainGo_scan_rows_with_tcp6 fs t6 portHex rows :
  MainGo.scan_rows (with_tcp6 fs t6) portHex rows = MainGo.scan_rows fs portHex rows.
Proof.
  induction rows as [|row rest IH]; [done|].
  by rewrite !MainGo_scan_rows_cons, IH.
Qed.

Lemma MainGo_searchNetFile_tcp_with_tcp6 fs t6 port :
  MainGo.searchNetFile (with_tcp6 fs t6) "/proc/net/tcp" port
  = MainGo.searchNetFile fs "/proc/net/tcp" port.
Proof.
  unfold MainGo.searchNetFile.
  change (os_Open (with_tcp6 fs t6) "/proc/net/tcp") with (proc_net_tcp fs).
  change (os_Open fs "/proc/net/tcp") with (proc_net_tcp fs).
  destruct (proc_net_tcp fs); [|done]. apply MainGo_scan_rows_with_tcp6.
Qed.

Lemma MainGo_searchNetFile_no_row fs path port :
  no_listening_row (Sprintf_04X port) (os_Open fs path) →
  MainGo.searchNetFile fs path port = Some (0, "").
Proof.
  unfold MainGo.searchNetFile, no_listening_row.
  destruct (os_Open fs path); [|done]. apply MainGo_scan_rows_none.
Qed.

Lemma MainGo_searchNetFile_first fs path port lines row inode :
  os_Open fs path = Some lines →
  first_listening_row (Sprintf_04X port) lines row inode →
  MainGo.searchNetFile fs path port = Some (MainGo.findPIDByInode fs inode).
Proof.
  intros Hopen (header & pre & post & -> & Hpre & Hrow).
  unfold MainGo.searchNetFile. rewrite Hopen. simpl.
  by apply MainGo_scan_rows_first.
Qed.

(** ** The prober and the ports of the host *)

Lemma listener_Close_bound n q :
  q ∉ listening n →
  listener_Close (net_bound n ({[ q ]} ∪ listening n)) q = n.
Proof.
  intros Hq. destruct n as [l r e]. unfold listener_Close, net_bound. simpl in *.
  f_equal. apply set_eq. intros x.
  rewrite elem_of_difference, elem_of_union, elem_of_singleton.
  split; [intros [[->|?] ?]; done|].
  intros Hx. split; [by right|]. by intros ->.
Qed.

(** [net.Listen] fails and changes nothing, or binds a port that was free. *)
Lemma net_Listen_cases n port :
  net_Listen n port = (None, n)
  ∨ ∃ q, net_Listen n port = (Some q, net_bound n ({[ q ]} ∪ listening n))
         ∧ (q ∉ listening n)
         ∧ (q ∈ listening (net_bound n ({[ q ]} ∪ listening n))).
Proof.
  unfold net_Listen.
  set (q := if port =? 0 then ephemeral n else port).
  destruct ((1 <=? q) && (q <=? 65535) && negb (refused n q)
            && negb (bool_decide (q ∈ listening n))) eqn:Hok; [right|by left].
  exists q. split; [done|].
  apply andb_prop in Hok as [_ Hfree]. apply negb_true_iff in Hfree.
  apply bool_decide_eq_false in Hfree. split; [done|]. simpl. set_solver.
Qed.

Lemma MainGo_checkPort_frame n fs port getPID :
  ∃ r, MainGo.checkPort n fs port getPID = Some (r, n) ∧ Port r = port.
Proof.
  unfold MainGo.checkPort.
  destruct (net_Listen_cases n port) as [->|(q & -> & Hfree & _)].
  - destruct getPID; [|eauto].
    destruct (MainGo_findProcessByPort_total fs port) as [r ->]. simpl. eauto.
  - rewrite listener_Close_bound by done. eauto.
Qed.

Lemma Part000_checkPort_frame n fs port getPID :
  ∃ r, Part000.checkPort n fs port getPID = Some (r, n) ∧ Port r = port.
Proof.
  unfold Part000.checkPort.
  destruct (net_Listen_cases n port) as [->|(q & -> & Hfree & _)].
  - destruct getPID; [|eauto].
    destruct (Part000_findProcessByPort_total fs port) as [r ->]. simpl. eauto.
  - rewrite listener_Close_bound by done. eauto.
Qed.

(** The in-use flag is the failure of the bind, whatever the file system
    and the resolution flag. *)
Lemma MainGo_checkPort_InUse n fs port getPID r n' :
  MainGo.checkPort n fs port getPID = Some (r, n') →
  InUse r = match (net_Listen n port).1 with None => true | Some _ => false end.
Proof.
  unfold MainGo.checkPort. destruct (net_Listen n port) as [[l|] n1]; simpl.
  - by intros [= <- _].
  - destruct getPID.
    + destruct (MainGo.findProcessByPort fs port); simpl; [|done]. by intros [= <- _].
    + by intros [= <- _].
Qed.

Lemma Part000_checkPort_InUse n fs port getPID r n' :
  Part000.checkPort n fs port getPID = Some (r, n') →
  InUse r = match (net_Listen n port).1 with None => true | Some _ => false end.
Proof.
  unfold Part000.checkPort. destruct (net_Listen n port) as [[l|] n1]; simpl.
  - by intros [= <- _].
  - destruct getPID.
    + destruct (Part000.findProcessByPort fs port); simpl; [|done]. by intros [= <- _].
    + by intros [= <- _].
Qed.

(* ===================================================================== *)
(** * The claims about the prober and the resolver                        *)
(* ===================================================================== *)

(** C3, as amended. For a port X in [1, 65535]: [%04X] writes X as its four
    upper-case hexadecimal digits; a resolution that returns a pid comes
    from a row, of the IPv4 or of the IPv6 table, whose local port is that
    text and whose state is 0A, through the inode of that row; and when the
    first such row of the IPv4 table (or of the IPv6 table, the IPv4 table
    having none) has inode I, /proc can be opened, and the first process in
    the enumeration that holds a link equal to "socket:[I]" is process 4321
    with command name "testproc", the resolution returns (4321, "testproc"). *)
Theorem C3_resolution_correlation (fs : FS) (X : Z) :
  1 ≤ X ≤ 65535 →
  Sprintf_04X X = hex4 X
  ∧ (∀ pid name,
       MainGo.findProcessByPort fs X = Some (pid, name) → pid ≠ 0 →
       ∃ path lines row inode,
         (path = "/proc/net/tcp" ∨ path = "/proc/net/tcp6")
         ∧ os_Open fs path = Some lines
         ∧ row ∈ tail lines
         ∧ listening_row (hex4 X) row = Some inode
         ∧ MainGo.findPIDByInode fs inode = (pid, name))
  ∧ (∀ lines row I e,
       (proc_net_tcp fs = Some lines
        ∨ (no_listening_row (hex4 X) (proc_net_tcp fs)
           ∧ proc_net_tcp6 fs = Some lines)) →
       first_listening_row (hex4 X) lines row I →
       proc_open_err fs = false →
       first_owner fs ("socket:[" +:+ I +:+ "]") e 4321 →
       TrimSpace (pe_comm e) = "testproc" →
       MainGo.findProcessByPort fs X = Some (4321, "testproc")).
Proof.
  intros HX. assert (Sprintf_04X X = hex4 X) as Hhex by (apply Sprintf_04X_port; lia).
  split; [done|]. split.
  - intros pid name Hres Hpid.
    destruct (MainGo_searchNetFile_total fs "/proc/net/tcp" X) as [r4 H4].
    destruct (MainGo_searchNetFile_total fs "/proc/net/tcp6" X) as [r6 H6].
    rewrite (MainGo_findProcessByPort_cases _ _ _ _ H4 H6) in Hres.
    assert (∀ path r, MainGo.searchNetFile fs path X = Some r → r = (pid, name) →
            ∃ lines row inode, os_Open fs path = Some lines ∧ row ∈ tail lines
              ∧ listening_row (hex4 X) row = Some inode
              ∧ MainGo.findPIDByInode fs inode = (pid, name)) as Hsrc.
    { intros path r Hr ->. unfold MainGo.searchNetFile in Hr.
      destruct (os_Open fs path) as [lines|]; [|congruence].
      rewrite Hhex in Hr.
      destruct (MainGo_scan_rows_source _ _ _ _ Hr) as (row & inode & ? & ? & ?);
        [congruence|]. eauto 10. }
    destruct (0 <? r4.1).
    + destruct (Hsrc _ _ H4) as (lines & row & inode & ?); [congruence|].
      exists "/proc/net/tcp", lines, row, inode. auto.
    + destruct (0 <? r6.1); [|congruence].
      destruct (Hsrc _ _ H6) as (lines & row & inode & ?); [congruence|].
      exists "/proc/net/tcp6", lines, row, inode. auto.
  - intros lines row I e Htable Hrow Hopen Howner Hcomm.
    rewrite <- Hhex in Htable, Hrow.
    pose proof (MainGo_findPIDByInode_first _ _ _ _ Hopen Howner) as Hpid.
    rewrite Hcomm in Hpid.
    destruct (MainGo_searchNetFile_total fs "/proc/net/tcp6" X) as [r6 H6].
    destruct Htable as [H4|[Hno4 H6']].
    + rewrite (MainGo_findProcessByPort_cases fs X (4321, "testproc") r6); [done| |done].
      rewrite <- Hpid. by eapply MainGo_searchNetFile_first.
    + rewrite (MainGo_findProcessByPort_cases fs X (0, "") (4321, "testproc")); [done| |].
      * by apply MainGo_searchNetFile_no_row.
      * rewrite <- Hpid. by eapply MainGo_searchNetFile_first.
Qed.

(** C3, the claim as stated fails: the table holds a listening row for port
    8080 with inode 111 and process 4321 "testproc" holds the link
    "socket:[111]", but process 1234, listed first, holds it too, and the
    resolution returns (1234, "master"). *)
Lemma C3_counterexample :
  proc_net_tcp fs_forked = Some [tcp_header; row_8080_inode_111]
  ∧ listening_row (Sprintf_04X 8080) row_8080_inode_111 = Some "111"
  ∧ proc_entry "4321" [Some "/dev/null"; Some "socket:[111]"] ("testproc" +:+ newline)
      ∈ proc_names fs_forked
  ∧ TrimSpace ("testproc" +:+ newline) = "testproc"
  ∧ MainGo.findProcessByPort fs_forked 8080 = Some (1234, "master")
  ∧ MainGo.findProcessByPort fs_forked 8080 ≠ Some (4321, "testproc").
Proof.
  split; [reflexivity|]. split; [reflexivity|]. split.
  { right. left. }
  split; [reflexivity|]. split; [reflexivity|]. discriminate.
Qed.

(** C3, witness: the host [fs_testproc]. *)
Lemma C3_witness :
  Sprintf_04X 8080 = "1F90"
  ∧ MainGo.findProcessByPort fs_testproc 8080 = Some (4321, "testproc").
Proof.
  destruct (C3_resolution_correlation fs_testproc 8080 ltac:(lia)) as (Hhex & _ & Hres).
  split; [exact Hhex|].
  apply (Hres [tcp_header; row_8080_inode_111] row_8080_inode_111 "111"
           (proc_entry "4321" [Some "/dev/null"; None; Some "socket:[111]"]
              ("testproc" +:+ newline))).
  - left. reflexivity.
  - exists tcp_header, [], []. split; [reflexivity|]. split; [constructor|reflexivity].
  - reflexivity.
  - exists [proc_entry "cpuinfo" [] "";
            proc_entry "1" [Some "/dev/null"; Some "socket:[7]"] ("init" +:+ newline)], [].
    split; [reflexivity|]. split; [|reflexivity].
    repeat constructor.
  - reflexivity.
Defined.

(** C4, as amended. The scan of a socket table stops at the first row that
    matches the port in listening state: the search returns what the inode
    of that row resolves to, whatever follows the row. The IPv6 table
    decides the result exactly when the IPv4 search returned no positive
    pid: when it returned one, the result is that of the IPv4 search
    whatever the IPv6 table holds; otherwise (no listening row in the IPv4
    table, or a row whose inode could not be resolved) the result is that
    of the IPv6 search, or nothing. With no listening row in either table
    the resolution returns no pid. *)
Theorem C4_first_match_then_fallback (fs : FS) (port : Z) :
  (∀ path lines row inode,
     os_Open fs path = Some lines →
     first_listening_row (Sprintf_04X port) lines row inode →
     MainGo.searchNetFile fs path port = Some (MainGo.findPIDByInode fs inode))
  ∧ (∀ r4,
       MainGo.searchNetFile fs "/proc/net/tcp" port = Some r4 → 0 < r4.1 →
       ∀ t6, MainGo.findProcessByPort (with_tcp6 fs t6) port = Some r4)
  ∧ (∀ r4 r6,
       MainGo.searchNetFile fs "/proc/net/tcp" port = Some r4 → r4.1 ≤ 0 →
       MainGo.searchNetFile fs "/proc/net/tcp6" port = Some r6 →
       MainGo.findProcessByPort fs port = Some (if 0 <? r6.1 then r6 else (0, "")))
  ∧ (no_listening_row (Sprintf_04X port) (proc_net_tcp fs) →
     no_listening_row (Sprintf_04X port) (proc_net_tcp6 fs) →
     MainGo.findProcessByPort fs port = Some (0, "")).
Proof.
  split; [intros; by eapply MainGo_searchNetFile_first|]. split; [|split].
  - intros r4 H4 Hpos t6.
    rewrite <- (MainGo_searchNetFile_tcp_with_tcp6 fs t6) in H4.
    destruct (MainGo_searchNetFile_total (with_tcp6 fs t6) "/proc/net/tcp6" port)
      as [r6 H6].
    rewrite (MainGo_findProcessByPort_cases _ _ _ _ H4 H6).
    by destruct (Z.ltb_spec 0 r4.1); [|lia].
  - intros r4 r6 H4 Hle H6.
    rewrite (MainGo_findProcessByPort_cases _ _ _ _ H4 H6).
    by destruct (Z.ltb_spec 0 r4.1); [lia|].
  - intros Hno4 Hno6.
    by rewrite (MainGo_findProcessByPort_cases fs port (0, "") (0, ""))
      by (by apply MainGo_searchNetFile_no_row).
Qed.

(** C4, the claim as stated fails: the IPv4 table of [fs_both_tables] has a
    listening row for port 8080, and still the IPv6 table is read: with it
    the resolution returns process 77, without it nothing. *)
Lemma C4_counterexample :
  first_listening_row (Sprintf_04X 8080) [tcp_header; row_8080_inode_111]
    row_8080_inode_111 "111"
  ∧ proc_net_tcp fs_both_tables = Some [tcp_header; row_8080_inode_111]
  ∧ proc_net_tcp (with_tcp6 fs_both_tables None) = proc_net_tcp fs_both_tables
  ∧ MainGo.findProcessByPort fs_both_tables 8080 = Some (77, "v6proc")
  ∧ MainGo.findProcessByPort (with_tcp6 fs_both_tables None) 8080 = Some (0, "").
Proof.
  split.
  { exists tcp_header, [], []. split; [reflexivity|]. split; [constructor|reflexivity]. }
  repeat split; reflexivity.
Qed.

(** C4, witness: on [fs_testproc] the IPv4 search finds process 4321 and the
    IPv6 table does not count. *)
Lemma C4_witness :
  MainGo.findProcessByPort (with_tcp6 fs_testproc None) 8080 = Some (4321, "testproc").
Proof.
  apply (proj1 (proj2 (C4_first_match_then_fallback fs_testproc 8080))
           (4321, "testproc")).
  - reflexivity.
  - simpl. lia.
Defined.

(** C5. A probe returns with the ports of the host as it found them: when
    the bind succeeds the port was free, is held by the listener, and is
    released before the return; so a probe that reports a port available
    is followed by a probe that reports it available. Both programs. *)
Theorem C5_probe_releases_socket :
  probe_is_transient MainGo.checkPort ∧ probe_is_transient Part000.checkPort.
Proof.
  split; intros n fs port getPID.
  - destruct (MainGo_checkPort_frame n fs port getPID) as (r & Hr & _).
    exists r. split; [done|]. intros Hfree.
    rewrite (MainGo_checkPort_InUse _ _ _ _ _ _ Hr) in Hfree.
    destruct (net_Listen_cases n port) as [Hl|(q & Hl & Hq & _)];
      rewrite Hl in Hfree; [done|].
    split; [exists q; auto using listener_Close_bound|].
    intros fs' getPID'.
    destruct (MainGo_checkPort_frame n fs' port getPID') as (r' & Hr' & _).
    exists r'. split; [done|].
    by rewrite (MainGo_checkPort_InUse _ _ _ _ _ _ Hr'), Hl.
  - destruct (Part000_checkPort_frame n fs port getPID) as (r & Hr & _).
    exists r. split; [done|]. intros Hfree.
    rewrite (Part000_checkPort_InUse _ _ _ _ _ _ Hr) in Hfree.
    destruct (net_Listen_cases n port) as [Hl|(q & Hl & Hq & _)];
      rewrite Hl in Hfree; [done|].
    split; [exists q; auto using listener_Close_bound|].
    intros fs' getPID'.
    destruct (Part000_checkPort_frame n fs' port getPID') as (r' & Hr' & _).
    exists r'. split; [done|].
    by rewrite (Part000_checkPort_InUse _ _ _ _ _ _ Hr'), Hl.
Qed.

(** C5, witness: port 8081 is free on a host that listens on 8080; the
    probe reports it available and leaves the host as it was. *)
Lemma C5_witness :
  ∃ r, MainGo.checkPort (net_with [8080]) fs_unreadable 8081 false
       = Some (r, net_with [8080])
       ∧ InUse r = false
       ∧ ∃ r', MainGo.checkPort (net_with [8080]) fs_unreadable 8081 true
               = Some (r', net_with [8080]) ∧ InUse r' = false.
Proof.
  destruct (proj1 C5_probe_releases_socket (net_with [8080]) fs_unreadable 8081 false)
    as (r & Hr & Hnext).
  exists r. split; [exact Hr|].
  assert (InUse r = false) as Hfree.
  { rewrite (MainGo_checkPort_InUse _ _ _ _ _ _ Hr). reflexivity. }
  split; [exact Hfree|].
  exact (proj2 (Hnext Hfree) fs_unreadable true).
Defined.

(** C6. The result of [checkPort] carries a pid or a process name only when
    the port is in use, the resolution was asked for, and the resolution
    returned that pid, positive, and that name; a port that is not in use
    has pid 0 and the empty name. *)
Theorem C6_owner_only_when_resolved (n : Net) (fs : FS) (port : Z) (getPID : bool)
    (r : PortResult) (n' : Net) :
  MainGo.checkPort n fs port getPID = Some (r, n') →
  ((PID r ≠ 0 ∨ Process r ≠ "") →
     InUse r = true ∧ getPID = true
     ∧ MainGo.findProcessByPort fs port = Some (PID r, Process r) ∧ 0 < PID r)
  ∧ (InUse r = false → PID r = 0 ∧ Process r = "").
Proof.
  unfold MainGo.checkPort. destruct (net_Listen n port) as [[l|] n1].
  - intros [= <- _]. simpl. split; [intros [?|?]; done|done].
  - destruct getPID.
    + destruct (MainGo.findProcessByPort fs port) as [[pid name]|] eqn:Hres;
        simpl; [|done].
      intros [= <- _]. simpl. split; [|done].
      intros Hpop. repeat split; try done.
      destruct (MainGo_findProcessByPort_result _ _ _ _ Hres) as [?|[-> ->]]; [done|].
      destruct Hpop; done.
    + intros [= <- _]. simpl. split; [intros [?|?]; done|done].
Qed.

(** C6, witness: port 8080 is in use on a host whose tables name process
    4321 as the listener. *)
Lemma C6_witness :
  MainGo.checkPort (net_with [8080]) fs_testproc 8080 true
  = Some ({| Port := 8080; InUse := true; PID := 4321; Process := "testproc" |},
          net_with [8080])
  ∧ MainGo.findProcessByPort fs_testproc 8080 = Some (4321, "testproc")
  ∧ PID {| Port := 8081; InUse := false; PID := 0; Process := "" |} = 0.
Proof.
  assert (MainGo.checkPort (net_with [8080]) fs_testproc 8080 true
          = Some ({| Port := 8080; InUse := true; PID := 4321; Process := "testproc" |},
                  net_with [8080])) as Hrun by reflexivity.
  split; [exact Hrun|]. split.
  - apply (proj1 (C6_owner_only_when_resolved _ _ _ _ _ _ Hrun)).
    left. simpl. lia.
  - assert (MainGo.checkPort (net_with [8080]) fs_testproc 8081 true
            = Some ({| Port := 8081; InUse := false; PID := 0; Process := "" |},
                    listener_Close (net_bound (net_with [8080])
                                      ({[ 8081 ]} ∪ listening (net_with [8080]))) 8081))
      as Hrun' by reflexivity.
    exact (proj1 (proj2 (C6_owner_only_when_resolved _ _ _ _ _ _ Hrun') eq_refl)).
Defined.

(** C7, as amended. [PortResult] has no way to say "absent": when the port
    is not in use, when the resolution is not asked for, and when it is
    asked for and fails, the pid is 0 and the name is empty; on a port in
    use, a failed resolution gives the very result that no resolution
    gives. The two are told apart only by the flag the caller holds. *)
Theorem C7_absent_owner_is_zero_value (n : Net) (fs : FS) (port : Z)
    (r_off r_on : PortResult) (n_off n_on : Net) :
  MainGo.checkPort n fs port false = Some (r_off, n_off) →
  MainGo.checkPort n fs port true = Some (r_on, n_on) →
  (PID r_off = 0 ∧ Process r_off = "")
  ∧ (InUse r_on = false ∨ MainGo.findProcessByPort fs port = Some (0, "") →
     r_on = r_off).
Proof.
  unfold MainGo.checkPort. destruct (net_Listen n port) as [[l|] n1].
  - intros [= <- _] [= <- _]. done.
  - intros [= <- _].
    destruct (MainGo.findProcessByPort fs port) as [[pid name]|]; simpl; [|done].
    intros [= <- _]. split; [done|]. intros [?|[= -> ->]]; done.
Qed.

(** C7, the claim as stated fails: on a host where port 8080 is in use and
    nothing under /proc can be read, the result of a probe that did not ask
    for the owner and the result of a probe that asked and failed are the
    same value. *)
Lemma C7_counterexample :
  MainGo.findProcessByPort fs_unreadable 8080 = Some (0, "")
  ∧ MainGo.checkPort (net_with [8080]) fs_unreadable 8080 true
    = Some ({| Port := 8080; InUse := true; PID := 0; Process := "" |}, net_with [8080])
  ∧ MainGo.checkPort (net_with [8080]) fs_unreadable 8080 false
    = Some ({| Port := 8080; InUse := true; PID := 0; Process := "" |}, net_with [8080]).
Proof. repeat split; reflexivity. Qed.

(** C7, witness: the host of the counterexample. *)
Lemma C7_witness :
  fst <$> MainGo.checkPort (net_with [8080]) fs_unreadable 8080 true
  = fst <$> MainGo.checkPort (net_with [8080]) fs_unreadable 8080 false.
Proof.
  pose proof (C7_absent_owner_is_zero_value (net_with [8080]) fs_unreadable 8080
                {| Port := 8080; InUse := true; PID := 0; Process := "" |}
                {| Port := 8080; InUse := true; PID := 0; Process := "" |}
                (net_with [8080]) (net_with [8080]) eq_refl eq_refl) as [_ Heq].
  exact (f_equal Some (Heq (or_intror eq_refl))).
Defined.

(** C8, on src/main.go. Process 4321 owns the socket and its comm file
    cannot be read: the program returns the pid with the empty name, where
    the second copy of the program returns the name "unknown". *)
Theorem C8_main_go_unreadable_comm :
  first_owner fs_no_comm "socket:[111]" (proc_entry_no_comm "4321" [Some "socket:[111]"]) 4321
  ∧ pe_comm_err (proc_entry_no_comm "4321" [Some "socket:[111]"]) = true
  ∧ MainGo.findPIDByInode fs_no_comm "111" = (4321, "")
  ∧ MainGo.findProcessByPort fs_no_comm 8080 = Some (4321, "")
  ∧ Part000.findPIDByInode fs_no_comm "111" = (4321, "unknown")
  ∧ Part000.findProcessByPort fs_no_comm 8080 = Some (4321, "unknown").
Proof.
  split.
  { exists [], []. split; [reflexivity|]. split; [constructor|reflexivity]. }
  repeat split; reflexivity.
Qed.

(** C8, in general. In the second copy of the program the owner of an inode
    whose comm file cannot be read is returned with the name "unknown";
    src/main.go returns it with whatever was read of the file, trimmed. *)
Lemma unreadable_comm_in_both fs inode e pid :
  proc_open_err fs = false → proc_names_err fs = false →
  first_owner fs ("socket:[" +:+ inode +:+ "]") e pid →
  pe_comm_err e = true →
  Part000.findPIDByInode fs inode = (pid, "unknown")
  ∧ MainGo.findPIDByInode fs inode = (pid, TrimSpace (pe_comm e)).
Proof.
  intros Hopen Herr Howner Hcomm. split.
  - destruct Howner as (before & after & Hnames & Hbefore & He).
    unfold Part000.findPIDByInode. rewrite Hopen, Herr, Hnames.
    by rewrite (Part000_scan_entries_first _ _ _ _ pid), Hcomm.
  - by apply MainGo_findPIDByInode_first.
Qed.

(** Where the two programs agree: when the listing of /proc reports no
    error and every comm file can be read, they return the same results
    from [findPIDByInode], [searchNetFile], [findProcessByPort] and
    [checkPort]. *)
Lemma copies_agree_without_errors (fs : FS) :
  proc_names_err fs = false →
  Forall (λ e, pe_comm_err e = false) (proc_names fs) →
  (∀ inode, MainGo.findPIDByInode fs inode = Part000.findPIDByInode fs inode)
  ∧ (∀ path port, MainGo.searchNetFile fs path port = Part000.searchNetFile fs path port)
  ∧ (∀ port, MainGo.findProcessByPort fs port = Part000.findProcessByPort fs port)
  ∧ (∀ n port getPID,
       MainGo.checkPort n fs port getPID = Part000.checkPort n fs port getPID).
Proof.
  intros Herr Hcomm.
  assert (∀ inode, MainGo.findPIDByInode fs inode = Part000.findPIDByInode fs inode)
    as Hpid by (intros; by apply findPIDByInode_agree).
  auto using searchNetFile_agree, findProcessByPort_agree, checkPort_agree.
Qed.

(** C9, on src/main.go. The two programs are not the same program:
    src/main.go drops the two error checks the second copy makes in
    [findPIDByInode]. With the comm file of the owner unreadable
    ([fs_no_comm]), src/main.go returns process 4321 with the empty name
    from [findPIDByInode], [searchNetFile], [findProcessByPort] and
    [checkPort], where the second copy returns it with the name "unknown";
    with the listing of /proc ending on an error, src/main.go returns the
    owner found among the entries read and the second copy returns no
    owner. *)
Theorem C9_main_go_drops_error_checks :
  (MainGo.findPIDByInode fs_no_comm "111" = (4321, "")
   ∧ Part000.findPIDByInode fs_no_comm "111" = (4321, "unknown"))
  ∧ (MainGo.searchNetFile fs_no_comm "/proc/net/tcp" 8080 = Some (4321, "")
     ∧ Part000.searchNetFile fs_no_comm "/proc/net/tcp" 8080 = Some (4321, "unknown"))
  ∧ (MainGo.findProcessByPort fs_no_comm 8080 = Some (4321, "")
     ∧ Part000.findProcessByPort fs_no_comm 8080 = Some (4321, "unknown"))
  ∧ (MainGo.checkPort (net_with [8080]) fs_no_comm 8080 true
     = Some ({| Port := 8080; InUse := true; PID := 4321; Process := "" |},
             net_with [8080])
     ∧ Part000.checkPort (net_with [8080]) fs_no_comm 8080 true
       = Some ({| Port := 8080; InUse := true; PID := 4321; Process := "unknown" |},
               net_with [8080]))
  ∧ (MainGo.findPIDByInode (fs_listing_error fs_testproc) "111" = (4321, "testproc")
     ∧ Part000.findPIDByInode (fs_listing_error fs_testproc) "111" = (0, "")).
Proof. repeat split; reflexivity. Qed.

(** The other difference of the two programs: when the listing of /proc
    ends on an error, src/main.go goes through the entries read so far and
    the second copy gives up. *)
Lemma listing_error_in_both :
  MainGo.findPIDByInode (fs_listing_error fs_testproc) "111" = (4321, "testproc")
  ∧ Part000.findPIDByInode (fs_listing_error fs_testproc) "111" = (0, "").
Proof. split; reflexivity. Qed.

(** On the host [fs_testproc], where nothing fails, the two programs
    agree. *)
Lemma copies_agree_on_testproc :
  MainGo.checkPort (net_with [8080]) fs_testproc 8080 true
  = Part000.checkPort (net_with [8080]) fs_testproc 8080 true.
Proof.
  apply (copies_agree_without_errors fs_testproc).
  - reflexivity.
  - repeat constructor.
Qed.

(** C10. The row scanner of both programs returns on every table (no index
    out of range, no failure), and a row with fewer than ten fields, or
    whose local address does not split on the colon into two parts, is
    passed over: the scan goes on with the next row. *)
Theorem C10_row_scanner_skips_malformed_rows (fs : FS) (portHex : string) :
  (∀ rows, ∃ r, MainGo.scan_rows fs portHex rows = Some r)
  ∧ (∀ rows, ∃ r, Part000.scan_rows fs portHex rows = Some r)
  ∧ (∀ path port, ∃ r, MainGo.searchNetFile fs path port = Some r)
  ∧ (∀ path port, ∃ r, Part000.searchNetFile fs path port = Some r)
  ∧ (∀ row rest,
       malformed row →
       MainGo.scan_rows fs portHex (row :: rest) = MainGo.scan_rows fs portHex rest
       ∧ Part000.scan_rows fs portHex (row :: rest)
         = Part000.scan_rows fs portHex rest).
Proof.
  repeat split;
    auto using MainGo_scan_rows_total, Part000_scan_rows_total,
      MainGo_searchNetFile_total, Part000_searchNetFile_total,
      MainGo_scan_rows_skip, Part000_scan_rows_skip.
Qed.

(** C10, witness: a line of three fields and a line whose local address has
    no colon are passed over. *)
Lemma C10_witness :
  MainGo.scan_rows fs_testproc "1F90" ["too few fields"; row_8080_inode_111]
  = MainGo.scan_rows fs_testproc "1F90" [row_8080_inode_111]
  ∧ MainGo.scan_rows fs_testproc "1F90" [row_without_colon; row_8080_inode_111]
    = MainGo.scan_rows fs_testproc "1F90" [row_8080_inode_111].
Proof.
  destruct (C10_row_scanner_skips_malformed_rows fs_testproc "1F90")
    as (_ & _ & _ & _ & Hskip).
  split.
  - apply (Hskip "too few fields" [row_8080_inode_111]).
    left. vm_compute. lia.
  - apply (Hskip row_without_colon [row_8080_inode_111]).
    right. exists "000000001F90". split; [reflexivity|]. vm_compute. lia.
Defined.

(* ===================================================================== *)
(** * The sort                                                            *)
(* ===================================================================== *)

Lemma for_each_app {A : Type} (body : nat → A → option A) js1 js2 a :
  for_each body (js1 ++ js2) a
  = match for_each body js1 a with
    | Some a' => for_each body js2 a'
    | None => None
    end.
Proof.
  revert a. induction js1 as [|j js1 IH]; intros a; simpl; [done|].
  destruct (body j a); [apply IH|done].
Qed.

(** One comparison, on a list cut at the two indices. *)
Lemma compare_swap_middle pre x mid y post :
  compare_swap (length pre) (S (length pre + length mid))
    (pre ++ x :: mid ++ y :: post)
  = Some (if Port y <? Port x
          then pre ++ y :: mid ++ x :: post
          else pre ++ x :: mid ++ y :: post).
Proof.
  unfold compare_swap.
  rewrite (list_lookup_middle pre (mid ++ y :: post) x (length pre)) by done.
  assert ((pre ++ x :: mid ++ y :: post) !! S (length pre + length mid) = Some y)
    as ->.
  { replace (pre ++ x :: mid ++ y :: post) with ((pre ++ x :: mid) ++ y :: post)
      by (by rewrite <- app_assoc).
    apply list_lookup_middle. rewrite length_app. simpl. lia. }
  simpl. destruct (Port y <? Port x); [|done]. f_equal.
  replace (length pre) with (length pre + 0)%nat at 2 by lia.
  rewrite insert_app_r. simpl.
  replace (S (length pre + length mid))%nat with (length pre + S (length mid))%nat by lia.
  rewrite insert_app_r. simpl. f_equal. f_equal.
  replace (length mid) with (length mid + 0)%nat by lia.
  by rewrite insert_app_r.
Qed.

(** The order the sort establishes. *)
Lemma inner_loop_from pre rest : ∀ x mid,
  ∃ m rest',
    for_each (compare_swap (length pre))
      (seq (S (length pre + length mid)) (length rest)) (pre ++ x :: mid ++ rest)
    = Some (pre ++ m :: mid ++ rest')
    ∧ m :: rest' ≡ₚ x :: rest
    ∧ Port m ≤ Port x
    ∧ Forall (λ y, Port m ≤ Port y) rest'.
Proof.
  induction rest as [|y t IH]; intros x mid.
  - exists x, []. simpl. repeat split; [done|lia|constructor].
  - simpl. rewrite compare_swap_middle.
    destruct (Z.ltb_spec (Port y) (Port x)) as [Hlt|Hge].
    + destruct (IH y (mid ++ [x])) as (m & t' & Hrun & Hperm & Hm & Hall).
      exists m, (x :: t'). rewrite length_app in Hrun. simpl in Hrun.
      replace (length pre + (length mid + 1))%nat with (S (length pre + length mid)) in Hrun
        by lia.
      rewrite <- !app_assoc in Hrun. simpl in Hrun.
      split; [exact Hrun|]. split.
      { by rewrite (Permutation_swap x m t'), Hperm. }
      split; [lia|]. constructor; [lia|done].
    + destruct (IH x (mid ++ [y])) as (m & t' & Hrun & Hperm & Hm & Hall).
      exists m, (y :: t'). rewrite length_app in Hrun. simpl in Hrun.
      replace (length pre + (length mid + 1))%nat with (S (length pre + length mid)) in Hrun
        by lia.
      rewrite <- !app_assoc in Hrun. simpl in Hrun.
      split; [exact Hrun|]. split.
      { rewrite (Permutation_swap y m t'), Hperm. apply Permutation_swap. }
      split; [lia|]. constructor; [lia|done].
Qed.

(** The inner loop at index [i] brings a least port of the part from [i]
    on to index [i]. *)
Lemma inner_loop_select pre x rest :
  ∃ m rest',
    inner_loop (length pre) (pre ++ x :: rest) = Some (pre ++ m :: rest')
    ∧ m :: rest' ≡ₚ x :: rest
    ∧ Forall (λ y, Port m ≤ Port y) rest'.
Proof.
  destruct (inner_loop_from pre rest x []) as (m & rest' & Hrun & Hperm & _ & Hall).
  exists m, rest'. split; [|done].
  unfold inner_loop. rewrite length_app. simpl in *.
  replace (length pre + S (length rest) - S (length pre))%nat with (length rest) by lia.
  replace (length pre + 0)%nat with (length pre) in Hrun by lia. exact Hrun.
Qed.

(** A swap keeps the length, so the bound of the inner loop is constant. *)
Lemma compare_swap_length i j a a' :
  compare_swap i j a = Some a' → length a' = length a.
Proof.
  unfold compare_swap. destruct (a !! i) as [x|]; [|done].
  destruct (a !! j) as [y|]; [|done]. simpl.
  destruct (Port y <? Port x); intros [= <-]; [|done].
  by rewrite !length_insert.
Qed.

(** The outer loop, from index [length pre] on, for [c] rounds, where [c]
    is the length of the rest or one less. *)
Lemma outer_loop_sorts rest : ∀ pre c,
  (length rest - 1 ≤ c ≤ length rest)%nat →
  ∃ rest',
    for_each inner_loop (seq (length pre) c) (pre ++ rest) = Some (pre ++ rest')
    ∧ rest' ≡ₚ rest
    ∧ StronglySorted port_le rest'.
Proof.
  remember (length rest) as k eqn:Hk. revert rest Hk.
  induction k as [|k IH]; intros rest Hk pre c Hc.
  - destruct rest; [|done]. assert (c = 0%nat) as -> by lia.
    exists []. simpl. repeat split; [done|constructor].
  - destruct rest as [|x t]; [done|]. simpl in Hk. injection Hk as Hk.
    destruct c as [|c].
    + assert (t = []) as -> by (destruct t; simpl in *; [done|lia]).
      exists [x]. simpl. repeat split; [done|]. repeat constructor.
    + simpl.
      destruct (inner_loop_select pre x t) as (m & t' & -> & Hperm & Hall).
      assert (length t' = k) as Hk'.
      { apply Permutation_length in Hperm. simpl in Hperm. lia. }
      destruct (IH t' (eq_sym Hk') (pre ++ [m]) c ltac:(lia)) as (t'' & Hrun & Hperm' & Hsorted).
      rewrite length_app in Hrun. simpl in Hrun.
      replace (length pre + 1)%nat with (S (length pre)) in Hrun by lia.
      rewrite <- !app_assoc in Hrun. simpl in Hrun.
      exists (m :: t''). split; [exact Hrun|]. split; [by rewrite Hperm'|].
      constructor; [done|]. by rewrite Hperm'.
Qed.

(* ===================================================================== *)
(** * The range scan                                                      *)
(* ===================================================================== *)

(** ** The sort returns the results in ascending order of port *)

Lemma MainGo_sort_sorts a :
  ∃ out, MainGo_sort a = Some out ∧ out ≡ₚ a ∧ StronglySorted port_le out.
Proof. apply (outer_loop_sorts a [] (length a)). lia. Qed.

Lemma Part000_sort_sorts a :
  ∃ out, Part000_sort a = Some out ∧ out ≡ₚ a ∧ StronglySorted port_le out.
Proof. apply (outer_loop_sorts a [] (length a - 1)%nat). lia. Qed.

(** The last round of src/main.go compares nothing: the two sorts return
    the same list. *)
Lemma sorts_agree a : MainGo_sort a = Part000_sort a.
Proof.
  destruct (Part000_sort_sorts a) as (out & Hout & Hperm & _).
  rewrite Hout. unfold MainGo_sort, Part000_sort in *.
  destruct a as [|x a]; [done|]. simpl length in *.
  replace (S (length a) - 1)%nat with (length a) in Hout by lia.
  rewrite seq_S, for_each_app, Hout. simpl. unfold inner_loop.
  apply Permutation_length in Hperm. simpl in Hperm. rewrite Hperm.
  by replace (S (length a) - S (length a))%nat with 0%nat by lia.
Qed.

Lemma sorted_ports out :
  StronglySorted port_le out → StronglySorted Z.le (Port <$> out).
Proof.
  induction 1 as [|r out _ IH Hall]; simpl; constructor; [done|].
  by apply Forall_fmap.
Qed.

Lemma seqZ_sorted_lt m n : StronglySorted Z.lt (seqZ m n).
Proof.
  destruct (Z.le_gt_cases n 0) as [Hn|Hn].
  { rewrite seqZ_nil by done. constructor. }
  rewrite <- (Z2Nat.id n) by lia. generalize (Z.to_nat n) as k. clear n Hn.
  intros k. revert m. induction k as [|k IH]; intros m.
  { rewrite seqZ_nil by done. constructor. }
  rewrite seqZ_cons by lia. constructor.
  - replace (Z.pred (Z.of_nat (S k))) with (Z.of_nat k) by lia. apply IH.
  - apply Forall_forall. intros p [? ?]%elem_of_seqZ. lia.
Qed.

Lemma sorted_lt_le l : StronglySorted Z.lt l → StronglySorted Z.le l.
Proof.
  induction 1 as [|x l _ IH Hall]; constructor; [done|].
  eapply Forall_impl; [exact Hall|]. simpl. intros. lia.
Qed.

(** A sorted list whose ports are those of an interval is the interval. *)
Lemma sorted_interval start end_ out :
  Port <$> out ≡ₚ seqZ start (end_ - start + 1) →
  StronglySorted port_le out →
  exact_ascending start end_ out.
Proof.
  intros Hperm Hsorted.
  assert (Port <$> out = seqZ start (end_ - start + 1)) as Heq.
  { apply (StronglySorted_unique Z.le); [by apply sorted_ports| |done].
    apply sorted_lt_le, seqZ_sorted_lt. }
  unfold exact_ascending. rewrite Heq.
  split; [|split; [done|split; [|split]]].
  - rewrite <- (length_fmap Port), Heq. apply length_seqZ.
  - intros p. rewrite elem_of_seqZ. lia.
  - apply NoDup_seqZ.
  - apply seqZ_sorted_lt.
Qed.

(** ** Lists of goroutines *)

Lemma insert_split {A : Type} (l : list A) (k : nat) (t t' : A) :
  l !! k = Some t → ∃ l1 l2, l = l1 ++ t :: l2 ∧ <[k := t']> l = l1 ++ t' :: l2.
Proof.
  intros Hk. exists (take k l), (drop (S k) l). split.
  - by rewrite take_drop_middle.
  - apply insert_take_drop. by eapply lookup_lt_Some.
Qed.

Lemma count_pc_app f l1 l2 :
  count_pc f (l1 ++ l2) = (count_pc f l1 + count_pc f l2)%nat.
Proof. induction l1 as [|t l1 IH]; simpl; [done|]. rewrite IH. lia. Qed.

Lemma sent_ports_app l1 l2 : sent_ports (l1 ++ l2) = sent_ports l1 ++ sent_ports l2.
Proof.
  induction l1 as [|t l1 IH]; simpl; [done|].
  destruct (past_send (t_pc t)); simpl; by rewrite IH.
Qed.

Lemma tasks_steps_app l1 l2 : tasks_steps (l1 ++ l2) = tasks_steps l1 + tasks_steps l2.
Proof. induction l1 as [|t l1 IH]; simpl; [done|]. rewrite IH. lia. Qed.

Lemma count_pc_le f g l :
  (∀ pc, f pc = true → g pc = true) → (count_pc f l ≤ count_pc g l)%nat.
Proof.
  intros Hfg. induction l as [|t l IH]; simpl; [done|].
  destruct (f (t_pc t)) eqn:Hf; [rewrite (Hfg _ Hf)|destruct (g (t_pc t))]; lia.
Qed.

(** No goroutine is left: all have exited. *)
Lemma count_not_exited_0 l :
  count_pc not_exited l = 0%nat → sent_ports l = t_port <$> l.
Proof.
  induction l as [|[p pc] l IH]; simpl; [done|].
  destruct pc; simpl; try lia. intros H. by rewrite IH.
Qed.

(** ** The steps of the machine *)

Section MachineFacts.

Variable checkPort : Net → FS → Z → bool → option (PortResult * Net).
Variables (start end_ : Z) (showPID : bool).

(** The prober returns, and returns the result of the port it was given. *)
Hypothesis checkPort_returns :
  ∀ n fs port getPID, ∃ r, checkPort n fs port getPID = Some (r, n) ∧ Port r = port.

Local Abbreviation stepM := (step checkPort start end_ showPID).
Local Abbreviation runM := (run checkPort start end_ showPID).
Local Abbreviation step_taskM := (step_task checkPort start end_ showPID).

(** A step of a probe goroutine moves that goroutine to its next
    position and leaves the others where they are. *)
Lemma step_task_Next k n fs s s' :
  step_taskM k n fs s = Next s' →
  ∃ l1 p pc l2 pc',
    tasks s = l1 ++ {| t_port := p; t_pc := pc |} :: l2
    ∧ tasks s' = l1 ++ {| t_port := p; t_pc := pc' |} :: l2
    ∧ main_pc s' = main_pc s ∧ closer_pc s' = closer_pc s
    ∧ results_closed s' = results_closed s ∧ portResults s' = portResults s
    ∧ ((pc = AtAcquire ∧ pc' = InCheckPort
        ∧ (sem s < sem_cap)%nat ∧ sem s' = S (sem s)
        ∧ wg s' = wg s ∧ results s' = results s)
       ∨ (pc = InCheckPort
          ∧ (∃ r n', checkPort n fs p showPID = Some (r, n') ∧ pc' = AtSend r)
          ∧ sem s' = sem s ∧ wg s' = wg s ∧ results s' = results s)
       ∨ (∃ r, pc = AtSend r ∧ pc' = AtRelease
               ∧ results_closed s = false
               ∧ Z.of_nat (length (results s)) < results_cap start end_
               ∧ sem s' = sem s ∧ wg s' = wg s ∧ results s' = results s ++ [r])
       ∨ (pc = AtRelease ∧ pc' = AtDone
          ∧ sem s = S (sem s') ∧ wg s' = wg s ∧ results s' = results s)
       ∨ (pc = AtDone ∧ pc' = Exited
          ∧ 0 < wg s ∧ sem s' = sem s ∧ wg s' = wg s - 1 ∧ results s' = results s)).
Proof.
  unfold step_task. destruct (tasks s !! k) as [[p pc]|] eqn:Hk; [|done].
  intros Hstep. simpl in Hstep.
  assert (∀ pc', ∃ l1 l2, tasks s = l1 ++ {| t_port := p; t_pc := pc |} :: l2
            ∧ <[k := {| t_port := p; t_pc := pc' |}]> (tasks s)
              = l1 ++ {| t_port := p; t_pc := pc' |} :: l2) as Hsplit.
  { intros pc'. destruct (insert_split _ _ _ {| t_port := p; t_pc := pc' |} Hk)
      as (l1 & l2 & ? & ?). eauto. }
  destruct pc as [| |r| | |].
  - destruct (Nat.ltb_spec (sem s) sem_cap); [|done]. injection Hstep as <-.
    destruct (Hsplit InCheckPort) as (l1 & l2 & H1 & H2).
    exists l1, p, AtAcquire, l2, InCheckPort. simpl. rewrite H2. auto 20.
  - destruct (checkPort n fs p showPID) as [[r n']|] eqn:Hprobe; [|done].
    injection Hstep as <-.
    destruct (Hsplit (AtSend r)) as (l1 & l2 & H1 & H2).
    exists l1, p, InCheckPort, l2, (AtSend r). simpl. rewrite H2.
    do 6 (split; [done|]). right. left. eauto 10.
  - destruct (results_closed s) eqn:Hclosed; [done|].
    destruct (Z.ltb_spec (Z.of_nat (length (results s))) (results_cap start end_));
      [|done].
    injection Hstep as <-.
    destruct (Hsplit AtRelease) as (l1 & l2 & H1 & H2).
    exists l1, p, (AtSend r), l2, AtRelease. simpl. rewrite H2.
    do 6 (split; [done|]). right. right. left. exists r. auto 10.
  - destruct (sem s) as [|m] eqn:Hsem; [done|]. injection Hstep as <-.
    destruct (Hsplit AtDone) as (l1 & l2 & H1 & H2).
    exists l1, p, AtRelease, l2, AtDone. simpl. rewrite H2.
    do 6 (split; [done|]). right. right. right. left. auto 10.
  - destruct (Z.leb_spec (wg s) 0); [done|]. injection Hstep as <-.
    destruct (Hsplit Exited) as (l1 & l2 & H1 & H2).
    exists l1, p, AtDone, l2, Exited. simpl. rewrite H2.
    do 6 (split; [done|]). right. right. right. right. auto 10.
  - done.
Qed.

(** ** The concurrency ceiling *)

Lemma step_slot_inv ev s s' : slot_inv s → stepM ev s = Next s' → slot_inv s'.
Proof.
  intros [Hsem Hcap] Hstep. unfold slot_inv. destruct ev as [| |k n fs]; simpl in Hstep.
  - unfold step_main in Hstep. destruct (main_pc s) as [p| |].
    + destruct (p <=? end_); injection Hstep as <-; simpl; [|done].
      rewrite count_pc_app. simpl. lia.
    + destruct (results s); [destruct (results_closed s); [|done]|];
        injection Hstep as <-; done.
    + done.
  - unfold step_closer in Hstep. destruct (closer_pc s); [done| | |done].
    + destruct (wg s =? 0); [|done]. by injection Hstep as <-.
    + destruct (results_closed s); [done|]. by injection Hstep as <-.
  - apply step_task_Next in Hstep
      as (l1 & p & pc & l2 & pc' & Ht & Ht' & _ & _ & _ & _ & Hmove).
    rewrite Ht', count_pc_app. rewrite Ht, count_pc_app in Hsem. simpl in *.
    task_moves Hmove; simpl in *; lia.
Qed.

Lemma run_slot_inv evs : ∀ s s', slot_inv s → runM evs s = Next s' → slot_inv s'.
Proof.
  induction evs as [|ev evs IH]; intros s s' Hinv; simpl.
  - by intros [= <-].
  - destruct (stepM ev s) as [s1| |] eqn:Hstep; [|done|done].
    apply IH. by eapply step_slot_inv.
Qed.

Lemma checkPortRange_slot_inv evs s :
  checkPortRange checkPort start end_ showPID evs = Next s → slot_inv s.
Proof.
  unfold checkPortRange, init. destruct (results_cap start end_ <? 0); [done|].
  apply run_slot_inv. split; simpl; [done|]. unfold sem_cap. lia.
Qed.

(** ** The states of a scan of a valid range *)

Hypothesis valid_range : 1 ≤ start ≤ end_ ≤ 65535.

Lemma results_cap_valid : results_cap start end_ = end_ - start + 1.
Proof.
  unfold results_cap, int_add, int_sub, wrap64.
  rewrite (Z.mod_small (end_ - start + 2 ^ 63)) by lia.
  rewrite Z.mod_small by lia. lia.
Qed.

Lemma int_add_port p : 0 ≤ p ≤ 65536 → int_add p 1 = p + 1.
Proof. intros Hp. unfold int_add, wrap64. rewrite Z.mod_small by lia. lia. Qed.

Lemma init_scan_inv s : init start end_ = Some s → scan_inv start end_ s.
Proof.
  unfold init. destruct (results_cap start end_ <? 0); [done|]. intros [= <-].
  split; simpl; unfold next_port; simpl.
  - lia.
  - by rewrite Z.sub_diag.
  - split; simpl; [done|]. unfold sem_cap. lia.
  - done.
  - done.
  - constructor.
  - eauto.
  - done.
Qed.

Lemma step_main_scan_inv s s' :
  scan_inv start end_ s → step_main end_ s = Next s' → scan_inv start end_ s'.
Proof.
  intros Hinv Hstep.
  pose proof (step_slot_inv RunMain s s' (inv_slots _ _ _ Hinv) Hstep) as Hslots.
  destruct Hinv as [Hnext Hports _ Hwg Hres Hok Hctl Hfin].
  unfold step_main in Hstep. unfold next_port in *.
  destruct (main_pc s) as [p| |] eqn:Hmain.
  - assert (closer_pc s = NotStarted ∧ results_closed s = false) as [Hcl Hopen].
    { destruct (closer_pc s); try (by destruct Hctl as [? ?]).
      by destruct Hctl as [[?|?] _]. }
    destruct (Z.leb_spec p end_) as [Hle|Hgt]; injection Hstep as <-.
    + split; simpl; unfold next_port; simpl; try done.
      * rewrite int_add_port by lia. lia.
      * rewrite int_add_port by lia. rewrite fmap_app, Hports. simpl.
        replace (p + 1 - start) with ((p - start) + 1) by lia.
        rewrite seqZ_app by lia. f_equal. rewrite seqZ_cons by lia.
        rewrite seqZ_nil by lia. f_equal. lia.
      * rewrite count_pc_app. simpl. lia.
      * rewrite sent_ports_app. simpl. by rewrite app_nil_r.
      * apply Forall_app. split; [done|]. by repeat constructor.
      * rewrite Hcl. eauto.
    + split; simpl; unfold next_port; simpl; try done.
      * lia.
      * rewrite Hports. f_equal. lia.
  - destruct (results s) as [|r buf] eqn:Hbuf.
    + destruct (results_closed s) eqn:Hclosed; [|done]. injection Hstep as <-.
      split; simpl; unfold next_port; simpl; try done.
      destruct (closer_pc s); try (destruct Hctl as (? & ? & ?); congruence);
        try (destruct Hctl as (? & ?); congruence).
      destruct Hctl as (_ & _ & ?). auto.
    + injection Hstep as <-.
      split; simpl; unfold next_port; simpl; try done.
      by rewrite <- app_assoc.
  - done.
Qed.

Lemma step_closer_scan_inv s s' :
  scan_inv start end_ s → step_closer s = Next s' → scan_inv start end_ s'.
Proof.
  intros Hinv Hstep.
  pose proof (step_slot_inv RunCloser s s' (inv_slots _ _ _ Hinv) Hstep) as Hslots.
  destruct Hinv as [Hnext Hports _ Hwg Hres Hok Hctl Hfin].
  unfold step_closer in Hstep. unfold next_port in *.
  destruct (closer_pc s) eqn:Hcl; [done| | |done].
  - destruct (Z.eqb_spec (wg s) 0) as [Hz|]; [|done]. injection Hstep as <-.
    destruct Hctl as [Hmain Hopen].
    split; simpl; unfold next_port; simpl; try done.
  - destruct (results_closed s); [done|]. injection Hstep as <-.
    destruct Hctl as (Hmain & Hopen & Hz).
    split; simpl; unfold next_port; simpl; try done. auto.
Qed.

Lemma step_task_scan_inv k n fs s s' :
  scan_inv start end_ s → step_taskM k n fs s = Next s' → scan_inv start end_ s'.
Proof.
  intros Hinv Hstep.
  pose proof (step_slot_inv (RunTask k n fs) s s' (inv_slots _ _ _ Hinv) Hstep)
    as Hslots.
  destruct Hinv as [Hnext Hports _ Hwg Hres Hok Hctl Hfin].
  apply step_task_Next in Hstep
    as (l1 & p & pc & l2 & pc' & Ht & Ht' & Hmain & Hcl & Hclosed & Hpr & Hmove).
  rewrite Ht in *. clear Ht.
  rewrite count_pc_app in Hwg. rewrite sent_ports_app in Hres.
  apply Forall_app in Hok as [Hok1 Hok2].
  apply Forall_cons in Hok2 as [Hokt Hok2]. unfold task_ok in Hokt.
  simpl in Hwg, Hres, Hokt.
  assert (main_pc s = Finished → results_closed s = true) as Hfin_closed.
  { intros Hf. rewrite Hf in Hctl.
    destruct (closer_pc s); try (by destruct Hctl as [[? ?] _]);
      try (by destruct Hctl as [? _]). by destruct Hctl as (_ & ? & _). }
  unfold next_port in *.
  split; unfold next_port; rewrite ?Hmain, ?Hcl, ?Hclosed, ?Hpr, ?Ht'.
  - done.
  - rewrite <- Hports, !fmap_app. done.
  - done.
  - rewrite count_pc_app. task_moves Hmove; simpl in *; lia.
  - rewrite sent_ports_app. task_moves Hmove; rewrite Hres'; simpl in *; try done.
    rewrite app_assoc, fmap_app, Hres. simpl. rewrite Hokt.
    rewrite <- Permutation_cons_append. apply Permutation_middle.
  - apply Forall_app. split; [done|]. apply Forall_cons. split; [|done].
    unfold task_ok. task_moves Hmove; simpl; try done.
    destruct (checkPort_returns n fs p showPID) as (r0 & Hr0 & Hp). congruence.
  - task_moves Hmove; rewrite Hwg'; try done.
    destruct (closer_pc s); try done.
    + destruct Hctl as (_ & _ & ?). lia.
    + destruct Hctl as (_ & _ & ?). lia.
  - intros Hf. task_moves Hmove; rewrite Hres'; auto.
    rewrite (Hfin_closed Hf) in Hopen. done.
Qed.

Lemma step_scan_inv ev s s' :
  scan_inv start end_ s → stepM ev s = Next s' → scan_inv start end_ s'.
Proof.
  destruct ev; simpl;
    eauto using step_main_scan_inv, step_closer_scan_inv, step_task_scan_inv.
Qed.

Lemma run_scan_inv evs : ∀ s s',
  scan_inv start end_ s → runM evs s = Next s' → scan_inv start end_ s'.
Proof.
  induction evs as [|ev evs IH]; intros s s' Hinv; simpl.
  - by intros [= <-].
  - destruct (stepM ev s) as [s1| |] eqn:Hstep; [|done|done].
    apply IH. by eapply step_scan_inv.
Qed.

(** ** No goroutine panics *)

Lemma count_pc_lookup f l k t :
  l !! k = Some t → f (t_pc t) = true → (1 ≤ count_pc f l)%nat.
Proof.
  intros Hk Hf. destruct (insert_split l k t t Hk) as (l1 & l2 & -> & _).
  rewrite count_pc_app. simpl. rewrite Hf. lia.
Qed.

Lemma step_no_panic ev s : scan_inv start end_ s → stepM ev s ≠ Panicked.
Proof.
  intros [Hnext Hports Hslots Hwg Hres Hok Hctl Hfin].
  destruct ev as [| |k n fs]; simpl.
  - unfold step_main. destruct (main_pc s) as [p| |]; [by destruct (p <=? end_)| |done].
    destruct (results s); [by destruct (results_closed s)|done].
  - unfold step_closer. destruct (closer_pc s); [done| | |done].
    + by destruct (wg s =? 0).
    + destruct Hctl as (_ & -> & _). done.
  - unfold step_task. destruct (tasks s !! k) as [[p pc]|] eqn:Hk; [|done]. simpl.
    destruct pc as [| |r| | |].
    + by destruct (sem s <? sem_cap)%nat.
    + by destruct (checkPort_returns n fs p showPID) as (r & -> & _).
    + pose proof (count_pc_lookup not_exited _ _ _ Hk eq_refl) as Hcount.
      destruct (results_closed s) eqn:Hclosed.
      * destruct (closer_pc s); try (destruct Hctl as (_ & ? & _); congruence);
          try (destruct Hctl as (_ & ?); congruence).
        destruct Hctl as (_ & _ & ?). lia.
      * by destruct (Z.of_nat (length (results s)) <? results_cap start end_).
    + by destruct (sem s).
    + pose proof (count_pc_lookup not_exited _ _ _ Hk eq_refl) as Hcount.
      destruct (Z.leb_spec (wg s) 0); [lia|done].
    + done.
Qed.

Lemma run_no_panic evs : ∀ s, scan_inv start end_ s → runM evs s ≠ Panicked.
Proof.
  induction evs as [|ev evs IH]; intros s Hinv; simpl; [done|].
  destruct (stepM ev s) as [s1| |] eqn:Hstep; [|done|].
  - apply IH. by eapply step_scan_inv.
  - by apply step_no_panic in Hstep.
Qed.

(** ** Every step is one of the [7 * n + 4] steps of the scan *)

Lemma tasks_steps_nonneg l : 0 ≤ tasks_steps l.
Proof. induction l as [|[p []] l IH]; simpl; lia. Qed.

Lemma steps_left_nonneg s : scan_inv start end_ s → 0 ≤ steps_left end_ s.
Proof.
  intros Hinv. pose proof (inv_next _ _ _ Hinv) as Hnext.
  pose proof (tasks_steps_nonneg (tasks s)).
  unfold steps_left, next_port in *.
  destruct (main_pc s), (closer_pc s); lia.
Qed.

Lemma step_steps_left ev s s' :
  scan_inv start end_ s → stepM ev s = Next s' →
  steps_left end_ s' = steps_left end_ s - 1.
Proof.
  intros Hinv Hstep. pose proof (inv_control _ _ _ Hinv) as Hctl.
  pose proof (inv_next _ _ _ Hinv) as Hnext.
  unfold steps_left, next_port in *. destruct ev as [| |k n fs]; simpl in Hstep.
  - unfold step_main in Hstep. destruct (main_pc s) as [p| |] eqn:Hmain.
    + assert (closer_pc s = NotStarted) as Hcl.
      { destruct (closer_pc s); try (by destruct Hctl as [? ?]).
        by destruct Hctl as [[?|?] _]. }
      destruct (Z.leb_spec p end_); injection Hstep as <-; simpl; rewrite Hcl.
      * rewrite tasks_steps_app, int_add_port by lia. simpl. lia.
      * lia.
    + destruct (results s) as [|r buf].
      * destruct (results_closed s); [|done]. injection Hstep as <-. simpl. lia.
      * injection Hstep as <-. simpl length. simpl. lia.
    + done.
  - unfold step_closer in Hstep. destruct (closer_pc s); [done| | |done].
    + destruct (wg s =? 0); [|done]. injection Hstep as <-. simpl. lia.
    + destruct (results_closed s); [done|]. injection Hstep as <-. simpl. lia.
  - apply step_task_Next in Hstep
      as (l1 & p & pc & l2 & pc' & Ht & Ht' & Hmain & Hcl & _ & _ & Hmove).
    rewrite Hmain, Hcl, Ht, Ht', !tasks_steps_app. simpl.
    task_moves Hmove; rewrite Hres', ?length_app; simpl; lia.
Qed.

Lemma run_steps_left evs : ∀ s s',
  scan_inv start end_ s → runM evs s = Next s' →
  Z.of_nat (length evs) + steps_left end_ s' = steps_left end_ s.
Proof.
  induction evs as [|ev evs IH]; intros s s' Hinv; simpl length; simpl.
  - intros [= <-]. lia.
  - destruct (stepM ev s) as [s1| |] eqn:Hstep; [|done|done]. intros Hrun.
    pose proof (step_steps_left _ _ _ Hinv Hstep).
    pose proof (IH _ _ (step_scan_inv _ _ _ Hinv Hstep) Hrun). lia.
Qed.

(** ** Some goroutine can always take a step *)

(** Among goroutines that have not all exited, one is past the acquire,
    or none holds a slot and one waits to acquire. *)
Lemma runnable_task l :
  (0 < count_pc not_exited l)%nat →
  (∃ k p pc, l !! k = Some {| t_port := p; t_pc := pc |}
             ∧ pc ≠ Exited ∧ pc ≠ AtAcquire)
  ∨ (count_pc holds_slot l = 0%nat
     ∧ ∃ k p, l !! k = Some {| t_port := p; t_pc := AtAcquire |}).
Proof.
  induction l as [|[p pc] l IH]; simpl; [lia|]. intros Hcount.
  assert (pc = Exited ∨ pc = AtAcquire ∨ (pc ≠ Exited ∧ pc ≠ AtAcquire)) as Hpc.
  { destruct pc; auto; right; right; done. }
  destruct Hpc as [->|[->|[? ?]]]; simpl in *.
  - destruct IH as [(k & p' & pc' & ? & ? & ?)|(? & k & p' & ?)]; [lia| |].
    + left. by exists (S k), p', pc'.
    + right. split; [done|]. by exists (S k), p'.
  - destruct (count_pc not_exited l) as [|c] eqn:Hc.
    + right. split; [|by exists 0%nat, p].
      pose proof (count_pc_le holds_slot not_exited l) as Hle.
      assert (count_pc holds_slot l ≤ count_pc not_exited l)%nat
        by (apply Hle; by intros []).
      lia.
    + destruct IH as [(k & p' & pc' & ? & ? & ?)|(? & _)]; [lia| |].
      * left. by exists (S k), p', pc'.
      * right. split; [done|]. by exists 0%nat, p.
  - left. by exists 0%nat, p, pc.
Qed.

Lemma progress s :
  scan_inv start end_ s → main_pc s ≠ Finished → ∃ ev s', stepM ev s = Next s'.
Proof.
  intros [Hnext Hports [Hsem Hcap] Hwg Hres Hok Hctl Hfin] Hmain.
  destruct (main_pc s) as [p| |] eqn:Hpc; [| |done].
  { exists RunMain. simpl. unfold step_main. rewrite Hpc.
    destruct (p <=? end_); eauto. }
  destruct (results s) as [|r buf] eqn:Hbuf.
  2: { exists RunMain. simpl. unfold step_main. rewrite Hpc, Hbuf. eauto. }
  destruct (results_closed s) eqn:Hclosed.
  { exists RunMain. simpl. unfold step_main. rewrite Hpc, Hbuf, Hclosed. eauto. }
  destruct (closer_pc s) eqn:Hcl.
  - by destruct Hctl as [[? ?] _].
  - destruct (Z.eqb_spec (wg s) 0) as [Hz|Hnz].
    { exists RunCloser. simpl. unfold step_closer. rewrite Hcl.
      destruct (Z.eqb_spec (wg s) 0); [eauto|done]. }
    destruct (runnable_task (tasks s) ltac:(lia))
      as [(k & p & pc & Hk & Hne & Hna)|(Hnone & k & p & Hk)].
    + exists (RunTask k (net_with []) fs_unreadable). simpl. unfold step_task.
      rewrite Hk. simpl. destruct pc as [| |r| | |]; try done.
      * destruct (checkPort_returns (net_with []) fs_unreadable p showPID)
          as (r & -> & _). eauto.
      * rewrite Hclosed, Hbuf, results_cap_valid.
        destruct (Z.ltb_spec (Z.of_nat (length (@nil PortResult))) (end_ - start + 1))
          as [?|Hge]; [eauto|simpl in Hge; lia].
      * pose proof (count_pc_lookup holds_slot _ _ _ Hk eq_refl).
        destruct (sem s); [lia|eauto].
      * destruct (Z.leb_spec (wg s) 0); [lia|eauto].
    + exists (RunTask k (net_with []) fs_unreadable). simpl. unfold step_task.
      rewrite Hk. simpl.
      destruct (Nat.ltb_spec (sem s) sem_cap); [eauto|]. unfold sem_cap in *. lia.
  - exists RunCloser. simpl. unfold step_closer. rewrite Hcl, Hclosed. eauto.
  - destruct Hctl as (_ & ? & _). congruence.
Qed.

Lemma run_app evs1 evs2 s :
  runM (evs1 ++ evs2) s
  = match runM evs1 s with
    | Next s1 => runM evs2 s1
    | Blocked => Blocked
    | Panicked => Panicked
    end.
Proof.
  revert s. induction evs1 as [|ev evs1 IH]; intros s; simpl; [done|].
  destruct (stepM ev s); [apply IH|done|done].
Qed.

(** Every state of the scan can be run to the end. *)
Lemma completes (m : nat) : ∀ s,
  scan_inv start end_ s → steps_left end_ s ≤ Z.of_nat m →
  ∃ evs s', runM evs s = Next s' ∧ main_pc s' = Finished.
Proof.
  induction m as [|m IH]; intros s Hinv Hm.
  - exists [], s. split; [done|]. destruct (main_pc s) eqn:Hpc; [| |done].
    + destruct (progress s Hinv) as (ev & s1 & Hstep); [congruence|].
      pose proof (step_steps_left _ _ _ Hinv Hstep).
      pose proof (steps_left_nonneg _ (step_scan_inv _ _ _ Hinv Hstep)). lia.
    + destruct (progress s Hinv) as (ev & s1 & Hstep); [congruence|].
      pose proof (step_steps_left _ _ _ Hinv Hstep).
      pose proof (steps_left_nonneg _ (step_scan_inv _ _ _ Hinv Hstep)). lia.
  - destruct (main_pc s) eqn:Hpc.
    3: { exists [], s. done. }
    + destruct (progress s Hinv) as (ev & s1 & Hstep); [congruence|].
      pose proof (step_steps_left _ _ _ Hinv Hstep).
      destruct (IH s1 (step_scan_inv _ _ _ Hinv Hstep)) as (evs & s' & Hrun & ?); [lia|].
      exists (ev :: evs), s'. simpl. by rewrite Hstep.
    + destruct (progress s Hinv) as (ev & s1 & Hstep); [congruence|].
      pose proof (step_steps_left _ _ _ Hinv Hstep).
      destruct (IH s1 (step_scan_inv _ _ _ Hinv Hstep)) as (evs & s' & Hrun & ?); [lia|].
      exists (ev :: evs), s'. simpl. by rewrite Hstep.
Qed.

(** The results collected when the scan is over are one per port. *)
Lemma finished_results s :
  scan_inv start end_ s → main_pc s = Finished →
  Port <$> portResults s ≡ₚ seqZ start (end_ - start + 1).
Proof.
  intros [Hnext Hports _ Hwg Hres Hok Hctl Hfin] Hmain.
  unfold next_port in *. rewrite Hmain in *.
  rewrite (Hfin eq_refl), app_nil_r in Hres. rewrite Hres.
  assert (wg s = 0) as Hz.
  { destruct (closer_pc s); try (by destruct Hctl as [[? ?] _]);
      try (by destruct Hctl as [? _]). by destruct Hctl as (_ & _ & ?). }
  rewrite count_not_exited_0 by lia. rewrite Hports.
  by replace (end_ + 1 - start) with (end_ - start + 1) by lia.
Qed.

(** The scan of a valid range, under every schedule: no goroutine
    panics; each step is one of [7 * n + 4]; the scan can always be run
    to its end; and at its end the sorted results are one per port, in
    ascending order. *)
Lemma scan_correct (sort : list PortResult → option (list PortResult)) evs :
  (∀ a, ∃ out, sort a = Some out ∧ out ≡ₚ a ∧ StronglySorted port_le out) →
  checkPortRange checkPort start end_ showPID evs ≠ Panicked
  ∧ ∀ s, checkPortRange checkPort start end_ showPID evs = Next s →
      (main_pc s = Finished →
       ∃ out, sort (portResults s) = Some out ∧ exact_ascending start end_ out)
      ∧ Z.of_nat (length evs) + steps_left end_ s = 7 * (end_ - start + 1) + 4
      ∧ 0 ≤ steps_left end_ s
      ∧ ∃ evs' s', checkPortRange checkPort start end_ showPID (evs ++ evs') = Next s'
                   ∧ main_pc s' = Finished.
Proof.
  intros Hsort. unfold checkPortRange.
  destruct (init start end_) as [s0|] eqn:Hinit.
  2: { unfold init in Hinit. rewrite results_cap_valid in Hinit.
       destruct (Z.ltb_spec (end_ - start + 1) 0); [lia|done]. }
  pose proof (init_scan_inv _ Hinit) as Hinv0.
  split; [by apply run_no_panic|]. intros s Hrun.
  pose proof (run_scan_inv _ _ _ Hinv0 Hrun) as Hinv.
  split; [|split; [|split]].
  - intros Hfin. destruct (Hsort (portResults s)) as (out & Hout & Hperm & Hsorted).
    exists out. split; [done|]. apply sorted_interval; [|done].
    rewrite Hperm. by apply finished_results.
  - rewrite (run_steps_left _ _ _ Hinv0 Hrun).
    unfold init in Hinit. destruct (results_cap start end_ <? 0); [done|].
    injection Hinit as <-. unfold steps_left. simpl. lia.
  - by apply steps_left_nonneg.
  - destruct (completes (Z.to_nat (steps_left end_ s)) s Hinv) as (evs' & s' & ? & ?).
    { pose proof (steps_left_nonneg _ Hinv). lia. }
    exists evs', s'. by rewrite run_app, Hrun.
Qed.

End MachineFacts.

(* ===================================================================== *)
(** * The claims about the range scan                                     *)
(* ===================================================================== *)

(** A scan of a valid range runs: some schedule takes it from the two
    [make] to its end, and the sorted results are then one per port, in
    ascending order. *)
Lemma scan_runs (checkPort : Net → FS → Z → bool → option (PortResult * Net))
    (start end_ : Z) (showPID : bool)
    (sort : list PortResult → option (list PortResult)) :
  (∀ n fs port getPID, ∃ r, checkPort n fs port getPID = Some (r, n) ∧ Port r = port) →
  1 ≤ start ≤ end_ ≤ 65535 →
  (∀ a, ∃ out, sort a = Some out ∧ out ≡ₚ a ∧ StronglySorted port_le out) →
  ∃ evs s out,
    checkPortRange checkPort start end_ showPID evs = Next s
    ∧ main_pc s = Finished
    ∧ sort (portResults s) = Some out
    ∧ exact_ascending start end_ out.
Proof.
  intros Hreturns Hvalid Hsort.
  assert (∃ s0, checkPortRange checkPort start end_ showPID [] = Next s0) as [s0 Hrun0].
  { unfold checkPortRange, init. rewrite results_cap_valid by done.
    destruct (Z.ltb_spec (end_ - start + 1) 0); [lia|]. simpl. eauto. }
  destruct (scan_correct checkPort start end_ showPID Hreturns Hvalid sort []
              Hsort) as [_ Hscan0].
  destruct (Hscan0 s0 Hrun0) as (_ & _ & _ & evs & s & Hrun & Hfin).
  change ([] ++ evs) with evs in Hrun.
  destruct (scan_correct checkPort start end_ showPID Hreturns Hvalid sort evs
              Hsort) as [_ Hscan].
  destruct (Hscan s Hrun) as [Hout _]. destruct (Hout Hfin) as (out & Hsorted & Hasc).
  by exists evs, s, out.
Qed.

(** C1. A scan of a valid range [start, end_] runs to its end: there is a
    schedule of its goroutines under which the caller gets past its
    collecting loop, and the collected results, sorted, are then
    [end_ - start + 1] entries whose ports are exactly those of
    [start, end_], each once, in strictly ascending order. And under
    every schedule of its goroutines: no goroutine panics; the scan can
    be run to its end, in [7 * n + 4] steps in all, whatever the schedule
    did so far; and when it is over, the collected results, sorted, are
    one per port of [start, end_] in strictly ascending order. Both
    programs. *)
Theorem C1_range_scan_exact_ascending (start end_ : Z) (showPID : bool) :
  1 ≤ start ≤ end_ ≤ 65535 →
  ((∃ evs s out,
      MainGo_checkPortRange start end_ showPID evs = Next s
      ∧ main_pc s = Finished
      ∧ MainGo_sort (portResults s) = Some out
      ∧ exact_ascending start end_ out)
   ∧ (∃ evs s out,
        Part000_checkPortRange start end_ showPID evs = Next s
        ∧ main_pc s = Finished
        ∧ Part000_sort (portResults s) = Some out
        ∧ exact_ascending start end_ out))
  ∧ ∀ evs,
    (MainGo_checkPortRange start end_ showPID evs ≠ Panicked
     ∧ ∀ s, MainGo_checkPortRange start end_ showPID evs = Next s →
         (main_pc s = Finished →
          ∃ out, MainGo_sort (portResults s) = Some out
                 ∧ exact_ascending start end_ out)
         ∧ Z.of_nat (length evs) + steps_left end_ s = 7 * (end_ - start + 1) + 4
         ∧ 0 ≤ steps_left end_ s
         ∧ ∃ evs' s', MainGo_checkPortRange start end_ showPID (evs ++ evs') = Next s'
                      ∧ main_pc s' = Finished)
    ∧ (Part000_checkPortRange start end_ showPID evs ≠ Panicked
       ∧ ∀ s, Part000_checkPortRange start end_ showPID evs = Next s →
           (main_pc s = Finished →
            ∃ out, Part000_sort (portResults s) = Some out
                   ∧ exact_ascending start end_ out)
           ∧ Z.of_nat (length evs) + steps_left end_ s = 7 * (end_ - start + 1) + 4
           ∧ 0 ≤ steps_left end_ s
           ∧ ∃ evs' s', Part000_checkPortRange start end_ showPID (evs ++ evs') = Next s'
                        ∧ main_pc s' = Finished).
Proof.
  intros Hvalid. split; [split|intros evs; split].
  - apply (scan_runs MainGo.checkPort start end_ showPID MainGo_sort
             MainGo_checkPort_frame Hvalid MainGo_sort_sorts).
  - apply (scan_runs Part000.checkPort start end_ showPID Part000_sort
             Part000_checkPort_frame Hvalid Part000_sort_sorts).
  - apply (scan_correct MainGo.checkPort start end_ showPID
             MainGo_checkPort_frame Hvalid MainGo_sort evs MainGo_sort_sorts).
  - apply (scan_correct Part000.checkPort start end_ showPID
             Part000_checkPort_frame Hvalid Part000_sort evs Part000_sort_sorts).
Qed.

(** C1, witness: ports 3000 to 3002 under the schedule [sched_3000_3002],
    in which the probes complete in the order 3002, 3000, 3001; both
    programs run it to the end. *)
Lemma C1_witness :
  (∃ s out,
     MainGo_checkPortRange 3000 3002 true sched_3000_3002 = Next s
     ∧ main_pc s = Finished
     ∧ Port <$> portResults s = [3002; 3000; 3001]
     ∧ MainGo_sort (portResults s) = Some out
     ∧ Port <$> out = [3000; 3001; 3002]
     ∧ length out = 3%nat)
  ∧ (∃ s out,
       Part000_checkPortRange 3000 3002 true sched_3000_3002 = Next s
       ∧ main_pc s = Finished
       ∧ Port <$> portResults s = [3002; 3000; 3001]
       ∧ Part000_sort (portResults s) = Some out
       ∧ Port <$> out = [3000; 3001; 3002]
       ∧ length out = 3%nat).
Proof.
  assert (∃ s, MainGo_checkPortRange 3000 3002 true sched_3000_3002 = Next s
               ∧ main_pc s = Finished
               ∧ Port <$> portResults s = [3002; 3000; 3001])
    as (s & Hrun & Hfin & Hports).
  { vm_compute. eexists. split; [reflexivity|]. split; reflexivity. }
  assert (∃ s, Part000_checkPortRange 3000 3002 true sched_3000_3002 = Next s
               ∧ main_pc s = Finished
               ∧ Port <$> portResults s = [3002; 3000; 3001])
    as (s' & Hrun' & Hfin' & Hports').
  { vm_compute. eexists. split; [reflexivity|]. split; reflexivity. }
  destruct (C1_range_scan_exact_ascending 3000 3002 true ltac:(lia))
    as [_ Hall].
  destruct (Hall sched_3000_3002) as [[_ Hscan] [_ Hscan']].
  destruct (Hscan s Hrun) as [Hout _].
  destruct (Hout Hfin) as (out & Hsort & Hlen & Hasc & _).
  destruct (Hscan' s' Hrun') as [Hout' _].
  destruct (Hout' Hfin') as (out' & Hsort' & Hlen' & Hasc' & _).
  split; [exists s, out|exists s', out']; repeat split; assumption.
Defined.

(** C2. In every state of a range scan, whatever the range and the
    schedule, the slots taken are the goroutines between acquire and
    release, there are at most 100 of them, and so at most 100 ports are
    being probed. Both programs. *)
Theorem C2_concurrency_ceiling (start end_ : Z) (showPID : bool) (evs : list Event) :
  (∀ s, MainGo_checkPortRange start end_ showPID evs = Next s →
        sem s = count_pc holds_slot (tasks s)
        ∧ (probing s ≤ sem s)%nat ∧ (sem s ≤ 100)%nat ∧ (probing s ≤ 100)%nat)
  ∧ (∀ s, Part000_checkPortRange start end_ showPID evs = Next s →
          sem s = count_pc holds_slot (tasks s)
          ∧ (probing s ≤ sem s)%nat ∧ (sem s ≤ 100)%nat ∧ (probing s ≤ 100)%nat).
Proof.
  assert (∀ s, slot_inv s →
               sem s = count_pc holds_slot (tasks s)
               ∧ (probing s ≤ sem s)%nat ∧ (sem s ≤ 100)%nat ∧ (probing s ≤ 100)%nat)
    as Hslots.
  { intros s [Hsem Hcap]. unfold sem_cap in Hcap. unfold probing.
    assert (count_pc is_probing (tasks s) ≤ count_pc holds_slot (tasks s))%nat.
    { apply count_pc_le. by intros []. }
    repeat split; lia. }
  split; intros s Hrun; apply Hslots; by eapply checkPortRange_slot_inv.
Qed.

(** C2, witness: 150 goroutines are started on the range 1 to 150 and 100
    of them take a slot; 100 ports are being probed and the next goroutine
    that asks for a slot waits. *)
Lemma C2_witness :
  ∃ s, MainGo_checkPortRange 1 150 false (sched_fill 100) = Next s
       ∧ length (tasks s) = 150%nat
       ∧ probing s = 100%nat
       ∧ step MainGo.checkPort 1 150 false (RunTask 100 (net_with []) fs_unreadable) s
         = Blocked
       ∧ (probing s ≤ 100)%nat.
Proof.
  assert (∃ s, MainGo_checkPortRange 1 150 false (sched_fill 100) = Next s
               ∧ length (tasks s) = 150%nat
               ∧ probing s = 100%nat
               ∧ step MainGo.checkPort 1 150 false
                   (RunTask 100 (net_with []) fs_unreadable) s = Blocked)
    as (s & Hrun & Hlen & Hprobing & Hblocked).
  { vm_compute. eexists. split; [reflexivity|]. repeat split; reflexivity. }
  exists s. repeat split; try assumption.
  exact (proj2 (proj2 (proj2
           (proj1 (C2_concurrency_ceiling 1 150 false (sched_fill 100)) s Hrun)))).
Defined.

(* ===================================================================== *)
(** * Further properties: [main]                                          *)
(* ===================================================================== *)

(** X1. [main] starts a range scan only on a range with
    1 <= start <= end <= 65535, read from an argument of the form a-b, and
    a single check only on a port in [1, 65535], read from an argument
    without a dash; the resolution flag is set exactly when the first
    argument is --pid or -p. *)
Theorem X1_main_validates (args : list string) :
  (∀ start end_ showPID,
     main args = RunRange start end_ showPID →
     1 ≤ start ≤ end_ ≤ 65535
     ∧ ∃ prog portArg more part0 part1,
         (args = prog :: portArg :: more ∧ showPID = false
          ∨ ∃ flag, args = prog :: flag :: portArg :: more
                    ∧ (flag = "--pid" ∨ flag = "-p") ∧ showPID = true)
         ∧ Split portArg "-" = [part0; part1]
         ∧ Atoi part0 = Some start ∧ Atoi part1 = Some end_)
  ∧ (∀ port showPID,
       main args = RunCheck port showPID →
       1 ≤ port ≤ 65535
       ∧ ∃ prog portArg more,
           (args = prog :: portArg :: more ∧ showPID = false
            ∨ ∃ flag, args = prog :: flag :: portArg :: more
                      ∧ (flag = "--pid" ∨ flag = "-p") ∧ showPID = true)
           ∧ Contains portArg "-" = false
           ∧ Atoi portArg = Some port).
Proof.
  assert (∀ prog arg1 more (showPID : bool) portArg,
            (if String.eqb arg1 "--pid" || String.eqb arg1 "-p"
             then match more with [] => None | arg2 :: _ => Some (true, arg2) end
             else Some (false, arg1)) = Some (showPID, portArg) →
            ∃ more',
              (prog :: arg1 :: more = prog :: portArg :: more' ∧ showPID = false
               ∨ ∃ flag, prog :: arg1 :: more = prog :: flag :: portArg :: more'
                         ∧ (flag = "--pid" ∨ flag = "-p") ∧ showPID = true))
    as Hargs.
  { intros prog arg1 more showPID portArg.
    destruct (String.eqb_spec arg1 "--pid") as [->|_]; simpl.
    { destruct more as [|arg2 more']; [done|]. intros [= <- <-].
      exists more'. right. exists "--pid". auto. }
    destruct (String.eqb_spec arg1 "-p") as [->|_]; simpl.
    { destruct more as [|arg2 more']; [done|]. intros [= <- <-].
      exists more'. right. exists "-p". auto. }
    intros [= <- <-]. exists more. by left. }
  unfold main. destruct args as [|prog [|arg1 more]]; [done|done|].
  destruct (if String.eqb arg1 "--pid" || String.eqb arg1 "-p"
            then match more with [] => None | arg2 :: _ => Some (true, arg2) end
            else Some (false, arg1)) as [[showPID portArg]|] eqn:Hflag; [|done].
  destruct (Hargs prog _ _ _ _ Hflag) as [more' Hshape].
  destruct (String.eqb portArg "-h" || String.eqb portArg "--help"); [done|].
  destruct (Contains portArg "-") eqn:Hdash.
  - split; [|by destruct (Split portArg "-") as [|? [|? [|? ?]]];
               repeat case_match].
    intros start end_ b.
    destruct (Split portArg "-") as [|part0 [|part1 [|? ?]]] eqn:Hsplit; try done.
    destruct (Atoi part0) as [start'|] eqn:H0; [|done].
    destruct (Atoi part1) as [end'|] eqn:H1; [|done].
    destruct (Z.ltb_spec end' start'); [done|].
    destruct (Z.ltb_spec start' 1); [done|].
    destruct (Z.ltb_spec 65535 end'); [done|]. simpl.
    intros [= <- <- <-]. split; [lia|].
    exists prog, portArg, more', part0, part1. auto.
  - split; [by destruct (Atoi portArg); repeat case_match|].
    intros port b. destruct (Atoi portArg) as [port'|] eqn:Hport; [|done].
    destruct (Z.ltb_spec port' 1); [done|].
    destruct (Z.ltb_spec 65535 port'); [done|]. simpl.
    intros [= <- <-]. split; [lia|]. exists prog, portArg, more'. auto.
Qed.

(** X1, witness: a range and a single port with the flag. *)
Lemma X1_witness :
  (1 ≤ 3000 ≤ 3010 ≤ 65535) ∧ (1 ≤ 22 ≤ 65535).
Proof.
  split.
  - exact (proj1 (proj1 (X1_main_validates ["portcheck"; "3000-3010"])
                    3000 3010 false eq_refl)).
  - exact (proj1 (proj2 (X1_main_validates ["portcheck"; "--pid"; "22"])
                    22 true eq_refl)).
Defined.

(** The flag changes nothing but the resolution flag of the action. *)
Lemma main_flag (prog flag portArg : string) (more : list string) :
  flag = "--pid" ∨ flag = "-p" →
  portArg ≠ "--pid" → portArg ≠ "-p" →
  main (prog :: flag :: portArg :: more) = with_showPID (main [prog; portArg]).
Proof.
  intros Hflag H1 H2. unfold main.
  destruct (String.eqb_spec portArg "--pid"); [done|].
  destruct (String.eqb_spec portArg "-p"); [done|].
  destruct Hflag as [-> | ->]; cbn [String.eqb Ascii.eqb Bool.eqb orb andb];
    repeat case_match; done.
Qed.

(** X2. [main] reads the first argument and, when that is --pid or -p, the
    second; it reads neither the name of the program nor any further
    argument, so a flag after the port is ignored. After --pid or -p, a
    second argument that is not itself --pid or -p is handled as it is
    when it stands alone, with nothing changed but the resolution flag
    passed on; a second argument that is itself --pid or -p is read as
    the port argument, not as a flag, and refused as a range: --pid with
    the range format error, -p as an invalid port range. *)
Theorem X2_main_reads_two_arguments (prog prog' arg1 arg2 : string) (more : list string) :
  (arg1 ≠ "--pid" → arg1 ≠ "-p" →
   main (prog :: arg1 :: more) = main [prog'; arg1])
  ∧ (arg1 = "--pid" ∨ arg1 = "-p" →
     main (prog :: arg1 :: arg2 :: more) = main [prog'; arg1; arg2])
  ∧ (arg1 = "--pid" ∨ arg1 = "-p" → arg2 ≠ "--pid" → arg2 ≠ "-p" →
     main (prog :: arg1 :: arg2 :: more) = with_showPID (main [prog'; arg2]))
  ∧ (arg1 = "--pid" ∨ arg1 = "-p" → arg2 = "--pid" →
     main (prog :: arg1 :: arg2 :: more)
     = ErrorExit (red +:+ "Error: Invalid port range format" +:+ reset))
  ∧ (arg1 = "--pid" ∨ arg1 = "-p" → arg2 = "-p" →
     main (prog :: arg1 :: arg2 :: more)
     = ErrorExit (red +:+ "Error: Invalid port range" +:+ reset)).
Proof.
  split; [|split; [|split; [|split]]].
  - intros H1 H2. unfold main.
    destruct (String.eqb_spec arg1 "--pid"); [done|].
    by destruct (String.eqb_spec arg1 "-p").
  - intros [->| ->]; reflexivity.
  - intros Hflag H1 H2. by rewrite (main_flag prog arg1 arg2 more).
  - intros [->| ->] ->; reflexivity.
  - intros [->| ->] ->; reflexivity.
Qed.

(** X2, witness: the flag after the port is not read; the flag before it
    is; a second flag is refused as a range. *)
Lemma X2_witness :
  main ["portcheck"; "8080"; "--pid"] = main ["portcheck"; "8080"]
  ∧ main ["portcheck"; "-p"; "8080"; "9090"] = RunCheck 8080 true
  ∧ main ["portcheck"; "--pid"; "-p"]
    = ErrorExit (red +:+ "Error: Invalid port range" +:+ reset).
Proof.
  split; [|split].
  - apply (proj1 (X2_main_reads_two_arguments "portcheck" "portcheck" "8080" ""
                    ["--pid"])); discriminate.
  - apply (proj1 (proj2 (proj2 (X2_main_reads_two_arguments "portcheck" "portcheck"
                                  "-p" "8080" ["9090"]))));
      [by right|discriminate..].
  - apply (proj2 (proj2 (proj2 (proj2 (X2_main_reads_two_arguments "portcheck"
                                          "portcheck" "--pid" "-p" [])))));
      [by left|reflexivity].
Defined.

(** X3. An argument that contains a dash and is no flag is read as a
    range: [main] starts a range scan or exits with one of the two range
    errors, and never reports an invalid port number; so a negative number
    is answered as an invalid range. *)
Theorem X3_main_dash_is_range (prog portArg : string) (more : list string) :
  Contains portArg "-" = true →
  portArg ≠ "--pid" → portArg ≠ "-p" → portArg ≠ "-h" → portArg ≠ "--help" →
  main (prog :: portArg :: more)
  = ErrorExit (red +:+ "Error: Invalid port range format" +:+ reset)
  ∨ main (prog :: portArg :: more)
    = ErrorExit (red +:+ "Error: Invalid port range" +:+ reset)
  ∨ ∃ start end_, main (prog :: portArg :: more) = RunRange start end_ false.
Proof.
  intros Hdash H1 H2 H3 H4. unfold main.
  destruct (String.eqb_spec portArg "--pid"); [done|].
  destruct (String.eqb_spec portArg "-p"); [done|]. cbn [orb].
  destruct (String.eqb_spec portArg "-h"); [done|].
  destruct (String.eqb_spec portArg "--help"); [done|]. cbn [orb]. rewrite Hdash.
  destruct (Split portArg "-") as [|part0 [|part1 [|? ?]]]; auto.
  destruct (Atoi part0) as [start|]; [|auto].
  destruct (Atoi part1) as [end_|]; [|auto].
  destruct ((end_ <? start) || (start <? 1) || (65535 <? end_)); eauto.
Qed.

(** X3, witness: the argument -5. *)
Lemma X3_witness :
  main ["portcheck"; "-5"] = ErrorExit (red +:+ "Error: Invalid port range" +:+ reset).
Proof.
  destruct (X3_main_dash_is_range "portcheck" "-5" [] eq_refl)
    as [H|[H|(start & end_ & H)]]; try discriminate.
  exact H.
Defined.

(** ** Decimal arguments *)

Lemma string_app_cons (c : ascii) (s1 s2 : string) :
  String c s1 +:+ s2 = String c (s1 +:+ s2).
Proof. reflexivity. Qed.

Lemma string_app_nil_l (s : string) : "" +:+ s = s.
Proof. reflexivity. Qed.

Lemma string_app_assoc (s1 s2 s3 : string) : (s1 +:+ s2) +:+ s3 = s1 +:+ (s2 +:+ s3).
Proof.
  induction s1 as [|c s1 IH]; [done|]. rewrite !string_app_cons. by f_equal.
Qed.

Lemma string_app_nil_r (s : string) : s +:+ "" = s.
Proof. induction s as [|c s IH]; [done|]. rewrite string_app_cons. by f_equal. Qed.

Lemma string_length_app (s1 s2 : string) :
  String.length (s1 +:+ s2) = (String.length s1 + String.length s2)%nat.
Proof.
  induction s1 as [|c s1 IH]; [done|]. rewrite string_app_cons. simpl. by f_equal.
Qed.

Lemma digit_val_dec_digit d : 0 ≤ d < 10 → digit_val (dec_digit d) = Some d.
Proof.
  intros H.
  assert (d = 0 ∨ d = 1 ∨ d = 2 ∨ d = 3 ∨ d = 4 ∨ d = 5 ∨ d = 6 ∨ d = 7 ∨ d = 8
          ∨ d = 9) as Hd by lia.
  repeat (destruct Hd as [->|Hd]; [reflexivity|]). by subst.
Qed.

(** A digit is neither a sign nor a dash. *)
Lemma digit_no_sign c v :
  digit_val c = Some v → Ascii.eqb c "-" = false ∧ Ascii.eqb c "+" = false.
Proof.
  destruct c as [[] [] [] [] [] [] [] []]; try discriminate; intros _; split; reflexivity.
Qed.

Lemma all_digits_app s1 s2 :
  all_digits (s1 +:+ s2) = all_digits s1 && all_digits s2.
Proof.
  induction s1 as [|c s1 IH]; [done|]. rewrite string_app_cons. simpl.
  rewrite IH. by destruct (digit_val c).
Qed.

(** The digits [dec_from] writes, and what [parse_digits] reads in them. *)
Lemma dec_from_spec fuel : ∀ n acc,
  0 ≤ n < 10 ^ Z.of_nat (S fuel) →
  ∃ ds, dec_from (S fuel) n acc = ds +:+ acc
        ∧ all_digits ds = true ∧ ds ≠ ""
        ∧ ∀ a rest, parse_digits a (ds +:+ rest)
                    = parse_digits (a * 10 ^ Z.of_nat (String.length ds) + n) rest.
Proof.
  assert (∀ n acc, 0 ≤ n < 10 →
            ∃ ds, String (dec_digit (n mod 10)) acc = ds +:+ acc
                  ∧ all_digits ds = true ∧ ds ≠ ""
                  ∧ ∀ a rest, parse_digits a (ds +:+ rest)
                      = parse_digits (a * 10 ^ Z.of_nat (String.length ds) + n) rest)
    as Hone.
  { intros n acc Hn. exists (String (dec_digit (n mod 10)) "").
    rewrite Z.mod_small by lia. simpl.
    rewrite digit_val_dec_digit by lia. repeat split; [done|].
    intros a rest. rewrite ?string_app_cons, ?string_app_nil_l. simpl.
    rewrite ?digit_val_dec_digit by lia. f_equal. change (Z.of_nat 1) with 1. lia. }
  induction fuel as [|fuel IH]; intros n acc Hn.
  - change (dec_from 1 n acc)
      with (if n / 10 =? 0 then String (dec_digit (n mod 10)) acc
            else String (dec_digit (n mod 10)) acc).
    destruct (n / 10 =? 0); apply Hone; simpl in Hn; lia.
  - change (dec_from (S (S fuel)) n acc)
      with (if n / 10 =? 0 then String (dec_digit (n mod 10)) acc
            else dec_from (S fuel) (n / 10) (String (dec_digit (n mod 10)) acc)).
    destruct (Z.eqb_spec (n / 10) 0) as [Hz|Hnz].
    { apply Hone. pose proof (Z.div_mod n 10 ltac:(lia)).
      pose proof (Z.mod_pos_bound n 10 ltac:(lia)). lia. }
    destruct (IH (n / 10) (String (dec_digit (n mod 10)) acc))
      as (ds & Hds & Hall & Hne & Hparse).
    { split; [apply Z.div_pos; lia|].
      apply Z.div_lt_upper_bound; [lia|].
      rewrite Nat2Z.inj_succ, Z.pow_succ_r in Hn by lia. lia. }
    exists (ds +:+ String (dec_digit (n mod 10)) "").
    pose proof (Z.mod_pos_bound n 10 ltac:(lia)) as Hmod.
    split; [by rewrite Hds, string_app_assoc|].
    split; [rewrite all_digits_app, Hall; simpl;
            by rewrite digit_val_dec_digit by lia|].
    split; [by destruct ds|].
    intros a rest.
    rewrite string_app_assoc, Hparse, ?string_app_cons, ?string_app_nil_l. simpl.
    rewrite ?digit_val_dec_digit by lia. f_equal.
    rewrite string_length_app. simpl String.length.
    rewrite Nat2Z.inj_add, Z.pow_add_r by lia.
    change (10 ^ Z.of_nat 1) with 10.
    pose proof (Z.div_mod n 10 ltac:(lia)). lia.
Qed.

(** The decimal notation of a natural number below 10^20: digits only, at
    least one, and [parse_digits] reads the number back. *)
Lemma decimal_spec n :
  0 ≤ n < 10 ^ 20 →
  all_digits (decimal n) = true ∧ decimal n ≠ ""
  ∧ parse_digits 0 (decimal n) = Some n.
Proof.
  intros Hn. unfold decimal. destruct (Z.ltb_spec n 0); [lia|].
  destruct (dec_from_spec 19 n "" Hn) as (ds & -> & Hall & Hne & Hparse).
  rewrite string_app_nil_r. split; [done|split; [done|]].
  rewrite <- (string_app_nil_r ds) at 1. rewrite Hparse. simpl. f_equal; lia.
Qed.

Lemma all_digits_no_dash s : all_digits s = true → Contains s "-" = false.
Proof.
  induction s as [|c s IH]; simpl; [done|].
  destruct (digit_val c) eqn:Hc; [|done]. simpl. intros Hs.
  by rewrite (proj1 (digit_no_sign _ _ Hc)), IH.
Qed.

Lemma Contains_app s1 s2 c :
  Contains (s1 +:+ s2) c = Contains s1 c || Contains s2 c.
Proof.
  induction s1 as [|a s1 IH]; [done|]. rewrite string_app_cons. simpl.
  rewrite IH. by rewrite orb_assoc.
Qed.

(** [strings.Split] on digits, a dash, and more. *)
Lemma Split_from_digits ds : ∀ cur rest,
  all_digits ds = true →
  Split_from cur (ds +:+ String "-" rest) "-" = (cur +:+ ds) :: Split_from "" rest "-".
Proof.
  induction ds as [|c ds IH]; intros cur rest.
  - intros _. by rewrite string_app_nil_l, string_app_nil_r.
  - simpl. destruct (digit_val c) eqn:Hc; [|done]. simpl. intros Hs.
    rewrite ?string_app_cons. simpl.
    rewrite (proj1 (digit_no_sign _ _ Hc)), IH by done.
    unfold snoc. by rewrite string_app_assoc.
Qed.

Lemma Split_from_all_digits ds : ∀ cur,
  all_digits ds = true → Split_from cur ds "-" = [cur +:+ ds].
Proof.
  induction ds as [|c ds IH]; intros cur; simpl.
  - intros _. by rewrite string_app_nil_r.
  - destruct (digit_val c) eqn:Hc; [|done]. simpl. intros Hs.
    rewrite (proj1 (digit_no_sign _ _ Hc)), IH by done.
    unfold snoc. by rewrite string_app_assoc.
Qed.

(** [strconv.Atoi] reads a decimal notation back. *)
Lemma Atoi_decimal n : 0 ≤ n ≤ max_int → Atoi (decimal n) = Some n.
Proof.
  intros Hn. unfold max_int in Hn.
  destruct (decimal_spec n) as (Hall & Hne & Hparse); [lia|].
  unfold Atoi. destruct (decimal n) as [|c s] eqn:Hdec; [done|].
  simpl in Hall. destruct (digit_val c) eqn:Hc; [|done].
  destruct (digit_no_sign _ _ Hc) as [-> ->]. simpl orb. cbn [is_empty].
  rewrite Hparse. unfold min_int, max_int.
  destruct (Z.leb_spec (- 2 ^ 63) n); [|lia].
  by destruct (Z.leb_spec n (2 ^ 63 - 1)); [|lia].
Qed.

(** A decimal notation is none of the flags. *)
Lemma decimal_not_flag n s :
  0 ≤ n < 10 ^ 20 → String.eqb (decimal n +:+ s) (String "-" s) = false
  ∧ ∀ t, String.eqb (decimal n +:+ s) (String "-" t) = false.
Proof.
  intros Hn. destruct (decimal_spec n Hn) as (Hall & Hne & _).
  destruct (decimal n) as [|c ds]; [done|]. simpl in Hall.
  destruct (digit_val c) eqn:Hc; [|done].
  destruct (digit_no_sign _ _ Hc) as [Hdash _].
  split; [|intros t]; rewrite string_app_cons; simpl; by rewrite Hdash.
Qed.

(** A decimal notation does not start with a dash. *)
Lemma decimal_head n t :
  0 ≤ n < 10 ^ 20 → String.eqb (decimal n) (String "-" t) = false.
Proof.
  intros Hn. rewrite <- (string_app_nil_r (decimal n)).
  apply (decimal_not_flag n "" Hn).
Qed.

Lemma decimal_not_pid n : 0 ≤ n < 10 ^ 20 → decimal n ≠ "--pid" ∧ decimal n ≠ "-p".
Proof.
  intros Hn. split; intros Heq;
    pose proof (decimal_head n) as Hhead; rewrite Heq in Hhead.
  - by specialize (Hhead "-pid" Hn).
  - by specialize (Hhead "p" Hn).
Qed.

(** [main] on one decimal argument. *)
Lemma main_decimal prog p :
  0 ≤ p ≤ max_int →
  main [prog; decimal p]
  = if (1 <=? p) && (p <=? 65535) then RunCheck p false
    else ErrorExit (red +:+ "Error: Invalid port number" +:+ reset).
Proof.
  intros Hp. assert (0 ≤ p < 10 ^ 20) as Hp' by (unfold max_int in Hp; lia).
  destruct (decimal_spec p Hp') as (Hall & _ & _).
  unfold main. rewrite !(decimal_head p _ Hp'). cbn [orb].
  rewrite !(decimal_head p _ Hp'). cbn [orb].
  rewrite (all_digits_no_dash _ Hall), (Atoi_decimal p Hp).
  destruct (Z.ltb_spec p 1), (Z.ltb_spec 65535 p), (Z.leb_spec 1 p),
    (Z.leb_spec p 65535); simpl; try lia; done.
Qed.

(** [main] on two decimal numbers joined by a dash. *)
Lemma main_decimal_range prog a b :
  0 ≤ a ≤ max_int → 0 ≤ b ≤ max_int →
  main [prog; decimal a +:+ "-" +:+ decimal b]
  = if (1 <=? a) && (a <=? b) && (b <=? 65535) then RunRange a b false
    else ErrorExit (red +:+ "Error: Invalid port range" +:+ reset).
Proof.
  intros Ha Hb.
  assert (0 ≤ a < 10 ^ 20) as Ha' by (unfold max_int in Ha; lia).
  assert (0 ≤ b < 10 ^ 20) as Hb' by (unfold max_int in Hb; lia).
  destruct (decimal_spec a Ha') as (Halla & _ & _).
  destruct (decimal_spec b Hb') as (Hallb & _ & _).
  unfold main.
  rewrite !(proj2 (decimal_not_flag a ("-" +:+ decimal b) Ha') _). cbn [orb].
  rewrite !(proj2 (decimal_not_flag a ("-" +:+ decimal b) Ha') _). cbn [orb].
  rewrite Contains_app, (all_digits_no_dash _ Halla). cbn [orb].
  change ("-" +:+ decimal b) with (String "-" (decimal b)).
  cbn [Contains Ascii.eqb Bool.eqb andb orb].
  unfold Split. rewrite (Split_from_digits _ _ _ Halla).
  rewrite (Split_from_all_digits _ _ Hallb), !string_app_nil_l.
  rewrite (Atoi_decimal a Ha), (Atoi_decimal b Hb).
  destruct (Z.ltb_spec b a), (Z.ltb_spec a 1), (Z.ltb_spec 65535 b),
    (Z.leb_spec 1 a), (Z.leb_spec a b), (Z.leb_spec b 65535); simpl; try lia; done.
Qed.

(** X4. On the decimal notation of numbers from 0 to 2^63 - 1 (as [%d]
    writes them: no sign, no leading zero) [main] decides exactly by the
    bounds: the number p is checked when 1 <= p <= 65535 and refused as an
    invalid port number otherwise; the range a-b is scanned when
    1 <= a <= b <= 65535 and refused as an invalid port range otherwise;
    after --pid and after -p, for a number and for a range, the outcome is
    the same with the resolution flag set. *)
Theorem X4_main_on_decimal (prog : string) :
  (∀ p, 0 ≤ p ≤ max_int →
     main [prog; decimal p]
     = (if (1 <=? p) && (p <=? 65535) then RunCheck p false
        else ErrorExit (red +:+ "Error: Invalid port number" +:+ reset))
     ∧ main [prog; "--pid"; decimal p] = with_showPID (main [prog; decimal p])
     ∧ main [prog; "-p"; decimal p] = with_showPID (main [prog; decimal p]))
  ∧ (∀ a b, 0 ≤ a ≤ max_int → 0 ≤ b ≤ max_int →
       main [prog; decimal a +:+ "-" +:+ decimal b]
       = (if (1 <=? a) && (a <=? b) && (b <=? 65535) then RunRange a b false
          else ErrorExit (red +:+ "Error: Invalid port range" +:+ reset))
       ∧ main [prog; "--pid"; decimal a +:+ "-" +:+ decimal b]
         = with_showPID (main [prog; decimal a +:+ "-" +:+ decimal b])
       ∧ main [prog; "-p"; decimal a +:+ "-" +:+ decimal b]
         = with_showPID (main [prog; decimal a +:+ "-" +:+ decimal b])).
Proof.
  split.
  - intros p Hp. assert (0 ≤ p < 10 ^ 20) as Hp' by (unfold max_int in Hp; lia).
    destruct (decimal_not_pid p Hp').
    split; [by apply main_decimal|]. split; apply main_flag; auto.
  - intros a b Ha Hb.
    assert (0 ≤ a < 10 ^ 20) as Ha' by (unfold max_int in Ha; lia).
    split; [by apply main_decimal_range|].
    assert (decimal a +:+ "-" +:+ decimal b ≠ "--pid"
            ∧ decimal a +:+ "-" +:+ decimal b ≠ "-p") as [Hpid Hp].
    { split; intros Heq;
        pose proof (proj2 (decimal_not_flag a ("-" +:+ decimal b) Ha')) as Hhead;
        rewrite Heq in Hhead.
      - by specialize (Hhead "-pid").
      - by specialize (Hhead "p"). }
    split; apply main_flag; auto.
Qed.

(** X4, witness: 8080 is checked, 70000 refused, 3000-3010 scanned and
    100-50 refused. *)
Lemma X4_witness :
  main ["portcheck"; decimal 8080] = RunCheck 8080 false
  ∧ main ["portcheck"; decimal 70000]
    = ErrorExit (red +:+ "Error: Invalid port number" +:+ reset)
  ∧ main ["portcheck"; decimal 3000 +:+ "-" +:+ decimal 3010] = RunRange 3000 3010 false
  ∧ main ["portcheck"; decimal 100 +:+ "-" +:+ decimal 50]
    = ErrorExit (red +:+ "Error: Invalid port range" +:+ reset).
Proof.
  destruct (X4_main_on_decimal "portcheck") as [Hone Hrange].
  assert (∀ z, 0 ≤ z ≤ 100000 → 0 ≤ z ≤ max_int) as Hin
    by (unfold max_int; lia).
  split; [exact (proj1 (Hone 8080 (Hin 8080 ltac:(lia))))|].
  split; [exact (proj1 (Hone 70000 (Hin 70000 ltac:(lia))))|].
  split; [exact (proj1 (Hrange 3000 3010 (Hin 3000 ltac:(lia)) (Hin 3010 ltac:(lia))))|].
  exact (proj1 (Hrange 100 50 (Hin 100 ltac:(lia)) (Hin 50 ltac:(lia)))).
Defined.

(* ===================================================================== *)
(** * Further properties: the sort                                        *)
(* ===================================================================== *)

(** X5. The sort of [checkPortRange], in both files and on every list of
    results (empty, with equal ports): it indexes within the list, and
    returns the same results, whole, rearranged in ascending order of
    port. *)
Theorem X5_sort_permutes_and_orders (a : list PortResult) :
  (∃ out, MainGo_sort a = Some out ∧ out ≡ₚ a ∧ StronglySorted port_le out)
  ∧ (∃ out, Part000_sort a = Some out ∧ out ≡ₚ a ∧ StronglySorted port_le out).
Proof. split; [apply MainGo_sort_sorts|apply Part000_sort_sorts]. Qed.

(** X6. The outer loop of src/main.go runs one round more than that of the
    second copy, and that round compares nothing: the two sorts return the
    same list on every input. *)
Theorem X6_sorts_agree (a : list PortResult) : MainGo_sort a = Part000_sort a.
Proof. exact (sorts_agree a). Qed.

(** The inner loop swaps nothing when the entry at [i] has a least port. *)
Lemma inner_loop_from_least pre rest : ∀ x mid,
  Forall (port_le x) rest →
  for_each (compare_swap (length pre))
    (seq (S (length pre + length mid)) (length rest)) (pre ++ x :: mid ++ rest)
  = Some (pre ++ x :: mid ++ rest).
Proof.
  induction rest as [|y t IH]; intros x mid Hle; [done|].
  apply Forall_cons in Hle as [Hy Ht]. unfold port_le in Hy.
  simpl. rewrite compare_swap_middle.
  destruct (Z.ltb_spec (Port y) (Port x)); [lia|].
  specialize (IH x (mid ++ [y]) Ht). rewrite length_app in IH. simpl in IH.
  replace (length pre + (length mid + 1))%nat with (S (length pre + length mid)) in IH
    by lia.
  by rewrite <- !app_assoc in IH.
Qed.

(** The outer loop changes nothing on a list in ascending order. *)
Lemma outer_loop_sorted rest : ∀ pre c,
  StronglySorted port_le rest → (c ≤ length rest)%nat →
  for_each inner_loop (seq (length pre) c) (pre ++ rest) = Some (pre ++ rest).
Proof.
  induction rest as [|x t IH]; intros pre c Hsorted Hc.
  - simpl in Hc. by replace c with 0%nat by lia.
  - destruct c as [|c]; [done|]. simpl in Hc.
    apply StronglySorted_inv in Hsorted as [Ht Hx]. simpl.
    assert (inner_loop (length pre) (pre ++ x :: t) = Some (pre ++ x :: t)) as ->.
    { unfold inner_loop. rewrite length_app. simpl.
      replace (length pre + S (length t) - S (length pre))%nat with (length t) by lia.
      pose proof (inner_loop_from_least pre t x [] Hx) as Hloop. simpl in Hloop.
      by replace (length pre + 0)%nat with (length pre) in Hloop by lia. }
    specialize (IH (pre ++ [x]) c Ht ltac:(lia)).
    rewrite length_app in IH. simpl in IH.
    replace (length pre + 1)%nat with (S (length pre)) in IH by lia.
    by rewrite <- !app_assoc in IH.
Qed.

(** X7. On results already in ascending order of port the sort changes
    nothing, not even the order of results with equal ports; so sorting
    what the sort returned returns it again. Both files. *)
Theorem X7_sort_keeps_sorted (a : list PortResult) :
  (StronglySorted port_le a → MainGo_sort a = Some a ∧ Part000_sort a = Some a)
  ∧ (∀ out, MainGo_sort a = Some out → MainGo_sort out = Some out)
  ∧ (∀ out, Part000_sort a = Some out → Part000_sort out = Some out).
Proof.
  assert (∀ l, StronglySorted port_le l → MainGo_sort l = Some l) as Hmain.
  { intros l Hl. apply (outer_loop_sorted l [] (length l) Hl). lia. }
  assert (∀ l, StronglySorted port_le l → Part000_sort l = Some l) as Hpart.
  { intros l Hl. apply (outer_loop_sorted l [] (length l - 1)%nat Hl). lia. }
  split; [auto|]. split; intros out Hout.
  - apply Hmain. destruct (MainGo_sort_sorts a) as (out' & Hout' & _ & Hsorted).
    congruence.
  - apply Hpart. destruct (Part000_sort_sorts a) as (out' & Hout' & _ & Hsorted).
    congruence.
Qed.

(** X7, witness: three results in order, two of them of the same port. *)
Lemma X7_witness :
  MainGo_sort [ {| Port := 80; InUse := true; PID := 1; Process := "a" |};
                {| Port := 80; InUse := true; PID := 2; Process := "b" |};
                {| Port := 443; InUse := false; PID := 0; Process := "" |} ]
  = Some [ {| Port := 80; InUse := true; PID := 1; Process := "a" |};
           {| Port := 80; InUse := true; PID := 2; Process := "b" |};
           {| Port := 443; InUse := false; PID := 0; Process := "" |} ].
Proof.
  apply (proj1 (X7_sort_keeps_sorted _)).
  repeat constructor; unfold port_le; simpl; lia.
Defined.

(* ===================================================================== *)
(** * Further properties: the resolver                                    *)
(* ===================================================================== *)

(** ** A row belongs to one port *)

Lemma upper_hex_digit_code d :
  0 ≤ d < 16 →
  Z.of_N (N_of_ascii (upper_hex_digit d)) = if d <? 10 then 48 + d else 55 + d.
Proof.
  intros H.
  assert (d = 0 ∨ d = 1 ∨ d = 2 ∨ d = 3 ∨ d = 4 ∨ d = 5 ∨ d = 6 ∨ d = 7 ∨ d = 8
          ∨ d = 9 ∨ d = 10 ∨ d = 11 ∨ d = 12 ∨ d = 13 ∨ d = 14 ∨ d = 15) as Hd by lia.
  repeat (destruct Hd as [->|Hd]; [reflexivity|]). by subst.
Qed.

Lemma upper_hex_digit_inj d e :
  0 ≤ d < 16 → 0 ≤ e < 16 → upper_hex_digit d = upper_hex_digit e → d = e.
Proof.
  intros Hd He Heq.
  pose proof (upper_hex_digit_code d Hd) as Hcd.
  pose proof (upper_hex_digit_code e He) as Hce.
  rewrite Heq, Hce in Hcd.
  destruct (Z.ltb_spec d 10), (Z.ltb_spec e 10); lia.
Qed.

Lemma hex4_inj p q : 0 ≤ p ≤ 65535 → 0 ≤ q ≤ 65535 → hex4 p = hex4 q → p = q.
Proof.
  assert (∀ z, 0 ≤ z ≤ 65535 →
            z / 256 = z / 16 / 16 ∧ z / 4096 = z / 16 / 16 / 16
            ∧ 0 ≤ z / 16 / 16 / 16 < 16
            ∧ 0 ≤ z mod 16 < 16 ∧ 0 ≤ (z / 16) mod 16 < 16
            ∧ 0 ≤ (z / 16 / 16) mod 16 < 16
            ∧ z = 4096 * (z / 16 / 16 / 16) + 256 * ((z / 16 / 16) mod 16)
                  + 16 * ((z / 16) mod 16) + z mod 16) as Hdigits.
  { intros z Hz.
    split; [by rewrite Z.div_div by lia|].
    split; [by rewrite !Z.div_div by lia|].
    split.
    { rewrite !Z.div_div by lia. split; [apply Z.div_pos; lia|].
      apply Z.div_lt_upper_bound; lia. }
    pose proof (Z.mod_pos_bound z 16 ltac:(lia)).
    pose proof (Z.mod_pos_bound (z / 16) 16 ltac:(lia)).
    pose proof (Z.mod_pos_bound (z / 16 / 16) 16 ltac:(lia)).
    pose proof (Z.div_mod z 16 ltac:(lia)).
    pose proof (Z.div_mod (z / 16) 16 ltac:(lia)).
    pose proof (Z.div_mod (z / 16 / 16) 16 ltac:(lia)).
    assert ((z / 16 / 16 / 16) / 16 = 0) as Htop.
    { apply Z.div_small. rewrite !Z.div_div by lia.
      split; [apply Z.div_pos; lia|]. apply Z.div_lt_upper_bound; lia. }
    pose proof (Z.div_mod (z / 16 / 16 / 16) 16 ltac:(lia)) as Hlast.
    pose proof (Z.mod_pos_bound (z / 16 / 16 / 16) 16 ltac:(lia)).
    repeat split; lia. }
  intros Hp Hq. unfold hex4.
  destruct (Hdigits p Hp) as (-> & -> & Hp3 & Hp0 & Hp1 & Hp2 & Hpsum).
  destruct (Hdigits q Hq) as (-> & -> & Hq3 & Hq0 & Hq1 & Hq2 & Hqsum).
  intros [= E3 E2 E1 E0].
  apply upper_hex_digit_inj in E3, E2, E1, E0; lia.
Qed.

(** The port text a listening row was matched on. *)
Lemma listening_row_port portHex row inode :
  listening_row portHex row = Some inode →
  ∃ f1 addr, Fields row !! 1%nat = Some f1 ∧ Split f1 ":" = [addr; portHex].
Proof.
  unfold listening_row. cbv zeta.
  destruct (Fields row !! 1%nat) as [f1|]; [|done].
  destruct (Fields row !! 3%nat) as [f3|]; [|done].
  destruct (Fields row !! 9%nat) as [f9|]; [|done].
  destruct (Split f1 ":") as [|addr [|p1 [|? ?]]] eqn:Hsplit; try done.
  destruct (String.eqb_spec p1 portHex) as [->|]; [|done].
  intros _. by exists f1, addr.
Qed.

(** X8. Two ports of [0, 65535] are written differently by [%04X], so a row
    of a socket table is a listening row of one port at most: the search
    for a port is never answered from the row of another port. *)
Theorem X8_row_of_one_port (p q : Z) :
  0 ≤ p ≤ 65535 → 0 ≤ q ≤ 65535 →
  (Sprintf_04X p = Sprintf_04X q → p = q)
  ∧ ∀ row inode inode',
      listening_row (Sprintf_04X p) row = Some inode →
      listening_row (Sprintf_04X q) row = Some inode' →
      p = q.
Proof.
  intros Hp Hq.
  assert (Sprintf_04X p = Sprintf_04X q → p = q) as Hinj.
  { rewrite !Sprintf_04X_port by done. by apply hex4_inj. }
  split; [done|]. intros row inode inode' Hrow Hrow'.
  apply listening_row_port in Hrow as (f1 & addr & Hf1 & Hsplit).
  apply listening_row_port in Hrow' as (f1' & addr' & Hf1' & Hsplit').
  apply Hinj. congruence.
Qed.

(** X8, witness: the row of port 8080 is no listening row of port 8081. *)
Lemma X8_witness :
  listening_row (Sprintf_04X 8080) row_8080_inode_111 = Some "111"
  ∧ listening_row (Sprintf_04X 8081) row_8080_inode_111 = None.
Proof.
  split; [reflexivity|].
  destruct (listening_row (Sprintf_04X 8081) row_8080_inode_111) as [inode'|] eqn:Hrow;
    [|reflexivity].
  pose proof (proj2 (X8_row_of_one_port 8080 8081 ltac:(lia) ltac:(lia))
                row_8080_inode_111 "111" inode' eq_refl Hrow).
  discriminate.
Defined.

(** ** The entries of /proc *)

Lemma MainGo_scan_entries_skip socketLink pre e post :
  owner_entry socketLink e = None →
  MainGo.scan_entries socketLink (pre ++ e :: post)
  = MainGo.scan_entries socketLink (pre ++ post).
Proof.
  intros He. induction pre as [|e' pre IH].
  - change ([] ++ e :: post) with (e :: post).
    by rewrite MainGo_scan_entries_cons, He.
  - change ((e' :: pre) ++ e :: post) with (e' :: (pre ++ e :: post)).
    change ((e' :: pre) ++ post) with (e' :: (pre ++ post)).
    by rewrite !MainGo_scan_entries_cons, IH.
Qed.

Lemma Part000_scan_entries_skip socketLink pre e post :
  owner_entry socketLink e = None →
  Part000.scan_entries socketLink (pre ++ e :: post)
  = Part000.scan_entries socketLink (pre ++ post).
Proof.
  intros He. induction pre as [|e' pre IH].
  - change ([] ++ e :: post) with (e :: post).
    by rewrite Part000_scan_entries_cons, He.
  - change ((e' :: pre) ++ e :: post) with (e' :: (pre ++ e :: post)).
    change ((e' :: pre) ++ post) with (e' :: (pre ++ post)).
    by rewrite !Part000_scan_entries_cons, IH.
Qed.

(** X9. An entry of /proc whose name is no integer, whose descriptors
    cannot be listed, or none of whose descriptors reads as the link, is
    passed over wherever it stands in the listing: the search returns what
    it returns without the entry. Both files. *)
Theorem X9_proc_entry_passed_over (socketLink : string) (pre post : list ProcEntry)
    (e : ProcEntry) :
  Atoi (pe_name e) = None ∨ pe_fd e = None
  ∨ (∃ fds, pe_fd e = Some fds ∧ Some socketLink ∉ fds) →
  MainGo.scan_entries socketLink (pre ++ e :: post)
  = MainGo.scan_entries socketLink (pre ++ post)
  ∧ Part000.scan_entries socketLink (pre ++ e :: post)
    = Part000.scan_entries socketLink (pre ++ post).
Proof.
  intros He. assert (owner_entry socketLink e = None) as Hnone.
  { destruct (owner_entry socketLink e) as [pid|] eqn:Howner; [|done].
    apply owner_entry_spec in Howner as (Hname & fds & Hfd & Hin).
    destruct He as [?|[?|(fds' & ? & ?)]]; congruence. }
  split; [by apply MainGo_scan_entries_skip|by apply Part000_scan_entries_skip].
Qed.

(** X9, witness: the process of another user, before the owner. *)
Lemma X9_witness :
  MainGo.scan_entries "socket:[222]"
    [ proc_entry_denied "50" ("other" +:+ newline);
      proc_entry "77" [Some "socket:[222]"] ("v6proc" +:+ newline) ]
  = MainGo.scan_entries "socket:[222]"
      [ proc_entry "77" [Some "socket:[222]"] ("v6proc" +:+ newline) ].
Proof.
  apply (proj1 (X9_proc_entry_passed_over "socket:[222]" []
                  [proc_entry "77" [Some "socket:[222]"] ("v6proc" +:+ newline)]
                  (proc_entry_denied "50" ("other" +:+ newline))
                  (or_intror (or_introl eq_refl)))).
Defined.

(** A listing has no owner of the link, or a first one. *)
Lemma first_owner_or_none socketLink entries :
  Forall (λ e, owner_entry socketLink e = None) entries
  ∨ ∃ before e after pid,
      entries = before ++ e :: after
      ∧ Forall (λ e', owner_entry socketLink e' = None) before
      ∧ owner_entry socketLink e = Some pid.
Proof.
  induction entries as [|e entries IH]; [by left|].
  destruct (owner_entry socketLink e) as [pid|] eqn:He.
  - right. exists [], e, entries, pid. auto.
  - destruct IH as [Hnone|(before & e' & after & pid & -> & Hbefore & He')].
    + left. by constructor.
    + right. exists (e :: before), e', after, pid. split; [done|].
      split; [by constructor|done].
Qed.

Lemma MainGo_scan_entries_none socketLink entries :
  Forall (λ e, owner_entry socketLink e = None) entries →
  MainGo.scan_entries socketLink entries = (0, "").
Proof.
  induction 1 as [|e entries He _ IH]; [done|].
  by rewrite MainGo_scan_entries_cons, He.
Qed.

Lemma Part000_scan_entries_none socketLink entries :
  Forall (λ e, owner_entry socketLink e = None) entries →
  Part000.scan_entries socketLink entries = (0, "").
Proof.
  induction 1 as [|e entries He _ IH]; [done|].
  by rewrite Part000_scan_entries_cons, He.
Qed.

(** X10. [findPIDByInode], in full. When /proc cannot be opened it returns
    (0, ""). Otherwise the listing has no owner of the link and it returns
    (0, ""), or it has a first owner and src/main.go returns its pid with
    the trimmed bytes read of its comm file, whatever [Readdirnames] and
    [ReadFile] report; the second copy returns (0, "") when [Readdirnames]
    reports an error, and else the pid with "unknown" when the comm file
    reports an error and with the trimmed bytes when it does not. *)
Theorem X10_findPIDByInode_first_owner (fs : FS) (inode : string) :
  (proc_open_err fs = true →
   MainGo.findPIDByInode fs inode = (0, "")
   ∧ Part000.findPIDByInode fs inode = (0, ""))
  ∧ (proc_open_err fs = false →
     (Forall (λ e, owner_entry ("socket:[" +:+ inode +:+ "]") e = None) (proc_names fs)
      ∧ MainGo.findPIDByInode fs inode = (0, "")
      ∧ Part000.findPIDByInode fs inode = (0, ""))
     ∨ ∃ e pid,
         first_owner fs ("socket:[" +:+ inode +:+ "]") e pid
         ∧ MainGo.findPIDByInode fs inode = (pid, TrimSpace (pe_comm e))
         ∧ Part000.findPIDByInode fs inode
           = if proc_names_err fs then (0, "")
             else if pe_comm_err e then (pid, "unknown")
             else (pid, TrimSpace (pe_comm e))).
Proof.
  unfold MainGo.findPIDByInode, Part000.findPIDByInode. split.
  - by intros ->.
  - intros ->.
    destruct (first_owner_or_none ("socket:[" +:+ inode +:+ "]") (proc_names fs))
      as [Hnone|(before & e & after & pid & Hnames & Hbefore & He)].
    + left. split; [done|].
      rewrite MainGo_scan_entries_none, Part000_scan_entries_none by done.
      by destruct (proc_names_err fs).
    + right. exists e, pid. split; [by exists before, after|].
      rewrite Hnames.
      rewrite (MainGo_scan_entries_first _ _ _ _ pid) by done.
      by rewrite (Part000_scan_entries_first _ _ _ _ pid) by done.
Qed.

(** X10, witness: [fs_forked], whose /proc can be opened. *)
Lemma X10_witness :
  proc_open_err fs_forked = false
  ∧ ((Forall (λ e, owner_entry ("socket:[" +:+ "111" +:+ "]") e = None)
        (proc_names fs_forked)
      ∧ MainGo.findPIDByInode fs_forked "111" = (0, "")
      ∧ Part000.findPIDByInode fs_forked "111" = (0, ""))
     ∨ ∃ e pid,
         first_owner fs_forked ("socket:[" +:+ "111" +:+ "]") e pid
         ∧ MainGo.findPIDByInode fs_forked "111" = (pid, TrimSpace (pe_comm e))
         ∧ Part000.findPIDByInode fs_forked "111"
           = if proc_names_err fs_forked then (0, "")
             else if pe_comm_err e then (pid, "unknown")
             else (pid, TrimSpace (pe_comm e))).
Proof.
  split; [reflexivity|].
  apply (proj2 (X10_findPIDByInode_first_owner fs_forked "111")). reflexivity.
Defined.

(** ** What a resolution returns *)

Lemma Part000_findProcessByPort_cases fs port r4 r6 :
  Part000.searchNetFile fs "/proc/net/tcp" port = Some r4 →
  Part000.searchNetFile fs "/proc/net/tcp6" port = Some r6 →
  Part000.findProcessByPort fs port
  = Some (if 0 <? r4.1 then r4 else if 0 <? r6.1 then r6 else (0, "")).
Proof.
  intros H4 H6. unfold Part000.findProcessByPort. simpl. rewrite H4. simpl.
  destruct (0 <? r4.1); [done|]. rewrite H6. simpl. by destruct (0 <? r6.1).
Qed.

(** X11. [findProcessByPort], in both files, returns a positive pid, or
    the pair (0, ""): whatever the tables and /proc hold (an entry named
    0, a negative number), no name is returned without a positive pid and
    no pid below 1 reaches [printResult]. *)
Theorem X11_resolution_positive_or_nothing (fs : FS) (port : Z) :
  (∃ pid name, MainGo.findProcessByPort fs port = Some (pid, name)
               ∧ (0 < pid ∨ (pid = 0 ∧ name = "")))
  ∧ (∃ pid name, Part000.findProcessByPort fs port = Some (pid, name)
                 ∧ (0 < pid ∨ (pid = 0 ∧ name = ""))).
Proof.
  split.
  - destruct (MainGo_findProcessByPort_total fs port) as [[pid name] Hres].
    exists pid, name. split; [done|].
    by apply (MainGo_findProcessByPort_result fs port).
  - destruct (Part000_searchNetFile_total fs "/proc/net/tcp" port) as [[p4 n4] H4].
    destruct (Part000_searchNetFile_total fs "/proc/net/tcp6" port) as [[p6 n6] H6].
    rewrite (Part000_findProcessByPort_cases _ _ _ _ H4 H6). simpl.
    destruct (Z.ltb_spec 0 p4); [eauto|].
    destruct (Z.ltb_spec 0 p6); eauto 6.
Qed.

(* ===================================================================== *)
(** * Further properties: the range scan                                  *)
(* ===================================================================== *)

Lemma sent_ports_length l : length (sent_ports l) = count_pc past_send l.
Proof.
  induction l as [|t l IH]; simpl; [done|].
  destruct (past_send (t_pc t)); simpl; by rewrite IH.
Qed.

Lemma count_pc_lt_length f l k t :
  l !! k = Some t → f (t_pc t) = false → (count_pc f l < length l)%nat.
Proof.
  assert (∀ l', count_pc f l' ≤ length l')%nat as Hle.
  { induction l' as [|t' l' IH]; simpl; [done|]. destruct (f (t_pc t')); lia. }
  intros Hk Hf. destruct (insert_split l k t t Hk) as (l1 & l2 & -> & _).
  rewrite count_pc_app, length_app. simpl. rewrite Hf.
  pose proof (Hle l1). pose proof (Hle l2). lia.
Qed.

Lemma count_not_exited_Forall l :
  count_pc not_exited l = 0%nat → Forall (λ t, t_pc t = Exited) l.
Proof.
  induction l as [|[p pc] l IH]; simpl; [constructor|].
  destruct pc; simpl; try lia. intros H. constructor; [done|by apply IH].
Qed.

(** ** The report *)

Lemma int_add_1 k : 0 ≤ k → k + 1 ≤ max_int → int_add k 1 = k + 1.
Proof.
  unfold max_int. intros ? ?. unfold int_add, wrap64.
  rewrite Z.mod_small by lia. lia.
Qed.

Lemma report_loop_spec rs : ∀ k,
  0 ≤ k → k + Z.of_nat (length rs) ≤ max_int →
  report_loop rs k
  = (k + Z.of_nat (length (filter (λ r, InUse r = true) rs)),
     filter (λ r, InUse r = true) rs).
Proof.
  induction rs as [|r rs IH]; intros k Hk Hmax; cbn [report_loop].
  - f_equal. simpl. lia.
  - simpl length in Hmax. destruct (InUse r) eqn:Hr.
    + rewrite filter_cons_True by done. rewrite int_add_1 by lia.
      rewrite IH by lia. f_equal. simpl length. lia.
    + rewrite filter_cons_False by congruence. apply IH; lia.
Qed.

Lemma filter_InUse_length rs :
  (length (filter (λ r, InUse r = true) rs)
   + length (filter (λ r, InUse r = false) rs))%nat = length rs.
Proof.
  induction rs as [|r rs IH]; [done|]. destruct (InUse r) eqn:Hr.
  - rewrite filter_cons_True, filter_cons_False by congruence. simpl. lia.
  - rewrite filter_cons_False, filter_cons_True by congruence. simpl. lia.
Qed.

Lemma report_spec rs :
  Z.of_nat (length rs) ≤ max_int →
  report rs
  = (filter (λ r, InUse r = true) rs,
     {| scanned := Z.of_nat (length rs);
        in_use := Z.of_nat (length (filter (λ r, InUse r = true) rs));
        available := Z.of_nat (length (filter (λ r, InUse r = false) rs)) |}).
Proof.
  intros Hmax. unfold report. rewrite report_loop_spec by lia.
  pose proof (filter_InUse_length rs) as Hlen.
  rewrite Z.add_0_l. f_equal. f_equal.
  unfold max_int in Hmax. unfold int_sub, wrap64.
  rewrite Z.mod_small by lia. lia.
Qed.

(** The ports of the results in use are the ports on which the bind
    fails. *)
Lemma filter_InUse_ports n out :
  Forall (λ r, InUse r = bind_fails n (Port r)) out →
  Port <$> filter (λ r, InUse r = true) out
  = filter (λ p, bind_fails n p = true) (Port <$> out).
Proof.
  induction 1 as [|r out Hr _ IH]; [done|]. rewrite fmap_cons.
  destruct (InUse r) eqn:Hin.
  - rewrite !filter_cons_True by congruence. by rewrite fmap_cons, IH.
  - rewrite !filter_cons_False by congruence. done.
Qed.

Section ScanFacts.

Variable checkPort : Net → FS → Z → bool → option (PortResult * Net).
Variables (start end_ : Z) (showPID : bool).

Hypothesis checkPort_returns :
  ∀ n fs port getPID, ∃ r, checkPort n fs port getPID = Some (r, n) ∧ Port r = port.
Hypothesis valid_range : 1 ≤ start ≤ end_ ≤ 65535.

Lemma checkPortRange_scan_inv evs s :
  checkPortRange checkPort start end_ showPID evs = Next s → scan_inv start end_ s.
Proof.
  unfold checkPortRange. destruct (init start end_) as [s0|] eqn:Hinit; [|done].
  intros Hrun.
  eapply run_scan_inv; [exact checkPort_returns|exact valid_range| |exact Hrun].
  by apply init_scan_inv.
Qed.

Lemma checkPortRange_no_panic evs :
  checkPortRange checkPort start end_ showPID evs ≠ Panicked.
Proof.
  unfold checkPortRange. destruct (init start end_) as [s0|] eqn:Hinit.
  - eapply run_no_panic; [exact checkPort_returns|exact valid_range|].
    by apply init_scan_inv.
  - unfold init in Hinit. rewrite results_cap_valid in Hinit by done.
    destruct (Z.ltb_spec (end_ - start + 1) 0); [lia|done].
Qed.

Lemma tasks_length s :
  scan_inv start end_ s → Z.of_nat (length (tasks s)) = next_port end_ s - start.
Proof.
  intros Hinv. pose proof (inv_next _ _ _ Hinv).
  rewrite <- (length_fmap t_port), (inv_ports _ _ _ Hinv), length_seqZ. lia.
Qed.

(** ** Only the acquire waits *)

Lemma scan_only_acquire_waits s :
  scan_inv start end_ s → only_acquire_waits checkPort start end_ showPID s.
Proof.
  intros Hinv k [p pc] n fs Hk.
  pose proof (step_no_panic checkPort start end_ showPID checkPort_returns
                (RunTask k n fs) s Hinv) as Hnp.
  pose proof (tasks_length s Hinv) as Hlen.
  destruct Hinv as [Hnext Hports [Hsem Hcap] Hwg Hres Hok Hctl Hfin].
  simpl in *. unfold step_task in *. rewrite Hk in *. simpl in *.
  destruct pc as [| |r| | |].
  - rewrite <- Hsem. case_bool_decide as Hfull.
    + rewrite Hfull. by rewrite Nat.ltb_irrefl.
    + destruct (Nat.ltb_spec (sem s) sem_cap); [eauto|lia].
  - destruct (checkPort_returns n fs p showPID) as (r & -> & _). eauto.
  - destruct (results_closed s); [done|].
    rewrite results_cap_valid by done.
    destruct (Z.ltb_spec (Z.of_nat (length (results s))) (end_ - start + 1))
      as [?|Hfull]; [eauto|].
    apply Permutation_length in Hres.
    rewrite length_fmap, length_app, sent_ports_length in Hres.
    pose proof (count_pc_lt_length past_send _ _ _ Hk eq_refl). lia.
  - pose proof (count_pc_lookup holds_slot _ _ _ Hk eq_refl).
    destruct (sem s); [lia|eauto].
  - destruct (wg s <=? 0); [done|eauto].
  - done.
Qed.

(** ** The channel is closed after the last goroutine *)

Lemma closed_all_returned s :
  scan_inv start end_ s →
  (results_closed s = true → all_returned start end_ s)
  ∧ (main_pc s = Finished → results_closed s = true ∧ results s = []).
Proof.
  intros [Hnext Hports [Hsem Hcap] Hwg Hres Hok Hctl Hfin]. split.
  - intros Hclosed. unfold next_port in *.
    destruct (closer_pc s);
      try (destruct Hctl as (_ & ? & _); congruence);
      try (destruct Hctl as (_ & ?); congruence).
    destruct Hctl as (Hmain & _ & Hz).
    assert (count_pc not_exited (tasks s) = 0%nat) as Hnone by lia.
    assert (seqZ start (match main_pc s with Spawning p => p | _ => end_ + 1 end - start)
            = seqZ start (end_ - start + 1)) as Hall.
    { destruct Hmain as [->| ->]; f_equal; lia. }
    rewrite Hall in Hports.
    split; [done|]. split; [by apply count_not_exited_Forall|].
    split.
    { pose proof (count_pc_le holds_slot not_exited (tasks s)) as Hle.
      assert (count_pc holds_slot (tasks s) ≤ count_pc not_exited (tasks s))%nat
        by (apply Hle; by intros []).
      lia. }
    split; [done|]. by rewrite Hres, count_not_exited_0, Hports.
  - intros Hmain. split; [|by apply Hfin]. rewrite Hmain in Hctl.
    destruct (closer_pc s); try (by destruct Hctl as [[? ?] _]);
      try (by destruct Hctl as [? _]).
    by destruct Hctl as (_ & ? & _).
Qed.

(** ** On a host that does not change *)

Variables (n : Net) (fs : FS).

Lemma step_probes_inv ev s s' :
  match ev with RunTask _ n' fs' => n' = n ∧ fs' = fs | _ => True end →
  probes_inv checkPort n fs showPID s →
  step checkPort start end_ showPID ev s = Next s' →
  probes_inv checkPort n fs showPID s'.
Proof.
  intros Hev [Hres Htasks] Hstep. unfold probes_inv.
  destruct ev as [| |k n' fs']; simpl in Hstep.
  - unfold step_main in Hstep. destruct (main_pc s) as [p| |]; [| |done].
    + destruct (p <=? end_); injection Hstep as <-; simpl; [|done].
      split; [done|]. apply Forall_app. split; [done|]. by repeat constructor.
    + destruct (results s) as [|r buf] eqn:Hbuf.
      * destruct (results_closed s); [|done]. by injection Hstep as <-.
      * injection Hstep as <-. simpl. by rewrite <- app_assoc.
  - unfold step_closer in Hstep. destruct (closer_pc s); [done| | |done].
    + destruct (wg s =? 0); [|done]. by injection Hstep as <-.
    + destruct (results_closed s); [done|]. by injection Hstep as <-.
  - destruct Hev as [-> ->].
    apply step_task_Next in Hstep
      as (l1 & p & pc & l2 & pc' & Ht & Ht' & _ & _ & _ & Hpr & Hmove).
    rewrite Ht', Hpr. rewrite Ht in Htasks.
    apply Forall_app in Htasks as [Ht1 Ht2].
    apply Forall_cons in Ht2 as [Htk Ht2]. simpl in Htk.
    task_moves Hmove; rewrite Hres'.
    + split; [done|]. apply Forall_app. split; [done|]. by constructor.
    + split; [done|]. apply Forall_app. split; [done|]. constructor; [|done].
      simpl. destruct (checkPort_returns n fs p showPID) as (r0 & Hr0 & Hp).
      unfold probe_of. rewrite Hr0 in Hprobe. injection Hprobe as <- <-.
      by rewrite Hp.
    + split.
      * rewrite app_assoc. apply Forall_app. split; [done|]. by repeat constructor.
      * apply Forall_app. split; [done|]. by constructor.
    + split; [done|]. apply Forall_app. split; [done|]. by constructor.
    + split; [done|]. apply Forall_app. split; [done|]. by constructor.
Qed.

Lemma run_probes_inv evs : ∀ s s',
  steady n fs evs →
  probes_inv checkPort n fs showPID s →
  run checkPort start end_ showPID evs s = Next s' →
  probes_inv checkPort n fs showPID s'.
Proof.
  induction evs as [|ev evs IH]; intros s s' Hsteady Hinv; simpl.
  - by intros [= <-].
  - apply Forall_cons in Hsteady as [Hev Hsteady].
    destruct (step checkPort start end_ showPID ev s) as [s1| |] eqn:Hstep;
      [|done|done].
    apply IH; [done|]. by eapply step_probes_inv.
Qed.

Lemma checkPortRange_probes_inv evs s :
  steady n fs evs →
  checkPortRange checkPort start end_ showPID evs = Next s →
  probes_inv checkPort n fs showPID s.
Proof.
  unfold checkPortRange, init. destruct (results_cap start end_ <? 0); [done|].
  intros Hsteady. apply run_probes_inv; [done|]. split; simpl; constructor.
Qed.

(** Results that are the probes of their ports are the ports probed one
    after the other. *)
Lemma probe_each_of out :
  Forall (probe_of checkPort n fs showPID) out →
  probe_each checkPort n fs showPID (Port <$> out) = Some (out, n).
Proof.
  induction 1 as [|r out Hr _ IH]; [done|].
  rewrite fmap_cons. cbn [probe_each]. unfold probe_of in Hr. by rewrite Hr, IH.
Qed.

(** The scan of a valid range on a host that does not change, once over:
    its sorted results are those of the ports probed in order. *)
Lemma scan_sequential (sort : list PortResult → option (list PortResult)) evs s :
  (∀ a, ∃ out, sort a = Some out ∧ out ≡ₚ a ∧ StronglySorted port_le out) →
  steady n fs evs →
  checkPortRange checkPort start end_ showPID evs = Next s →
  main_pc s = Finished →
  ∃ out, sort (portResults s) = Some out
         ∧ Port <$> out = seqZ start (end_ - start + 1)
         ∧ Forall (probe_of checkPort n fs showPID) out
         ∧ probe_each checkPort n fs showPID (seqZ start (end_ - start + 1))
           = Some (out, n).
Proof.
  intros Hsort Hsteady Hrun Hmain.
  pose proof (checkPortRange_scan_inv _ _ Hrun) as Hinv.
  pose proof (checkPortRange_probes_inv _ _ Hsteady Hrun) as [Hprobes _].
  destruct (Hsort (portResults s)) as (out & Hout & Hperm & Hsorted).
  exists out. split; [done|].
  assert (Port <$> out = seqZ start (end_ - start + 1)) as Hports.
  { apply (sorted_interval start end_ out); [|done]. rewrite Hperm.
    by apply finished_results. }
  assert (Forall (probe_of checkPort n fs showPID) out) as Hout_probes.
  { rewrite Forall_forall. intros r Hr. rewrite Hperm in Hr.
    rewrite Forall_forall in Hprobes. apply Hprobes.
    apply elem_of_app. by left. }
  split; [done|]. split; [done|]. rewrite <- Hports. by apply probe_each_of.
Qed.

(** Whatever the schedule did, the scan can be run to its end by probes
    that see the host [(n, fs)]. *)
Lemma progress_on s :
  scan_inv start end_ s → main_pc s ≠ Finished →
  ∃ ev s', steady n fs [ev] ∧ step checkPort start end_ showPID ev s = Next s'.
Proof.
  intros Hinv Hmain.
  destruct (progress checkPort start end_ showPID checkPort_returns valid_range
              s Hinv Hmain) as (ev & s1 & Hstep).
  destruct ev as [| |k n0 fs0].
  - exists RunMain, s1. split; [by repeat constructor|done].
  - exists RunCloser, s1. split; [by repeat constructor|done].
  - simpl in Hstep. unfold step_task in Hstep.
    destruct (tasks s !! k) as [[p pc]|] eqn:Hk; [|done].
    pose proof (scan_only_acquire_waits s Hinv k _ n fs Hk) as Hwait.
    pose proof (scan_only_acquire_waits s Hinv k _ n0 fs0 Hk) as Hwait0.
    simpl in Hstep, Hwait, Hwait0. unfold step_task in Hwait0.
    rewrite Hk in Hwait0. simpl in Hwait0.
    assert (∃ s', step_task checkPort start end_ showPID k n fs s = Next s')
      as [s' Hs'].
    { destruct pc as [| |r| | |]; try done.
      case_bool_decide; [|done]. rewrite Hwait0 in Hstep. done. }
    exists (RunTask k n fs), s'. split; [by repeat constructor|done].
Qed.

Lemma main_pc_Finished_dec s : main_pc s = Finished ∨ main_pc s ≠ Finished.
Proof. destruct (main_pc s); auto. Qed.

Lemma completes_on (m : nat) : ∀ s,
  scan_inv start end_ s → steps_left end_ s ≤ Z.of_nat m →
  ∃ evs s', steady n fs evs
            ∧ run checkPort start end_ showPID evs s = Next s'
            ∧ main_pc s' = Finished.
Proof.
  induction m as [|m IH]; intros s Hinv Hm.
  - exists [], s. split; [constructor|]. split; [done|].
    destruct (main_pc_Finished_dec s) as [|Hne]; [done|].
    destruct (progress_on s Hinv Hne) as (ev & s1 & _ & Hstep).
    pose proof (step_steps_left checkPort start end_ showPID valid_range
                  _ _ _ Hinv Hstep).
    pose proof (steps_left_nonneg start end_ _
                  (step_scan_inv checkPort start end_ showPID checkPort_returns
                     valid_range _ _ _ Hinv Hstep)).
    lia.
  - destruct (main_pc_Finished_dec s) as [|Hne].
    { exists [], s. split; [constructor|done]. }
    destruct (progress_on s Hinv Hne) as (ev & s1 & Hev & Hstep).
    pose proof (step_steps_left checkPort start end_ showPID valid_range
                  _ _ _ Hinv Hstep).
    destruct (IH s1) as (evs & s' & Hsteady & Hrun & Hfin).
    { by eapply step_scan_inv. }
    { lia. }
    exists (ev :: evs), s'. split.
    { apply Forall_cons. split; [|done]. by apply Forall_cons in Hev as [? _]. }
    simpl. by rewrite Hstep.
Qed.

Lemma scan_completes_on evs s :
  checkPortRange checkPort start end_ showPID evs = Next s →
  ∃ evs' s', steady n fs evs'
             ∧ checkPortRange checkPort start end_ showPID (evs ++ evs') = Next s'
             ∧ main_pc s' = Finished.
Proof.
  intros Hrun. pose proof (checkPortRange_scan_inv _ _ Hrun) as Hinv.
  destruct (completes_on (Z.to_nat (steps_left end_ s)) s Hinv)
    as (evs' & s' & Hsteady & Hrun' & Hfin).
  { pose proof (steps_left_nonneg start end_ _ Hinv). lia. }
  exists evs', s'. split; [done|]. split; [|done].
  unfold checkPortRange in *. destruct (init start end_); [|done].
  by rewrite run_app, Hrun.
Qed.

(** ** The summary of a scan *)

Hypothesis checkPort_InUse :
  ∀ n fs port getPID r n',
    checkPort n fs port getPID = Some (r, n') → InUse r = bind_fails n port.

Lemma scan_summary (sort : list PortResult → option (list PortResult)) evs s :
  (∀ a, ∃ out, sort a = Some out ∧ out ≡ₚ a ∧ StronglySorted port_le out) →
  steady n fs evs →
  checkPortRange checkPort start end_ showPID evs = Next s →
  main_pc s = Finished →
  ∃ out printed,
    sort (portResults s) = Some out
    ∧ report out
      = (printed,
         {| scanned := end_ - start + 1;
            in_use := Z.of_nat (length printed);
            available := end_ - start + 1 - Z.of_nat (length printed) |})
    ∧ Port <$> printed
      = filter (λ p, bind_fails n p = true) (seqZ start (end_ - start + 1))
    ∧ Forall (λ r, InUse r = true ∧ probe_of checkPort n fs showPID r) printed.
Proof.
  intros Hsort Hsteady Hrun Hmain.
  destruct (scan_sequential sort evs s Hsort Hsteady Hrun Hmain)
    as (out & Hout & Hports & Hprobes & _).
  assert (Z.of_nat (length out) = end_ - start + 1) as Hlen.
  { rewrite <- (length_fmap Port), Hports, length_seqZ. lia. }
  exists out, (filter (λ r, InUse r = true) out). split; [done|].
  split; [|split].
  - rewrite report_spec by (unfold max_int; lia).
    pose proof (filter_InUse_length out). f_equal. f_equal; lia.
  - rewrite <- Hports. apply filter_InUse_ports.
    eapply Forall_impl; [exact Hprobes|]. intros r Hr. by eapply checkPort_InUse.
  - rewrite Forall_forall. intros r Hr. apply list_elem_of_filter in Hr as [? Hr].
    split; [done|]. rewrite Forall_forall in Hprobes. by apply Hprobes.
Qed.

End ScanFacts.

(** X12. In every state of a scan of a valid range, under every schedule,
    a probe goroutine waits only for a slot: one that has not returned
    takes its step whenever it is run, except before the acquire when the
    100 slots are taken. The send of a result never waits (the channel
    has room for the result of every port) and never finds the channel
    closed, and the release never finds the semaphore empty. Both files. *)
Theorem X12_only_acquire_waits (start end_ : Z) (showPID : bool) (evs : list Event) :
  1 ≤ start ≤ end_ ≤ 65535 →
  (∀ s, MainGo_checkPortRange start end_ showPID evs = Next s →
        only_acquire_waits MainGo.checkPort start end_ showPID s)
  ∧ (∀ s, Part000_checkPortRange start end_ showPID evs = Next s →
          only_acquire_waits Part000.checkPort start end_ showPID s).
Proof.
  intros Hvalid. split; intros s Hrun.
  - apply (scan_only_acquire_waits MainGo.checkPort start end_ showPID
             MainGo_checkPort_frame Hvalid).
    by apply (checkPortRange_scan_inv MainGo.checkPort start end_ showPID
                 MainGo_checkPort_frame Hvalid evs).
  - apply (scan_only_acquire_waits Part000.checkPort start end_ showPID
             Part000_checkPort_frame Hvalid).
    by apply (checkPortRange_scan_inv Part000.checkPort start end_ showPID
                 Part000_checkPort_frame Hvalid evs).
Qed.

(** X12, witness: 150 goroutines of which the first 100 hold a slot; the
    goroutine of port 101 waits, the goroutine of port 1 takes its step. *)
Lemma X12_witness :
  ∃ s, MainGo_checkPortRange 1 150 false (sched_fill 100) = Next s
       ∧ step MainGo.checkPort 1 150 false (RunTask 100 (net_with []) fs_unreadable) s
         = Blocked
       ∧ ∃ s', step MainGo.checkPort 1 150 false
                 (RunTask 0 (net_with []) fs_unreadable) s = Next s'.
Proof.
  assert (∃ s, MainGo_checkPortRange 1 150 false (sched_fill 100) = Next s
               ∧ tasks s !! 100%nat = Some {| t_port := 101; t_pc := AtAcquire |}
               ∧ tasks s !! 0%nat = Some {| t_port := 1; t_pc := InCheckPort |}
               ∧ bool_decide (count_pc holds_slot (tasks s) = sem_cap) = true)
    as (s & Hrun & H100 & H0 & Hfull).
  { vm_compute. eexists. split; [reflexivity|]. repeat split; reflexivity. }
  pose proof (proj1 (X12_only_acquire_waits 1 150 false (sched_fill 100) ltac:(lia))
                s Hrun) as Hwait.
  exists s. split; [exact Hrun|]. split.
  - pose proof (Hwait 100%nat _ (net_with []) fs_unreadable H100) as H.
    simpl in H. rewrite Hfull in H. exact H.
  - exact (Hwait 0%nat _ (net_with []) fs_unreadable H0).
Defined.

(** X13. In every state of a scan of a valid range, under every schedule:
    when the channel of results is closed, the goroutines of all the ports
    of the range were started and have returned, no slot is held, the
    counter of the WaitGroup is zero and the results collected or still in
    the channel are one per port; and the caller is past its collecting
    loop only with the channel closed and empty. Both files. *)
Theorem X13_closed_after_the_last_result (start end_ : Z) (showPID : bool)
    (evs : list Event) :
  1 ≤ start ≤ end_ ≤ 65535 →
  (∀ s, MainGo_checkPortRange start end_ showPID evs = Next s →
        (results_closed s = true → all_returned start end_ s)
        ∧ (main_pc s = Finished → results_closed s = true ∧ results s = []))
  ∧ (∀ s, Part000_checkPortRange start end_ showPID evs = Next s →
          (results_closed s = true → all_returned start end_ s)
          ∧ (main_pc s = Finished → results_closed s = true ∧ results s = [])).
Proof.
  intros Hvalid. split; intros s Hrun.
  - apply closed_all_returned.
    by apply (checkPortRange_scan_inv MainGo.checkPort start end_ showPID
                 MainGo_checkPort_frame Hvalid evs).
  - apply closed_all_returned.
    by apply (checkPortRange_scan_inv Part000.checkPort start end_ showPID
                 Part000_checkPort_frame Hvalid evs).
Qed.

(** X13, witness: the scan of ports 3000 to 3002 at its end. *)
Lemma X13_witness :
  ∃ s, MainGo_checkPortRange 3000 3002 true sched_3000_3002 = Next s
       ∧ results_closed s = true
       ∧ all_returned 3000 3002 s.
Proof.
  assert (∃ s, MainGo_checkPortRange 3000 3002 true sched_3000_3002 = Next s
               ∧ main_pc s = Finished) as (s & Hrun & Hfin).
  { vm_compute. eexists. split; reflexivity. }
  destruct (proj1 (X13_closed_after_the_last_result 3000 3002 true sched_3000_3002
                     ltac:(lia)) s Hrun) as [Hall Hclosed].
  exists s. split; [exact Hrun|]. split; [exact (proj1 (Hclosed Hfin))|].
  exact (Hall (proj1 (Hclosed Hfin))).
Defined.

(** X14. On a host that does not change during the scan (every probe sees
    the same ports and the same /proc), the scan of a valid range returns,
    under every schedule, what the probes of the ports made one after the
    other in ascending order return; and whatever the schedule did so far,
    the scan can be run to its end on that host. Both files. *)
Theorem X14_scan_is_probes_in_order (start end_ : Z) (showPID : bool)
    (n : Net) (fs : FS) :
  1 ≤ start ≤ end_ ≤ 65535 →
  (∀ evs s,
     steady n fs evs →
     MainGo_checkPortRange start end_ showPID evs = Next s →
     (main_pc s = Finished →
      ∃ out, MainGo_sort (portResults s) = Some out
             ∧ probe_each MainGo.checkPort n fs showPID
                 (seqZ start (end_ - start + 1)) = Some (out, n))
     ∧ ∃ evs' s', steady n fs evs'
                  ∧ MainGo_checkPortRange start end_ showPID (evs ++ evs') = Next s'
                  ∧ main_pc s' = Finished)
  ∧ (∀ evs s,
       steady n fs evs →
       Part000_checkPortRange start end_ showPID evs = Next s →
       (main_pc s = Finished →
        ∃ out, Part000_sort (portResults s) = Some out
               ∧ probe_each Part000.checkPort n fs showPID
                   (seqZ start (end_ - start + 1)) = Some (out, n))
       ∧ ∃ evs' s', steady n fs evs'
                    ∧ Part000_checkPortRange start end_ showPID (evs ++ evs') = Next s'
                    ∧ main_pc s' = Finished).
Proof.
  intros Hvalid. split; intros evs s Hsteady Hrun; split.
  - intros Hfin.
    destruct (scan_sequential MainGo.checkPort start end_ showPID MainGo_checkPort_frame Hvalid n fs
                MainGo_sort evs s MainGo_sort_sorts Hsteady Hrun Hfin)
      as (out & ? & _ & _ & ?).
    by exists out.
  - by apply (scan_completes_on MainGo.checkPort start end_ showPID MainGo_checkPort_frame Hvalid n fs evs s).
  - intros Hfin.
    destruct (scan_sequential Part000.checkPort start end_ showPID Part000_checkPort_frame Hvalid n fs
                Part000_sort evs s Part000_sort_sorts Hsteady Hrun Hfin)
      as (out & ? & _ & _ & ?).
    by exists out.
  - by apply (scan_completes_on Part000.checkPort start end_ showPID Part000_checkPort_frame Hvalid n fs evs s).
Qed.

Lemma steady_3000_3002 : steady host_3001 fs_unreadable sched_3000_3002.
Proof. unfold steady, sched_3000_3002, host_3001. by repeat constructor. Qed.

(** X14, witness: ports 3000 to 3002 with the probes completing in the
    order 3002, 3000, 3001. *)
Lemma X14_witness :
  ∃ s out,
    MainGo_checkPortRange 3000 3002 true sched_3000_3002 = Next s
    ∧ Port <$> portResults s = [3002; 3000; 3001]
    ∧ MainGo_sort (portResults s) = Some out
    ∧ probe_each MainGo.checkPort host_3001 fs_unreadable true [3000; 3001; 3002]
      = Some (out, host_3001).
Proof.
  assert (∃ s, MainGo_checkPortRange 3000 3002 true sched_3000_3002 = Next s
               ∧ main_pc s = Finished
               ∧ Port <$> portResults s = [3002; 3000; 3001])
    as (s & Hrun & Hfin & Hports).
  { vm_compute. eexists. split; [reflexivity|]. split; reflexivity. }
  destruct (proj1 (X14_scan_is_probes_in_order 3000 3002 true host_3001 fs_unreadable
                     ltac:(lia)) sched_3000_3002 s steady_3000_3002 Hrun)
    as [Hout _].
  destruct (Hout Hfin) as (out & Hsort & Hseq).
  exists s, out. split; [exact Hrun|]. split; [exact Hports|]. split; [exact Hsort|].
  exact Hseq.
Defined.

(** X15. The report of [checkPortRange]: the results handed to
    [printResult] are the results in use, in the order of the sorted
    slice; the three numbers of the summary are the length of the slice,
    the number of results in use and the number of results not in use; no
    addition or subtraction wraps around, and in use + available =
    scanned. *)
Theorem X15_report_counts (rs : list PortResult) :
  Z.of_nat (length rs) ≤ max_int →
  ∃ printed sum,
    report rs = (printed, sum)
    ∧ printed = filter (λ r, InUse r = true) rs
    ∧ scanned sum = Z.of_nat (length rs)
    ∧ in_use sum = Z.of_nat (length printed)
    ∧ available sum = Z.of_nat (length (filter (λ r, InUse r = false) rs))
    ∧ in_use sum + available sum = scanned sum.
Proof.
  intros Hmax. rewrite report_spec by done.
  eexists _, _. split; [reflexivity|]. simpl.
  pose proof (filter_InUse_length rs). repeat split; lia.
Qed.

(** X15, witness: three results of which the second is in use. *)
Lemma X15_witness :
  ∃ printed sum,
    report [ {| Port := 3000; InUse := false; PID := 0; Process := "" |};
             {| Port := 3001; InUse := true; PID := 0; Process := "" |};
             {| Port := 3002; InUse := false; PID := 0; Process := "" |} ]
    = (printed, sum)
    ∧ in_use sum + available sum = scanned sum.
Proof.
  destruct (X15_report_counts
              [ {| Port := 3000; InUse := false; PID := 0; Process := "" |};
                {| Port := 3001; InUse := true; PID := 0; Process := "" |};
                {| Port := 3002; InUse := false; PID := 0; Process := "" |} ])
    as (printed & sum & Hreport & _ & _ & _ & _ & Hsum).
  { unfold max_int. simpl. lia. }
  exists printed, sum. split; [exact Hreport|exact Hsum].
Defined.

(** X16. The report of a scan of a valid range on a host that does not
    change, under every schedule: the ports printed are the ports of
    [start, end] on which the bind fails, in ascending order, each with
    the result of its own probe; the summary counts [end - start + 1]
    ports scanned, as many in use as lines printed, and the rest
    available. Both files. *)
Theorem X16_scan_report (start end_ : Z) (showPID : bool) (n : Net) (fs : FS)
    (evs : list Event) :
  1 ≤ start ≤ end_ ≤ 65535 →
  steady n fs evs →
  (∀ s, MainGo_checkPortRange start end_ showPID evs = Next s →
        main_pc s = Finished →
        ∃ out printed,
          MainGo_sort (portResults s) = Some out
          ∧ report out
            = (printed,
               {| scanned := end_ - start + 1;
                  in_use := Z.of_nat (length printed);
                  available := end_ - start + 1 - Z.of_nat (length printed) |})
          ∧ Port <$> printed
            = filter (λ p, bind_fails n p = true) (seqZ start (end_ - start + 1))
          ∧ Forall (λ r, InUse r = true ∧ probe_of MainGo.checkPort n fs showPID r)
              printed)
  ∧ (∀ s, Part000_checkPortRange start end_ showPID evs = Next s →
          main_pc s = Finished →
          ∃ out printed,
            Part000_sort (portResults s) = Some out
            ∧ report out
              = (printed,
                 {| scanned := end_ - start + 1;
                    in_use := Z.of_nat (length printed);
                    available := end_ - start + 1 - Z.of_nat (length printed) |})
            ∧ Port <$> printed
              = filter (λ p, bind_fails n p = true) (seqZ start (end_ - start + 1))
            ∧ Forall (λ r, InUse r = true ∧ probe_of Part000.checkPort n fs showPID r)
                printed).
Proof.
  intros Hvalid Hsteady. split; intros s Hrun Hfin.
  - apply (scan_summary MainGo.checkPort start end_ showPID MainGo_checkPort_frame Hvalid n fs
             MainGo_checkPort_InUse MainGo_sort evs s MainGo_sort_sorts Hsteady Hrun Hfin).
  - apply (scan_summary Part000.checkPort start end_ showPID Part000_checkPort_frame Hvalid n fs
             Part000_checkPort_InUse Part000_sort evs s Part000_sort_sorts
             Hsteady Hrun Hfin).
Qed.

(** X16, witness: ports 3000 to 3002 of which only 3001 holds a listener:
    one line is printed, for port 3001, and the summary reads 3 ports
    scanned, 1 in use, 2 available. *)
Lemma X16_witness :
  ∃ s out printed,
    MainGo_checkPortRange 3000 3002 true sched_3000_3002 = Next s
    ∧ MainGo_sort (portResults s) = Some out
    ∧ report out = (printed, {| scanned := 3; in_use := 1; available := 2 |})
    ∧ Port <$> printed = [3001].
Proof.
  assert (∃ s, MainGo_checkPortRange 3000 3002 true sched_3000_3002 = Next s
               ∧ main_pc s = Finished) as (s & Hrun & Hfin).
  { vm_compute. eexists. split; reflexivity. }
  destruct (proj1 (X16_scan_report 3000 3002 true host_3001 fs_unreadable
                     sched_3000_3002 ltac:(lia) steady_3000_3002) s Hrun Hfin)
    as (out & printed & Hsort & Hreport & Hports & _).
  assert (filter (λ p, bind_fails host_3001 p = true) (seqZ 3000 (3002 - 3000 + 1))
          = [3001]) as Hfails by reflexivity.
  rewrite Hfails in Hports.
  assert (length printed = 1%nat) as Hlen.
  { by rewrite <- (length_fmap Port), Hports. }
  rewrite Hlen in Hreport.
  exists s, out, printed. split; [exact Hrun|]. split; [exact Hsort|].
  split; [exact Hreport|exact Hports].
Defined.

(** * Further properties: the prober and the caller                       *)

(** X17. [checkPort] looks at the socket tables and at /proc only for a
    port whose bind fails and with the resolution flag set: with the flag
    unset, or on a port it can bind, its result is the same on every file
    system. Both files. *)
Theorem X17_probe_reads_proc_only_to_resolve (n : Net) (fs fs' : FS) (port : Z)
    (getPID : bool) :
  getPID = false ∨ bind_fails n port = false →
  MainGo.checkPort n fs port getPID = MainGo.checkPort n fs' port getPID
  ∧ Part000.checkPort n fs port getPID = Part000.checkPort n fs' port getPID.
Proof.
  unfold bind_fails, MainGo.checkPort, Part000.checkPort.
  destruct (net_Listen n port) as [[l|] n1]; simpl; [done|].
  intros [->|?]; done.
Qed.

(** X17, witness: port 8080 is free; the flag is set. *)
Lemma X17_witness :
  MainGo.checkPort (net_with []) fs_testproc 8080 true
  = MainGo.checkPort (net_with []) fs_unreadable 8080 true.
Proof.
  exact (proj1 (X17_probe_reads_proc_only_to_resolve (net_with []) fs_testproc
                  fs_unreadable 8080 true (or_intror eq_refl))).
Defined.

Lemma main_RunRange_valid args start end_ showPID :
  main args = RunRange start end_ showPID → 1 ≤ start ≤ end_ ≤ 65535.
Proof.
  unfold main. destruct args as [|prog [|arg1 more]]; [done|done|].
  destruct (if String.eqb arg1 "--pid" || String.eqb arg1 "-p"
            then match more with [] => None | arg2 :: _ => Some (true, arg2) end
            else Some (false, arg1)) as [[b portArg]|]; [|done].
  destruct (String.eqb portArg "-h" || String.eqb portArg "--help"); [done|].
  destruct (Contains portArg "-").
  - destruct (Split portArg "-") as [|part0 [|part1 [|? ?]]]; try done.
    destruct (Atoi part0) as [start'|]; [|done].
    destruct (Atoi part1) as [end'|]; [|done].
    destruct (Z.ltb_spec end' start'); [done|].
    destruct (Z.ltb_spec start' 1); [done|].
    destruct (Z.ltb_spec 65535 end'); [done|]. simpl.
    intros [= <- <- <-]. lia.
  - destruct (Atoi portArg) as [port|]; [|done].
    by destruct ((port <? 1) || (65535 <? port)).
Qed.

(** X18. Every range scan [main] starts is one that cannot panic: the
    capacity [end-start+1] of the channel of results is computed without
    wrap-around and lies in [1, 65535], and under every schedule no
    goroutine of the scan panics (no negative capacity, no send on a
    closed channel, no second close, no negative WaitGroup counter).
    Both files. *)
Theorem X18_main_guards_the_scan (args : list string) (start end_ : Z) (showPID : bool) :
  main args = RunRange start end_ showPID →
  results_cap start end_ = end_ - start + 1
  ∧ 1 ≤ results_cap start end_ ≤ 65535
  ∧ ∀ evs, MainGo_checkPortRange start end_ showPID evs ≠ Panicked
           ∧ Part000_checkPortRange start end_ showPID evs ≠ Panicked.
Proof.
  intros Hmain. apply main_RunRange_valid in Hmain as Hvalid.
  rewrite results_cap_valid by done. split; [done|]. split; [lia|].
  intros evs. split.
  - apply (checkPortRange_no_panic MainGo.checkPort start end_ showPID
             MainGo_checkPort_frame Hvalid).
  - apply (checkPortRange_no_panic Part000.checkPort start end_ showPID
             Part000_checkPort_frame Hvalid).
Qed.

(** X18, witness: the arguments --pid 3000-3002. *)
Lemma X18_witness :
  main ["portcheck"; "--pid"; "3000-3002"] = RunRange 3000 3002 true
  ∧ results_cap 3000 3002 = 3
  ∧ MainGo_checkPortRange 3000 3002 true sched_3000_3002 ≠ Panicked.
Proof.
  split; [reflexivity|].
  destruct (X18_main_guards_the_scan ["portcheck"; "--pid"; "3000-3002"]
              3000 3002 true eq_refl) as (Hcap & _ & Hsafe).
  split; [exact Hcap|]. exact (proj1 (Hsafe sched_3000_3002)).
Defined.

(** X19. [checkPortRange] itself does not check its range: called with
    [end + 1 < start] and a difference [end - start] that fits an int
    ([- 2^63 <= end - start], as for every two ports and every two
    integers of the same sign), it panics at the [make] of the channel of
    results, whose capacity [end-start+1] is negative, under every
    schedule and so before any port is probed; the check of [main] is what
    keeps it from that. Both files. *)
Theorem X19_reversed_range_panics (start end_ : Z) (showPID : bool) (evs : list Event) :
  min_int ≤ end_ - start → end_ + 1 < start →
  MainGo_checkPortRange start end_ showPID evs = Panicked
  ∧ Part000_checkPortRange start end_ showPID evs = Panicked.
Proof.
  unfold min_int. intros Hfits Hlt.
  assert (init start end_ = None) as Hinit.
  { unfold init, results_cap, int_add, int_sub, wrap64.
    rewrite (Z.mod_small (end_ - start + 2 ^ 63)) by lia.
    rewrite Z.mod_small by lia.
    destruct (Z.ltb_spec (end_ - start + 2 ^ 63 - 2 ^ 63 + 1 + 2 ^ 63 - 2 ^ 63) 0);
      [done|lia]. }
  unfold MainGo_checkPortRange, Part000_checkPortRange, checkPortRange.
  by rewrite Hinit.
Qed.

(** X19, witness: the range 100-50, which [main] refuses. *)
Lemma X19_witness :
  main ["portcheck"; "100-50"] = ErrorExit (red +:+ "Error: Invalid port range" +:+ reset)
  ∧ MainGo_checkPortRange 100 50 false [] = Panicked.
Proof.
  split; [reflexivity|].
  apply (X19_reversed_range_panics 100 50 false []); unfold min_int; lia.
Defined.
